(** * Tangents: Steiner-Parker multimode filter (tangents.cpp)

    A shallow embedding of the signal path of [tangents.cpp] and the
    properties of its specification.

    Number model.  The C++ code computes on [float].  Two models of it are
    used.

    In the first, a [float] is an extended real: a finite value carries a
    real number, and the two infinities and NaN are values of their own,
    with the IEEE-754 rules for them (NaN is contagious and compares false
    with everything, 0 * inf, inf - inf and 0 / 0 are NaN, x / 0 is an
    infinity).  Arithmetic on finite values is exact: rounding, overflow of
    a finite result, subnormal numbers and the sign of zero are not
    modelled, and a decimal literal of the source stands for that decimal
    number.  The library functions [expf], [tanf], [powf] and [log10f] are
    the real functions.  Statements in this model are worded so that the
    rounding of single precision does not invalidate them: bounds carry
    slack, intervals are closed where rounding reaches their ends, and
    inputs are limited where a finite result could overflow.

    In the second, [Binary32], a [float] is a [spec_float] of the standard
    library with 24 bits of precision, and every operation rounds to
    nearest-even: it gives the results of the arithmetic of the source bit
    for bit.  It is used for the functions that need no library call, and
    for values that the first model cannot show.

    Integers ([int], [uint32_t]) are [Z]; the 32-bit wrap-around of the
    random generator is written out. *)

From Stdlib Require Import ZArith Reals Lra Lia List Bool.
From Stdlib Require Import Floats.SpecFloat.
Import ListNotations.

Local Open Scope R_scope.

(** ** Floating-point values *)

Inductive float : Type :=
| NaN : float
| Inf (neg : bool) : float
| Fin (r : R) : float.

Definition Rltb (a b : R) : bool := if Rlt_dec a b then true else false.
Definition Reqb (a b : R) : bool := if Req_dec_T a b then true else false.

Module FloatOps.

Definition is_finite (x : float) : bool :=
  match x with Fin _ => true | _ => false end.

Definition neg (x : float) : float :=
  match x with
  | NaN => NaN
  | Inf s => Inf (negb s)
  | Fin r => Fin (- r)
  end.

Definition add (x y : float) : float :=
  match x, y with
  | NaN, _ | _, NaN => NaN
  | Inf s, Inf t => if Bool.eqb s t then Inf s else NaN
  | Inf s, Fin _ => Inf s
  | Fin _, Inf t => Inf t
  | Fin a, Fin b => Fin (a + b)
  end.

Definition sub (x y : float) : float := add x (neg y).

(** Sign of a finite operand, for a product or quotient with an infinity:
    [Some true] negative, [Some false] positive, [None] zero. *)
Definition sign (r : R) : option bool :=
  if Rltb r 0 then Some true else if Rltb 0 r then Some false else None.

Definition mul (x y : float) : float :=
  match x, y with
  | NaN, _ | _, NaN => NaN
  | Inf s, Inf t => Inf (xorb s t)
  | Inf s, Fin r | Fin r, Inf s =>
      match sign r with
      | Some t => Inf (xorb s t)
      | None => NaN
      end
  | Fin a, Fin b => Fin (a * b)
  end.

Definition div (x y : float) : float :=
  match x, y with
  | NaN, _ | _, NaN => NaN
  | Inf _, Inf _ => NaN
  | Inf s, Fin r =>
      match sign r with
      | Some t => Inf (xorb s t)
      | None => Inf s
      end
  | Fin _, Inf _ => Fin 0
  | Fin a, Fin b =>
      if Reqb b 0 then
        match sign a with
        | Some t => Inf t
        | None => NaN
        end
      else Fin (a / b)
  end.

(** [x < y]; false as soon as one side is NaN. *)
Definition lt (x y : float) : bool :=
  match x, y with
  | NaN, _ | _, NaN => false
  | Fin a, Fin b => Rltb a b
  | Inf true, Inf true => false
  | Inf true, _ => true
  | Inf false, _ => false
  | Fin _, Inf t => negb t
  end.

Definition gt (x y : float) : bool := lt y x.

(** [x != y]; true as soon as one side is NaN. *)
Definition ne (x y : float) : bool :=
  match x, y with
  | NaN, _ | _, NaN => true
  | Fin a, Fin b => negb (Reqb a b)
  | Inf s, Inf t => negb (Bool.eqb s t)
  | _, _ => true
  end.

Definition fabsf (x : float) : float :=
  match x with
  | NaN => NaN
  | Inf _ => Inf false
  | Fin r => Fin (Rabs r)
  end.

Definition expf (x : float) : float :=
  match x with
  | NaN => NaN
  | Inf false => Inf false
  | Inf true => Fin 0
  | Fin r => Fin (exp r)
  end.

Definition tanf (x : float) : float :=
  match x with
  | Fin r => Fin (tan r)
  | _ => NaN
  end.

(** [powf(2.0f, y)], the only use of [powf] in the signal path. *)
Definition pow2f (y : float) : float :=
  match y with
  | NaN => NaN
  | Inf false => Inf false
  | Inf true => Fin 0
  | Fin r => Fin (Rpower 2 r)
  end.

Definition of_int (n : Z) : float := Fin (IZR n).

(** [(int)x]: truncation toward zero.  The conversion of NaN or of a value
    out of the range of [int] is undefined in C++; the Cortex-M7 target of
    the Makefile saturates and maps NaN to 0, which is what is written
    here. *)
Definition INT_MAX : Z := 2147483647.
Definition INT_MIN : Z := -2147483648.

Definition trunc (r : R) : Z :=
  if Rltb r 0 then (- Int_part (- r))%Z else Int_part r.

Definition to_int (x : float) : Z :=
  match x with
  | NaN => 0%Z
  | Inf true => INT_MIN
  | Inf false => INT_MAX
  | Fin r => Z.max INT_MIN (Z.min INT_MAX (trunc r))
  end.

End FloatOps.

Declare Scope float_scope.
Delimit Scope float_scope with float.
Bind Scope float_scope with float.
Infix "+" := FloatOps.add : float_scope.
Infix "-" := FloatOps.sub : float_scope.
Infix "*" := FloatOps.mul : float_scope.
Infix "/" := FloatOps.div : float_scope.
Infix "<?" := FloatOps.lt (at level 70, no associativity) : float_scope.
Infix ">?" := FloatOps.gt (at level 70, no associativity) : float_scope.
Notation "- x" := (FloatOps.neg x) : float_scope.

(** A decimal literal of the source. *)
Notation "'#' r" := (Fin r%R) (at level 5, r at level 1, format "'#' r").

Import FloatOps.

(** ** Helper functions of the source *)

(** [fastTanh]: rational approximation of tanh, clamped outside [-3, 3]. *)
Definition fastTanh (x : float) : float :=
  if (x >? #3)%float then #1
  else if (x <? #(-3))%float then #(-1)
  else
    let x2 := (x * x)%float in
    (x * (#27 + x2) / (#27 + #9 * x2))%float.

(** [diodeClip]: asymmetric soft clipping of the MS model. *)
Definition diodeClip (x : float) : float :=
  if (x >? #0)%float then (#1 - expf (- x))%float
  else (#(-0.5) * (#1 - expf (#2 * x)))%float.

(** [aggressiveSat]: tanh of twice the input, folded back above 0.8. *)
Definition aggressiveSat (x : float) : float :=
  let x := fastTanh (x * #2)%float in
  if (fabsf x >? #0.8)%float then
    let excess := (fabsf x - #0.8)%float in
    ((if (x >? #0)%float then #1 else #(-1)) * (#0.8 - excess * #0.5))%float
  else x.

(** [sanitize]: 0 for NaN and for a magnitude beyond 1e10. *)
Definition sanitize (x : float) : float :=
  if ne x x || (x >? #1e10)%float || (x <? #(-1e10))%float then #0 else x.

(** [softClamp]: hard limit to [-limit, limit]. *)
Definition softClamp (x limit : float) : float :=
  if (x >? limit)%float then limit
  else if (x <? - limit)%float then (- limit)%float
  else x.

(** ** Pseudo-random generator *)

Definition wrap32 (z : Z) : Z := (z mod 2 ^ 32)%Z.

(** The three xorshift updates of [fastRandom] on a [uint32_t]. *)
Definition xorshift (state : Z) : Z :=
  let state := Z.lxor state (wrap32 (Z.shiftl state 13)) in
  let state := Z.lxor state (Z.shiftr state 17) in
  let state := Z.lxor state (wrap32 (Z.shiftl state 5)) in
  state.

(** [fastRandom]: the returned value and the updated state. *)
Definition fastRandom (state : Z) : float * Z :=
  let state := xorshift state in
  ((of_int (Z.land state 0x7FFFFFFF) / of_int 0x7FFFFFFF)%float, state).

(** ** Attenu-Gain-Randomizer *)

(** The three zones of [processAGR], one definition per branch. *)
Definition agrRandomZone (agrValue : Z) (randState : Z) : float * Z :=
  let randomMix := (#1 - of_int agrValue / #25)%float in
  let baseGain := (of_int agrValue / #50)%float in
  let '(randomGain, randState) := fastRandom randState in
  ((baseGain + randomGain * randomMix)%float, randState).

Definition agrAttenZone (agrValue : Z) : float :=
  let t := (of_int (agrValue - 25) / #25)%float in
  (#0.5 + t * #0.5)%float.

Definition agrAmpZone (agrValue : Z) : float :=
  let t := (of_int (agrValue - 50) / #50)%float in
  (#1 + t * #3)%float.

(** [processAGR]: the gain and the updated random state. *)
Definition processAGR (agrValue : Z) (randState : Z) : float * Z :=
  if (agrValue <=? 25)%Z then agrRandomZone agrValue randState
  else if (agrValue <=? 50)%Z then (agrAttenZone agrValue, randState)
  else (agrAmpZone agrValue, randState).

(** ** Filter state *)

(** [_tangentsAlgorithm_DTC]. *)
Record DTC : Type := mkDTC {
  lp : float;
  bp : float;
  hp : float;
  g : float;
  k : float;
  gInv : float;
  cutoffSmooth : float;
  resonanceSmooth : float;
  driveSmooth : float;
  agrSmooth : float;
  cvCutoffAmtSmooth : float;
  cvResAmtSmooth : float;
  randState : Z;
  inputLevel : float;
  outputLevel : float
}.

Definition set_filter (d : DTC) (lp' bp' hp' : float) : DTC :=
  mkDTC lp' bp' hp' (g d) (k d) (gInv d)
        (cutoffSmooth d) (resonanceSmooth d) (driveSmooth d) (agrSmooth d)
        (cvCutoffAmtSmooth d) (cvResAmtSmooth d) (randState d)
        (inputLevel d) (outputLevel d).

Definition set_coeffs (d : DTC) (g' k' gInv' : float) : DTC :=
  mkDTC (lp d) (bp d) (hp d) g' k' gInv'
        (cutoffSmooth d) (resonanceSmooth d) (driveSmooth d) (agrSmooth d)
        (cvCutoffAmtSmooth d) (cvResAmtSmooth d) (randState d)
        (inputLevel d) (outputLevel d).

Definition set_smooth (d : DTC) (cutoff' res' drive' agr' cvCut' cvRes' : float) : DTC :=
  mkDTC (lp d) (bp d) (hp d) (g d) (k d) (gInv d)
        cutoff' res' drive' agr' cvCut' cvRes' (randState d)
        (inputLevel d) (outputLevel d).

Definition set_randState (d : DTC) (s : Z) : DTC :=
  mkDTC (lp d) (bp d) (hp d) (g d) (k d) (gInv d)
        (cutoffSmooth d) (resonanceSmooth d) (driveSmooth d) (agrSmooth d)
        (cvCutoffAmtSmooth d) (cvResAmtSmooth d) s
        (inputLevel d) (outputLevel d).

Definition set_levels (d : DTC) (inL outL : float) : DTC :=
  mkDTC (lp d) (bp d) (hp d) (g d) (k d) (gInv d)
        (cutoffSmooth d) (resonanceSmooth d) (driveSmooth d) (agrSmooth d)
        (cvCutoffAmtSmooth d) (cvResAmtSmooth d) (randState d)
        inL outL.

(** ** Coefficient calculator *)

(** [M_PI].  The source defines it, when [math.h] does not, as the literal
    below with suffix [f], which single precision rounds to 3.14159274;
    [math.h] gives the same digits as a [double].  The bounds stated on the
    coefficients leave room for both. *)
Definition M_PI : float := #3.14159265358979323846.

(** [calculateFilterCoeffs]: stores [g], [k] and [gInv] in the state. *)
Definition calculateFilterCoeffs (dtc : DTC) (cutoff resonance sampleRate : float) : DTC :=
  let cutoff := if (cutoff <? #20)%float then #20 else cutoff in
  let cutoff :=
    if (cutoff >? sampleRate * #0.45)%float then (sampleRate * #0.45)%float
    else cutoff in
  let g := tanf (M_PI * cutoff / sampleRate)%float in
  let k := (#2 - resonance * #1.9)%float in
  set_coeffs dtc g k (#1 / (#1 + g * (g + k)))%float.

(** ** Parameters and construction *)

(** The parameter indices of the source's [enum]. *)
Inductive Param : Type :=
| kParamInput | kParamOutput | kParamOutputMode
| kParamCutoff | kParamResonance | kParamMode | kParamModel
| kParamCvCutoff | kParamCvCutoffAmt | kParamCvResonance | kParamCvResonanceAmt
| kParamInputAGR | kParamDrive | kParamOversample.

Definition DEFAULT_OVERSAMPLE : Z := 2.

(** [construct]: the state after [memset], the seed, the default smoothed
    values and the initial coefficients.  [sampleRate] is
    [NT_globals.sampleRate] of the host. *)
Definition construct (sampleRate : Z) : DTC :=
  let dtc :=
    mkDTC #0 #0 #0 #0 #0 #0
          #1000 #0 #1 #50 #1 #1
          0x12345678
          #0 #0 in
  calculateFilterCoeffs dtc #1000 #0 (of_int (sampleRate * DEFAULT_OVERSAMPLE)).

(** ** The audio callback *)

(** The pre-filter saturation, [switch (model)] inside the oversampling
    loop. *)
Definition preSaturate (model : Z) (input resAmt : float) : float :=
  match model with
  | 0%Z => fastTanh (input * (#1 + resAmt))%float
  | 1%Z => diodeClip (input * (#1 + resAmt * #0.5))%float
  | 2%Z => aggressiveSat (input * (#1 + resAmt * #2))%float
  | _ => fastTanh input
  end.

(** The accumulation [switch (mode)]; it has no [default]. *)
Definition accumulate (mode : Z) (output lp' bp' hp' : float) : float :=
  match mode with
  | 0%Z => (output + lp')%float
  | 1%Z => (output + bp')%float
  | 2%Z => (output + hp')%float
  | 3%Z => (output + (lp' - hp'))%float
  | _ => output
  end.

(** The output-stage saturation, [switch (model)] after the averaging. *)
Definition outSaturate (model : Z) (output : float) : float :=
  match model with
  | 0%Z => fastTanh output
  | 1%Z => diodeClip output
  | 2%Z => aggressiveSat output
  | _ => fastTanh output
  end.

(** One pass of the oversampling loop: the state and the accumulator. *)
Definition osBody (mode model : Z) (input resAmt : float)
    (st : DTC * float) : DTC * float :=
  let '(dtc, output) := st in
  let u := preSaturate model input resAmt in
  let hp' := ((u - k dtc * bp dtc - lp dtc) * gInv dtc)%float in
  let bp' := (g dtc * hp' + bp dtc)%float in
  let lp' := (g dtc * bp' + lp dtc)%float in
  let bp' := softClamp bp' #5 in
  let lp' := softClamp lp' #5 in
  let dtc := set_filter dtc (sanitize lp') (sanitize bp') (sanitize hp') in
  (dtc, accumulate mode output lp' bp' hp').

(** [for (int os = 0; os < oversample; ++os)], [n] passes. *)
Fixpoint osLoop (n : nat) (mode model : Z) (input resAmt : float)
    (st : DTC * float) : DTC * float :=
  match n with
  | O => st
  | S n' => osLoop n' mode model input resAmt (osBody mode model input resAmt st)
  end.

(** The values of one loop iteration that the rest of [step] uses. *)
Record Sample : Type := mkSample {
  s_dtc : DTC;
  s_gain : float;     (* [agrGain] *)
  s_input : float;    (* [input], after AGR and drive *)
  s_output : float    (* [output], as written or added to the bus *)
}.

(** The body of the per-sample loop up to the output-stage saturation, for
    the bus sample [x = in[i]]. *)
Definition processSample (mode model oversample : Z) (resAmt : float)
    (dtc : DTC) (x : float) : Sample :=
  let '(agrGain, rs) := processAGR (to_int (agrSmooth dtc)) (randState dtc) in
  let dtc := set_randState dtc rs in
  let input := (x * agrGain * driveSmooth dtc)%float in
  let '(dtc, output) :=
    osLoop (Z.to_nat oversample) mode model input resAmt (dtc, #0) in
  let output := (output / of_int oversample)%float in
  let output := sanitize output in
  let output := outSaturate model output in
  mkSample dtc agrGain input output.

(** The bus memory [busFrames], indexed by sample. *)
Definition Bus : Type := Z -> float.

Definition store (bus : Bus) (i : Z) (x : float) : Bus :=
  fun j => if (j =? i)%Z then x else bus j.

(** The variables the per-sample loop carries.  [l_gains] and [l_outs]
    record the values of [agrGain] and of [output] in the order the loop
    produces them. *)
Record LoopState : Type := mkLoop {
  l_dtc : DTC;
  l_bus : Bus;
  l_maxIn : float;
  l_maxOut : float;
  l_gains : list float;
  l_outs : list float
}.

Definition sampleBody (mode model oversample : Z) (resAmt : float)
    (inp out : Z) (replace : bool) (i : Z) (st : LoopState) : LoopState :=
  let s := processSample mode model oversample resAmt (l_dtc st) (l_bus st (inp + i)%Z) in
  let absIn := fabsf (s_input s) in
  let maxIn := if (absIn >? l_maxIn st)%float then absIn else l_maxIn st in
  let absOut := fabsf (s_output s) in
  let maxOut := if (absOut >? l_maxOut st)%float then absOut else l_maxOut st in
  let bus :=
    if replace then store (l_bus st) (out + i)%Z (s_output s)
    else store (l_bus st) (out + i)%Z (l_bus st (out + i)%Z + s_output s)%float in
  mkLoop (s_dtc s) bus maxIn maxOut
         (l_gains st ++ [s_gain s]) (l_outs st ++ [s_output s]).

(** [for (int i = 0; i < numFrames; ++i)]: [n] iterations from index [i]. *)
Fixpoint sampleLoop (n : nat) (mode model oversample : Z) (resAmt : float)
    (inp out : Z) (replace : bool) (i : Z) (st : LoopState) : LoopState :=
  match n with
  | O => st
  | S n' =>
      sampleLoop n' mode model oversample resAmt inp out replace (i + 1)%Z
        (sampleBody mode model oversample resAmt inp out replace i st)
  end.

(** [param += (target - param) * smoothCoeff]. *)
Definition smoothCoeff : float := #0.1.

Definition smooth (stored target : float) : float :=
  (stored + (target - stored) * smoothCoeff)%float.

(** The part of [step] before the loop: smoothing and coefficients.
    [oversample] is [1 << osParam]; the parameter is declared with the range
    0..4, which gives 1, 2, 4, 8 or 16. *)
Definition prepareBlock (sampleRate : Z) (v : Param -> Z) (dtc : DTC)
    (busFrames : Bus) (numFrames : Z) : DTC :=
  let cvCutoff :=
    if (v kParamCvCutoff >? 0)%Z then Some ((v kParamCvCutoff - 1) * numFrames)%Z else None in
  let cvResonance :=
    if (v kParamCvResonance >? 0)%Z then Some ((v kParamCvResonance - 1) * numFrames)%Z else None in
  let baseCutoff := of_int (v kParamCutoff) in
  let baseResonance := (of_int (v kParamResonance) / #1000)%float in
  let cvCutoffAmtTarget := (of_int (v kParamCvCutoffAmt) / #1000)%float in
  let cvResAmtTarget := (of_int (v kParamCvResonanceAmt) / #1000)%float in
  let agrTarget := (of_int (v kParamInputAGR) / #10)%float in
  let driveTarget := (#1 + of_int (v kParamDrive) / #250)%float in
  let oversample := Z.shiftl 1 (v kParamOversample) in
  let oversampleRate := of_int (sampleRate * oversample) in
  let drive' := smooth (driveSmooth dtc) driveTarget in
  let agr' := smooth (agrSmooth dtc) agrTarget in
  let cvCut' := smooth (cvCutoffAmtSmooth dtc) cvCutoffAmtTarget in
  let cvRes' := smooth (cvResAmtSmooth dtc) cvResAmtTarget in
  let cutoff :=
    match cvCutoff with
    | Some p =>
        let cvVal := (busFrames p * cvCut')%float in
        (baseCutoff * pow2f (cvVal * #5))%float
    | None => baseCutoff
    end in
  let resonance :=
    match cvResonance with
    | Some p =>
        let cvVal := (busFrames p * cvRes')%float in
        let resonance := (baseResonance + cvVal * #0.5)%float in
        let resonance := if (resonance <? #0)%float then #0 else resonance in
        if (resonance >? #1)%float then #1 else resonance
    | None => baseResonance
    end in
  let cutoff' := smooth (cutoffSmooth dtc) cutoff in
  let res' := smooth (resonanceSmooth dtc) resonance in
  let dtc := set_smooth dtc cutoff' res' drive' agr' cvCut' cvRes' in
  calculateFilterCoeffs dtc (cutoffSmooth dtc) (resonanceSmooth dtc) oversampleRate.

(** [resAmt], computed once before the loop. *)
Definition resonanceAmount (dtc : DTC) : float := ((#2 - k dtc) / #1.9)%float.

(** The per-sample loop of [step] on the prepared state. *)
Definition blockLoop (v : Param -> Z) (dtc : DTC) (busFrames : Bus)
    (numFrames : Z) (n : nat) : LoopState :=
  let inp := ((v kParamInput - 1) * numFrames)%Z in
  let out := ((v kParamOutput - 1) * numFrames)%Z in
  let replace := negb (v kParamOutputMode =? 0)%Z in
  sampleLoop n (v kParamMode) (v kParamModel) (Z.shiftl 1 (v kParamOversample))
    (resonanceAmount dtc) inp out replace 0
    (mkLoop dtc busFrames #0 #0 [] []).

(** [step]: the state after the block, with the bus, the block peaks and
    the recorded gains and outputs. *)
Definition step (sampleRate : Z) (v : Param -> Z) (dtc : DTC)
    (busFrames : Bus) (numFramesBy4 : Z) : LoopState :=
  let numFrames := (numFramesBy4 * 4)%Z in
  let dtc := prepareBlock sampleRate v dtc busFrames numFrames in
  let st := blockLoop v dtc busFrames numFrames (Z.to_nat numFrames) in
  let dtc := l_dtc st in
  let dtc :=
    set_levels dtc
      (inputLevel dtc * #0.95 + l_maxIn st * #0.05)%float
      (outputLevel dtc * #0.95 + l_maxOut st * #0.05)%float in
  mkLoop dtc (l_bus st) (l_maxIn st) (l_maxOut st) (l_gains st) (l_outs st).

(** A block handed to [step] by the host: the parameter values, the bus
    memory and the block size. *)
Record Block : Type := mkBlock {
  b_v : Param -> Z;
  b_bus : Bus;
  b_numFramesBy4 : Z
}.

(** Successive calls of [step]: the final state and the result of every
    block. *)
Fixpoint run (sampleRate : Z) (blocks : list Block) (dtc : DTC)
    : DTC * list LoopState :=
  match blocks with
  | [] => (dtc, [])
  | b :: rest =>
      let r := step sampleRate (b_v b) dtc (b_bus b) (b_numFramesBy4 b) in
      let '(dtc', rs) := run sampleRate rest (l_dtc r) in
      (dtc', r :: rs)
  end.

(** ** Predicates and sample data of the statements *)

(** A 32-bit value: the range of [uint32_t]. *)
Definition u32 (s : Z) : Prop := (0 <= s < 2 ^ 32)%Z.

(** The state after [n] calls of [fastRandom]. *)
Definition randomStateAfter (n : nat) (seed : Z) : Z :=
  Nat.iter n (fun s => snd (fastRandom s)) seed.

Definition coeffs (d : DTC) : float * float * float := (g d, k d, gInv d).

(** [frame d d']: [d'] differs from [d] at most in the filter state
    [lp, bp, hp] and in the random state. *)
Definition frame (d d' : DTC) : Prop :=
  coeffs d' = coeffs d /\
  cutoffSmooth d' = cutoffSmooth d /\
  resonanceSmooth d' = resonanceSmooth d /\
  driveSmooth d' = driveSmooth d /\
  agrSmooth d' = agrSmooth d /\
  cvCutoffAmtSmooth d' = cvCutoffAmtSmooth d /\
  cvResAmtSmooth d' = cvResAmtSmooth d /\
  inputLevel d' = inputLevel d /\
  outputLevel d' = outputLevel d.

Definition known_model (model : Z) : bool :=
  ((model =? 0) || (model =? 1) || (model =? 2))%Z.

Definition known_mode (mode : Z) : bool :=
  ((mode =? 0) || (mode =? 1) || (mode =? 2) || (mode =? 3))%Z.

Definition bounded_sample (o : float) : Prop :=
  exists r, o = #r /\ Rabs r <= 1.2.

(** A state with the cutoff at a quarter of the effective rate and no
    resonance ([g = 1], [k = 2], [gInv = 1 / (1 + 1 * (1 + 2))]), unity AGR
    and drive, and a silent filter. *)
Definition quarterRateState : DTC :=
  mkDTC #0 #0 #0 #1 #2 #0.25 #1000 #0 #1 #50 #1 #1 0x12345678 #0 #0.

(** A value that is zero or NaN; both are turned into 0 by [sanitize]. *)
Definition zeroish (x : float) : Prop := x = #0 \/ x = NaN.

(** The filter state is at rest. *)
Definition silent (d : DTC) : Prop := lp d = #0 /\ bp d = #0 /\ hp d = #0.

(** What the per-sample loop keeps while the input samples from index [i]
    on are zero; the input bus starts at [a * numFrames]. *)
Definition silentLoopInv (a numFrames i : Z) (d0 : DTC) (st : LoopState) : Prop :=
  silent (l_dtc st) /\ frame d0 (l_dtc st) /\
  l_maxIn st = #0 /\ l_maxOut st = #0 /\
  (forall j, (i <= j < numFrames)%Z -> l_bus st (a * numFrames + j)%Z = #0).

(** The input bus of a block is all zero. *)
Definition silentInput (b : Block) : Prop :=
  let numFrames := (b_numFramesBy4 b * 4)%Z in
  forall i : Z, (0 <= i < numFrames)%Z ->
    b_bus b ((b_v b kParamInput - 1) * numFrames + i)%Z = #0.

(** The default of every parameter: [.def] in [parameters[]], input bus 1
    and output bus 13 from the routing macros, and the Replace output mode
    of the README. *)
Definition defaultParams (p : Param) : Z :=
  match p with
  | kParamInput => 1
  | kParamOutput => 13
  | kParamOutputMode => 1
  | kParamCutoff => 1000
  | kParamResonance => 0
  | kParamMode => 0
  | kParamModel => 0
  | kParamCvCutoff => 0
  | kParamCvCutoffAmt => 1000
  | kParamCvResonance => 0
  | kParamCvResonanceAmt => 1000
  | kParamInputAGR => 500
  | kParamDrive => 0
  | kParamOversample => 1
  end%Z.

(** A block of 4 frames on an all-zero bus memory. *)
Definition zeroBlock : Block := mkBlock defaultParams (fun _ => #0) 1.

(** Two states agree on what the randomizer reads. *)
Definition sameAGRState (d1 d2 : DTC) : Prop :=
  randState d1 = randState d2 /\ agrSmooth d1 = agrSmooth d2.

(** Two blocks agree on the AGR parameter and on the block size. *)
Definition sameAGR (b1 b2 : Block) : Prop :=
  b_v b1 kParamInputAGR = b_v b2 kParamInputAGR /\
  b_numFramesBy4 b1 = b_numFramesBy4 b2.

(** Two blocks agree on every parameter, every bus sample and the size. *)
Definition sameBlock (b1 b2 : Block) : Prop :=
  (forall p, b_v b1 p = b_v b2 p) /\
  (forall i, b_bus b1 i = b_bus b2 i) /\
  b_numFramesBy4 b1 = b_numFramesBy4 b2.

(** Loop states that are equal up to the pointwise equality of the bus. *)
Definition sameLoopState (st1 st2 : LoopState) : Prop :=
  l_dtc st1 = l_dtc st2 /\ (forall i, l_bus st1 i = l_bus st2 i) /\
  l_maxIn st1 = l_maxIn st2 /\ l_maxOut st1 = l_maxOut st2 /\
  l_gains st1 = l_gains st2 /\ l_outs st1 = l_outs st2.

(** A block with another cutoff, mode and audio than [zeroBlock], but the
    same AGR parameter and size. *)
Definition toneBlock : Block :=
  mkBlock
    (fun p =>
       match p with
       | kParamCutoff => 440%Z
       | kParamMode => 1%Z
       | _ => defaultParams p
       end)
    (fun _ => #1) 1.

(** ** Predicates for the further properties *)

(** The stored filter state is finite, [lp] and [bp] within the clamp of
    5 and [hp] within the [sanitize] limit. *)
Definition stateBounded (d : DTC) : Prop :=
  exists l b h : R,
    lp d = #l /\ bp d = #b /\ hp d = #h /\
    Rabs l <= 5 /\ Rabs b <= 5 /\ Rabs h <= 1e10.

(** Parameter values within the declared ranges: resonance 70%, bandpass,
    model MS, both CV inputs on bus 3, AGR 30%, drive 40%, 4x. *)
Definition demoParams (p : Param) : Z :=
  match p with
  | kParamInput => 1
  | kParamOutput => 2
  | kParamOutputMode => 0
  | kParamCutoff => 440
  | kParamResonance => 700
  | kParamMode => 1
  | kParamModel => 1
  | kParamCvCutoff => 3
  | kParamCvCutoffAmt => 500
  | kParamCvResonance => 3
  | kParamCvResonanceAmt => -250
  | kParamInputAGR => 300
  | kParamDrive => 400
  | kParamOversample => 2
  end%Z.

(** A block of 4 frames whose bus memory holds the sample index. *)
Definition demoBlock : Block := mkBlock demoParams (fun i => of_int i) 1.

(** The largest pre-warped coefficient: the cutoff at 45% of the rate. *)
Definition gMax : R := tan (3.14159265358979323846 * 0.45).

(** The cutoff as [calculateFilterCoeffs] clamps it. *)
Definition clampCutoff (cutoff rate : R) : R :=
  Rmin (Rmax cutoff 20) (rate * 0.45).

(** The normalization factor is NaN: no finite coefficient set is stored. *)
Definition muted (d : DTC) : Prop := gInv d = NaN.

(** A smoothed filter control has become NaN. *)
Definition controlNaN (d : DTC) : Prop :=
  cutoffSmooth d = NaN \/ resonanceSmooth d = NaN.

(** The ranges [.min] .. [.max] declared in [parameters[]]. *)
Definition paramsInRange (v : Param -> Z) : Prop :=
  (20 <= v kParamCutoff <= 20000 /\
   0 <= v kParamResonance <= 1000 /\
   0 <= v kParamMode <= 3 /\
   0 <= v kParamModel <= 2 /\
   -1000 <= v kParamCvCutoffAmt <= 1000 /\
   -1000 <= v kParamCvResonanceAmt <= 1000 /\
   0 <= v kParamInputAGR <= 1000 /\
   0 <= v kParamDrive <= 1000 /\
   0 <= v kParamOversample <= 4)%Z.

(** The first sample of every connected CV bus is finite. *)
Definition cvFinite (v : Param -> Z) (busFrames : Bus) (numFrames : Z) : Prop :=
  ((v kParamCvCutoff > 0)%Z ->
   is_finite (busFrames ((v kParamCvCutoff - 1) * numFrames)%Z) = true) /\
  ((v kParamCvResonance > 0)%Z ->
   is_finite (busFrames ((v kParamCvResonance - 1) * numFrames)%Z) = true).

(** The smoothed controls are finite and within the range of their
    targets. *)
Definition controlsInRange (d : DTC) : Prop :=
  exists c r dr a cc cr : R,
    cutoffSmooth d = #c /\ resonanceSmooth d = #r /\ driveSmooth d = #dr /\
    agrSmooth d = #a /\ cvCutoffAmtSmooth d = #cc /\ cvResAmtSmooth d = #cr /\
    0 < c /\ 0 <= r <= 1 /\ 1 <= dr <= 5 /\ 0 <= a <= 100 /\
    -1 <= cc <= 1 /\ -1 <= cr <= 1.

(** The stored coefficients are finite and within their bounds; 6.5 is
    above [tan (0.45 * M_PI)], which is 6.3138. *)
Definition coeffsInRange (d : DTC) : Prop :=
  exists gv kv gi : R,
    coeffs d = (#gv, #kv, #gi) /\
    0 < gv <= 6.5 /\ 0.1 <= kv <= 2 /\ 0 < gi <= 1.

(** The first sample of every connected CV bus is finite and within 10 in
    magnitude, the range of a control voltage. *)
Definition cvBounded (v : Param -> Z) (busFrames : Bus) (numFrames : Z) : Prop :=
  ((v kParamCvCutoff > 0)%Z ->
   exists x, busFrames ((v kParamCvCutoff - 1) * numFrames)%Z = #x /\ Rabs x <= 10) /\
  ((v kParamCvResonance > 0)%Z ->
   exists x, busFrames ((v kParamCvResonance - 1) * numFrames)%Z = #x /\ Rabs x <= 10).

(** A block within the limits of the host: parameters in range, control
    voltages within 10. *)
Definition blockWithinLimits (b : Block) : Prop :=
  paramsInRange (b_v b) /\ cvBounded (b_v b) (b_bus b) (b_numFramesBy4 b * 4).

(** A block the host can hand over: parameters in range, finite CV. *)
Definition blockInRange (b : Block) : Prop :=
  paramsInRange (b_v b) /\ cvFinite (b_v b) (b_bus b) (b_numFramesBy4 b * 4).

(** [m] is the peak magnitude of the finite samples [outs]: an upper bound
    that is attained, or 0. *)
Definition peakOf (m : R) (outs : list float) : Prop :=
  Forall (fun o => exists x, o = #x /\ Rabs x <= m) outs /\
  (m = 0 \/ exists x, In #x outs /\ Rabs x = m).

(** The width of a level bar in [draw]: [(int)(level * 50.0f)], at most
    50. *)
Definition meterWidth (level : float) : Z :=
  let w := to_int (level * #50)%float in
  if (w >? 50)%Z then 50%Z else w.

(** The gain of each mode for a constant signal: lowpass and all-pass
    (lowpass minus highpass) pass it, bandpass and highpass block it, an
    unknown mode accumulates nothing. *)
Definition dcGain (mode : Z) : R :=
  match mode with
  | 0%Z | 3%Z => 1
  | _ => 0
  end.

(** ** Custom UI *)

(** [powf(1000.0f, y)], as used by the cutoff pot. *)
Definition pow1000f (y : float) : float :=
  match y with
  | NaN => NaN
  | Inf false => Inf false
  | Inf true => #0
  | Fin r => #(Rpower 1000 r)
  end.

(** [log10f]. *)
Definition log10f (x : float) : float :=
  match x with
  | NaN => NaN
  | Inf false => Inf false
  | Inf true => NaN
  | Fin r =>
      if Rltb 0 r then #(ln r / ln 10)
      else if Reqb r 0 then Inf true
      else NaN
  end.

(** [_NT_uiData], as far as [customUi] reads it.  The three booleans stand
    for [data.controls & kNT_potL], [& kNT_potC] and [& kNT_potR], whose
    bit values are declared by the host API. *)
Record UiData : Type := mkUiData {
  potL_changed : bool;
  potC_changed : bool;
  potR_changed : bool;
  pots0 : float;
  pots1 : float;
  pots2 : float;
  encoders0 : Z;
  encoders1 : Z
}.

(** [customUi]: the calls of [NT_setParameterFromUi], in order, as pairs of
    the parameter and the value set. *)
Definition customUi (v : Param -> Z) (data : UiData) : list (Param * Z) :=
  (if potL_changed data then
     let value := to_int (pots0 data * #1000)%float in
     [(kParamInputAGR, value)]
   else []) ++
  (if potC_changed data then
     let potVal := pots1 data in
     let value := to_int (#20 * pow1000f potVal)%float in
     let value := if (value >? 20000)%Z then 20000%Z else value in
     let value := if (value <? 20)%Z then 20%Z else value in
     [(kParamCutoff, value)]
   else []) ++
  (if potR_changed data then
     let value := to_int (pots2 data * #1000)%float in
     [(kParamResonance, value)]
   else []) ++
  (if negb (encoders0 data =? 0)%Z then
     let mode := v kParamMode in
     let mode := (mode + encoders0 data)%Z in
     let mode := if (mode <? 0)%Z then 3%Z else mode in
     let mode := if (mode >? 3)%Z then 0%Z else mode in
     [(kParamMode, mode)]
   else []) ++
  (if negb (encoders1 data =? 0)%Z then
     let model := v kParamModel in
     let model := (model + encoders1 data)%Z in
     let model := if (model <? 0)%Z then 2%Z else model in
     let model := if (model >? 2)%Z then 0%Z else model in
     [(kParamModel, model)]
   else []).

(** [setupUi]: the three pot positions. *)
Definition setupUi (v : Param -> Z) : float * float * float :=
  let p0 := (of_int (v kParamInputAGR) / #1000)%float in
  let cutoff := of_int (v kParamCutoff) in
  let p1 := (log10f (cutoff / #20) / #3)%float in
  let p1 := if (p1 <? #0)%float then #0 else p1 in
  let p1 := if (p1 >? #1)%float then #1 else p1 in
  let p2 := (of_int (v kParamResonance) / #1000)%float in
  (p0, p1, p2).

(** A value set by the UI lies in the declared range of its parameter;
    the UI sets no other parameter than these five. *)
Definition writeInRange (w : Param * Z) : Prop :=
  match fst w with
  | kParamInputAGR | kParamResonance => (0 <= snd w <= 1000)%Z
  | kParamCutoff => (20 <= snd w <= 20000)%Z
  | kParamMode => (0 <= snd w <= 3)%Z
  | kParamModel => (0 <= snd w <= 2)%Z
  | _ => False
  end.

(** A pot position: finite, from 0 to 1. *)
Definition potPosition (x : float) : Prop :=
  exists r, x = #r /\ 0 <= r <= 1.

(** All three pots moved to mid position, both encoders one click up. *)
Definition demoUiData : UiData :=
  mkUiData true true true #0.5 #0.5 #0.5 1 1.

(** Two parameter sets that differ at most in the mode, the output bus and
    the output mode. *)
Definition sameButOutput (v1 v2 : Param -> Z) : Prop :=
  forall p : Param,
    p <> kParamMode -> p <> kParamOutput -> p <> kParamOutputMode ->
    v1 p = v2 p.

(** The horizontal position of the cutoff marker in [draw], [peakX]. *)
Definition drawPeakX (v : Param -> Z) : Z :=
  let cutoff := of_int (v kParamCutoff) in
  let logFreq := log10f cutoff in
  let logMin := log10f #20 in
  let logMax := log10f #20000 in
  (100 + to_int ((logFreq - logMin) / (logMax - logMin) * #140)%float)%Z.

(** ** Single precision, bit for bit *)

(** The arithmetic of [float] on the [spec_float] of the standard library:
    24 bits of precision, exponents up to 128, round to nearest-even. *)
Module Binary32.

Definition prec : Z := 24.
Definition emax : Z := 128.

Definition add : spec_float -> spec_float -> spec_float := SFadd prec emax.
Definition sub : spec_float -> spec_float -> spec_float := SFsub prec emax.
Definition mul : spec_float -> spec_float -> spec_float := SFmul prec emax.
Definition div : spec_float -> spec_float -> spec_float := SFdiv prec emax.
Definition lt : spec_float -> spec_float -> bool := SFltb.
Definition gt (x y : spec_float) : bool := SFltb y x.
Definition le : spec_float -> spec_float -> bool := SFleb.
Definition neg : spec_float -> spec_float := SFopp.

(** [(float)n] of an integer, and an integer literal with suffix [f]. *)
Definition of_int (n : Z) : spec_float := binary_normalize prec emax n 0 false.

(** The literal [n/d] with suffix [f]: the single nearest to that decimal
    ([lit 5 10] is [0.5f]). *)
Definition lit (n d : Z) : spec_float := div (of_int n) (of_int d).

End Binary32.

(** [fastTanh] in single precision. *)
Definition fastTanh32 (x : spec_float) : spec_float :=
  if Binary32.gt x (Binary32.of_int 3) then Binary32.of_int 1
  else if Binary32.lt x (Binary32.neg (Binary32.of_int 3)) then
    Binary32.neg (Binary32.of_int 1)
  else
    let x2 := Binary32.mul x x in
    Binary32.div
      (Binary32.mul x (Binary32.add (Binary32.of_int 27) x2))
      (Binary32.add (Binary32.of_int 27) (Binary32.mul (Binary32.of_int 9) x2)).

(** [diodeClip] in single precision.  [expf] is the function of the C
    library, which the source does not contain. *)
Definition diodeClip32 (expf : spec_float -> spec_float) (x : spec_float)
    : spec_float :=
  if Binary32.gt x (Binary32.of_int 0) then
    Binary32.sub (Binary32.of_int 1) (expf (Binary32.neg x))
  else
    Binary32.mul (Binary32.neg (Binary32.lit 5 10))
      (Binary32.sub (Binary32.of_int 1)
         (expf (Binary32.mul (Binary32.of_int 2) x))).

(** [fastRandom] in single precision: both operands of the division are
    converted from [uint32_t]. *)
Definition fastRandom32 (state : Z) : spec_float * Z :=
  let state := xorshift state in
  (Binary32.div (Binary32.of_int (Z.land state 0x7FFFFFFF))
                (Binary32.of_int 0x7FFFFFFF), state).

(** [processAGR] in single precision. *)
Definition processAGR32 (agrValue : Z) (randState : Z) : spec_float * Z :=
  if (agrValue <=? 25)%Z then
    let randomMix :=
      Binary32.sub (Binary32.of_int 1)
        (Binary32.div (Binary32.of_int agrValue) (Binary32.of_int 25)) in
    let baseGain := Binary32.div (Binary32.of_int agrValue) (Binary32.of_int 50) in
    let '(randomGain, randState) := fastRandom32 randState in
    (Binary32.add baseGain (Binary32.mul randomGain randomMix), randState)
  else if (agrValue <=? 50)%Z then
    let t := Binary32.div (Binary32.of_int (agrValue - 25)) (Binary32.of_int 25) in
    (Binary32.add (Binary32.lit 5 10) (Binary32.mul t (Binary32.lit 5 10)), randState)
  else
    let t := Binary32.div (Binary32.of_int (agrValue - 50)) (Binary32.of_int 50) in
    (Binary32.add (Binary32.of_int 1) (Binary32.mul t (Binary32.of_int 3)), randState).

(** The single 2.99999809, bit pattern [0x403ffff8]. *)
Definition justBelowThree : spec_float := S754_finite false 12582904 (-22).

(** [P] holds on the [n] integers from [lo]. *)
Fixpoint checkFrom (P : Z -> bool) (lo : Z) (n : nat) : bool :=
  match n with
  | O => true
  | S n' => P lo && checkFrom P (lo + 1)%Z n'
  end.

(** The gains of [n] successive calls of [processAGR] with the control
    value [agrValue] from the random state [s], and the state they leave. *)
Fixpoint agrGains (n : nat) (agrValue : Z) (s : Z) : list float * Z :=
  match n with
  | O => ([], s)
  | S n' =>
      let '(gain, s') := processAGR agrValue s in
      let '(gains, s'') := agrGains n' agrValue s' in
      (gain :: gains, s'')
  end.

(** The control value that [step] hands to [processAGR] in a block:
    [(int)dtc->agrSmooth] after the smoothing. *)
Definition agrControl (v : Param -> Z) (dtc : DTC) : Z :=
  to_int (smooth (agrSmooth dtc) (of_int (v kParamInputAGR) / #10)%float).

(** The default parameters with the AGR control turned to 0, the fully
    randomized end of its range. *)
Definition agrZeroParams (p : Param) : Z :=
  match p with
  | kParamInputAGR => 0%Z
  | _ => defaultParams p
  end.

(** A block of 4 frames of silence, and one of a constant signal with
    another cutoff and mode, both with the AGR control at 0. *)
Definition agrZeroBlock : Block := mkBlock agrZeroParams (fun _ => #0) 1.

Definition agrZeroTone : Block :=
  mkBlock
    (fun p =>
       match p with
       | kParamCutoff => 440%Z
       | kParamMode => 1%Z
       | _ => agrZeroParams p
       end)
    (fun _ => #1) 1.

(** * Properties *)

(** ** Comparisons and finite arithmetic *)

Lemma Rltb_true (a b : R) : a < b -> Rltb a b = true.
Proof. intros H; unfold Rltb; destruct (Rlt_dec a b); [reflexivity | contradiction]. Qed.

Lemma Rltb_false (a b : R) : b <= a -> Rltb a b = false.
Proof. intros H; unfold Rltb; destruct (Rlt_dec a b); [lra | reflexivity]. Qed.

Lemma Reqb_true (a b : R) : a = b -> Reqb a b = true.
Proof. intros H; unfold Reqb; destruct (Req_dec_T a b); [reflexivity | contradiction]. Qed.

Lemma Reqb_false (a b : R) : a <> b -> Reqb a b = false.
Proof. intros H; unfold Reqb; destruct (Req_dec_T a b); [contradiction | reflexivity]. Qed.

Ltac fin_eq := f_equal; try lra; try (field; lra).

Lemma div_fin (a b : R) : b <> 0 -> (#a / #b)%float = #(a / b).
Proof. intros H. cbn [div]. rewrite Reqb_false by assumption. reflexivity. Qed.

Lemma div_le_1 (a b : R) : 0 < b -> a <= b -> a / b <= 1.
Proof.
  intros Hb Hab. unfold Rdiv.
  apply Rmult_le_reg_r with b; [assumption |].
  rewrite Rmult_assoc, Rinv_l by lra. lra.
Qed.

Lemma div_ge_m1 (a b : R) : 0 < b -> - b <= a -> -1 <= a / b.
Proof.
  intros Hb Hab. unfold Rdiv.
  apply Rmult_le_reg_r with b; [assumption |].
  rewrite Rmult_assoc, Rinv_l by lra. lra.
Qed.

(** ** Saturation library *)

Lemma fastTanh_high (r : R) : 3 < r -> fastTanh #r = #1.
Proof. intros H. unfold fastTanh, gt, lt. rewrite Rltb_true by assumption. reflexivity. Qed.

Lemma fastTanh_low (r : R) : r < -3 -> fastTanh #r = #(-1).
Proof.
  intros H. unfold fastTanh, gt, lt.
  rewrite Rltb_false by lra. rewrite Rltb_true by assumption. reflexivity.
Qed.

Lemma fastTanh_mid (r : R) :
  -3 <= r <= 3 -> fastTanh #r = #(r * (27 + r * r) / (27 + 9 * (r * r))).
Proof.
  intros H. unfold fastTanh, gt, lt.
  rewrite !Rltb_false by lra. cbn.
  rewrite Reqb_false by nra. reflexivity.
Qed.

Lemma fastTanh_bounded (r : R) : exists y, fastTanh #r = #y /\ -1 <= y <= 1.
Proof.
  destruct (Rlt_dec 3 r) as [H3 | H3].
  - exists 1. rewrite fastTanh_high by assumption. split; [reflexivity | lra].
  - destruct (Rlt_dec r (-3)) as [Hm | Hm].
    + exists (-1). rewrite fastTanh_low by assumption. split; [reflexivity | lra].
    + eexists. rewrite fastTanh_mid by lra. split; [reflexivity |].
      assert (Hd : 0 < 27 + 9 * (r * r)) by nra.
      split.
      * apply div_ge_m1; [assumption |].
        assert (0 <= (r + 3) * ((r + 3) * (r + 3))) by (apply Rmult_le_pos; nra).
        nra.
      * apply div_le_1; [assumption |].
        assert (0 <= (3 - r) * ((3 - r) * (3 - r))) by (apply Rmult_le_pos; nra).
        nra.
Qed.

Lemma fastTanh_0 : fastTanh #0 = #0.
Proof. rewrite fastTanh_mid by lra. fin_eq. Qed.

Lemma diodeClip_pos (r : R) : 0 < r -> diodeClip #r = #(1 - exp (- r)).
Proof. intros H. unfold diodeClip, gt, lt. rewrite Rltb_true by assumption. reflexivity. Qed.

Lemma diodeClip_neg (r : R) : r <= 0 -> diodeClip #r = #(-0.5 * (1 - exp (2 * r))).
Proof. intros H. unfold diodeClip, gt, lt. rewrite Rltb_false by assumption. reflexivity. Qed.

Lemma diodeClip_bounded (r : R) : exists y, diodeClip #r = #y /\ -0.5 < y < 1.
Proof.
  destruct (Rlt_dec 0 r) as [H | H].
  - eexists. rewrite diodeClip_pos by assumption. split; [reflexivity |].
    pose proof (exp_pos (- r)) as Hp.
    assert (Hlt : exp (- r) < exp 0) by (apply exp_increasing; lra).
    rewrite exp_0 in Hlt. lra.
  - eexists. rewrite diodeClip_neg by lra. split; [reflexivity |].
    pose proof (exp_pos (2 * r)) as Hp.
    assert (Hle : exp (2 * r) <= 1).
    { destruct (Req_dec r 0) as [-> | Hr].
      - rewrite Rmult_0_r, exp_0. lra.
      - left. rewrite <- exp_0. apply exp_increasing. lra. }
    lra.
Qed.

Lemma diodeClip_0 : diodeClip #0 = #0.
Proof. rewrite diodeClip_neg by lra. rewrite Rmult_0_r, exp_0. fin_eq. Qed.

Lemma aggressiveSat_bounded (r : R) :
  exists y, aggressiveSat #r = #y /\ -0.8 <= y <= 0.8.
Proof.
  unfold aggressiveSat. cbn [mul].
  destruct (fastTanh_bounded (r * 2)) as [t [-> Ht]].
  cbn [fabsf gt lt sub add neg mul].
  destruct (Rlt_dec 0.8 (Rabs t)) as [Hf | Hf].
  - rewrite (Rltb_true _ _ Hf).
    destruct (Rlt_dec 0 t) as [Hs | Hs].
    + rewrite (Rltb_true _ _ Hs). cbn [mul]. eexists; split; [reflexivity |].
      rewrite Rabs_pos_eq in * by lra. lra.
    + rewrite Rltb_false by lra. cbn [mul]. eexists; split; [reflexivity |].
      assert (Hneg : t < 0).
      { destruct (Req_dec t 0) as [-> | Hn]; [rewrite Rabs_R0 in Hf; lra | lra]. }
      rewrite Rabs_left in * by assumption. lra.
  - rewrite Rltb_false by lra. exists t. split; [reflexivity |].
    apply Rnot_lt_le in Hf. unfold Rabs in Hf. destruct (Rcase_abs t); lra.
Qed.

Lemma aggressiveSat_0 : aggressiveSat #0 = #0.
Proof.
  unfold aggressiveSat. cbn [mul]. rewrite Rmult_0_l, fastTanh_0.
  cbn [fabsf gt lt]. rewrite Rabs_R0, Rltb_false by lra. reflexivity.
Qed.

Lemma fastTanh32_high (x : spec_float) :
  Binary32.gt x (Binary32.of_int 3) = true -> fastTanh32 x = Binary32.of_int 1.
Proof. intros H. unfold fastTanh32. rewrite H. reflexivity. Qed.

Lemma fastTanh32_low (x : spec_float) :
  Binary32.lt x (Binary32.neg (Binary32.of_int 3)) = true ->
  fastTanh32 x = Binary32.neg (Binary32.of_int 1).
Proof.
  intros H. unfold fastTanh32. rewrite H.
  destruct (Binary32.gt x (Binary32.of_int 3)) eqn:Hhi; [| reflexivity].
  exfalso. unfold Binary32.gt, Binary32.lt in *.
  destruct x as [s | s | | s m e]; try discriminate;
    destruct s; first [discriminate | cbv in Hhi; discriminate | cbv in H; discriminate].
Qed.

(** With [expf] underflowing to zero, as it does at -200, [diodeClip]
    returns exactly 1 and exactly -0.5 in single precision. *)
Lemma diodeClip32_ends (expf : spec_float -> spec_float) :
  expf (Binary32.neg (Binary32.of_int 200)) = S754_zero false ->
  diodeClip32 expf (Binary32.of_int 200) = Binary32.of_int 1 /\
  diodeClip32 expf (Binary32.neg (Binary32.of_int 100)) =
    Binary32.neg (Binary32.lit 5 10).
Proof.
  intros H. unfold diodeClip32.
  replace (Binary32.gt (Binary32.of_int 200) (Binary32.of_int 0)) with true
    by (vm_compute; reflexivity).
  replace (Binary32.gt (Binary32.neg (Binary32.of_int 100)) (Binary32.of_int 0))
    with false by (vm_compute; reflexivity).
  replace (Binary32.mul (Binary32.of_int 2) (Binary32.neg (Binary32.of_int 100)))
    with (Binary32.neg (Binary32.of_int 200)) by (vm_compute; reflexivity).
  rewrite H. split; vm_compute; reflexivity.
Qed.

Lemma aggressiveSat_folded (r : R) :
  (fabsf (fastTanh (#r * #2)) >? #0.8)%float = true ->
  exists y, aggressiveSat #r = #y /\ 0.69 <= Rabs y <= 0.8.
Proof.
  unfold aggressiveSat. cbn [mul].
  destruct (fastTanh_bounded (r * 2)) as [t [-> Ht]].
  cbn [fabsf gt lt sub add neg mul]. intros Hfold. rewrite Hfold.
  assert (Hf : 0.8 < Rabs t).
  { unfold Rltb in Hfold. destruct (Rlt_dec 0.8 (Rabs t)); [assumption | discriminate]. }
  destruct (Rlt_dec 0 t) as [Hs | Hs].
  - rewrite (Rltb_true _ _ Hs). cbn [mul]. eexists; split; [reflexivity |].
    rewrite (Rabs_pos_eq t) in * by lra. rewrite Rabs_pos_eq by lra. lra.
  - rewrite Rltb_false by lra. cbn [mul]. eexists; split; [reflexivity |].
    assert (Hneg : t < 0).
    { destruct (Req_dec t 0) as [-> | Hn]; [rewrite Rabs_R0 in Hf; lra | lra]. }
    rewrite (Rabs_left t) in * by assumption. rewrite Rabs_left by lra. lra.
Qed.

(** The claim as the specification words it fails in single precision: at
    2.99999809, inside the range of the rational formula, [fastTanh]
    returns 1.00000012, which is 1 + 2^-23. *)
Lemma fastTanh_exceeds_one :
  valid_binary Binary32.prec Binary32.emax justBelowThree = true /\
  Binary32.lt justBelowThree (Binary32.of_int 3) = true /\
  fastTanh32 justBelowThree = S754_finite false 8388609 (-23) /\
  Binary32.le (SFabs (fastTanh32 justBelowThree)) (Binary32.of_int 1) = false.
Proof. vm_compute. repeat split. Qed.

(** C4: the three saturation functions are bounded.  For every finite [x],
    [fastTanh] stays within 1.000001 in magnitude (the formula is at most 1
    in exact arithmetic; single precision exceeds it by one unit in the
    last place) and is exactly 1 above 3 and exactly -1 below -3, in the
    real-valued model and bit for bit in single precision; [diodeClip]
    stays in the closed interval from -0.5 to 1; [aggressiveSat] has
    magnitude at most 0.8, and at least 0.69, whenever its fold-back branch
    runs. *)
Theorem saturation_envelope :
  (forall x : R, exists y, fastTanh #x = #y /\ Rabs y <= 1.000001) /\
  (forall x : R, 3 < x -> fastTanh #x = #1) /\
  (forall x : R, x < -3 -> fastTanh #x = #(-1)) /\
  (forall x : spec_float,
     Binary32.gt x (Binary32.of_int 3) = true -> fastTanh32 x = Binary32.of_int 1) /\
  (forall x : spec_float,
     Binary32.lt x (Binary32.neg (Binary32.of_int 3)) = true ->
     fastTanh32 x = Binary32.neg (Binary32.of_int 1)) /\
  (forall x : R, exists y, diodeClip #x = #y /\ -0.5 <= y <= 1) /\
  (forall x : R,
     (fabsf (fastTanh (#x * #2)) >? #0.8)%float = true ->
     exists y, aggressiveSat #x = #y /\ 0.69 <= Rabs y <= 0.8).
Proof.
  split; [| split; [| split; [| split; [| split; [| split]]]]].
  - intros x. destruct (fastTanh_bounded x) as [y [E Hy]].
    exists y. split; [exact E | apply Rabs_le; lra].
  - exact fastTanh_high.
  - exact fastTanh_low.
  - exact fastTanh32_high.
  - exact fastTanh32_low.
  - intros x. destruct (diodeClip_bounded x) as [y [E Hy]].
    exists y. split; [exact E | lra].
  - exact aggressiveSat_folded.
Qed.

Lemma saturation_envelope_witness :
  fastTanh #4 = #1 /\ fastTanh #(-4) = #(-1) /\
  fastTanh32 (Binary32.of_int 4) = Binary32.of_int 1 /\
  fastTanh32 (Binary32.of_int (-4)) = Binary32.neg (Binary32.of_int 1) /\
  (exists y, aggressiveSat #1 = #y /\ 0.69 <= Rabs y <= 0.8).
Proof.
  split; [| split; [| split; [| split]]].
  - apply (proj1 (proj2 saturation_envelope)). lra.
  - apply (proj1 (proj2 (proj2 saturation_envelope))). lra.
  - apply (proj1 (proj2 (proj2 (proj2 saturation_envelope)))). reflexivity.
  - apply (proj1 (proj2 (proj2 (proj2 (proj2 saturation_envelope))))). reflexivity.
  - apply (proj2 (proj2 (proj2 (proj2 (proj2 (proj2 saturation_envelope)))))).
    change (#1 * #2)%float with #(1 * 2). replace (1 * 2) with 2 by lra.
    rewrite fastTanh_mid by lra.
    replace (2 * (27 + 2 * 2) / (27 + 9 * (2 * 2))) with (62 / 63) by lra.
    cbn [fabsf gt lt]. apply Rltb_true.
    rewrite Rabs_pos_eq by lra. lra.
Defined.

(** ** Sanitize *)

Lemma sanitize_fin_keep (r : R) : -1e10 <= r <= 1e10 -> sanitize #r = #r.
Proof.
  intros H. unfold sanitize, ne, gt, lt.
  rewrite Reqb_true by reflexivity.
  rewrite !Rltb_false by lra. reflexivity.
Qed.

Lemma sanitize_fin_drop (r : R) : r < -1e10 \/ 1e10 < r -> sanitize #r = #0.
Proof.
  intros H. unfold sanitize, ne, gt, lt.
  rewrite Reqb_true by reflexivity. cbn [negb orb].
  destruct H as [H | H].
  - rewrite (Rltb_true r) by assumption. rewrite orb_true_r. reflexivity.
  - rewrite (Rltb_true _ r) by assumption. reflexivity.
Qed.

Lemma sanitize_0 : sanitize #0 = #0.
Proof. apply sanitize_fin_keep. lra. Qed.

Lemma sanitize_NaN : sanitize NaN = #0.
Proof. reflexivity. Qed.

Lemma sanitize_Inf (s : bool) : sanitize (Inf s) = #0.
Proof. destruct s; reflexivity. Qed.

(** The result of [sanitize] is finite and within [-1e10, 1e10]. *)
Lemma sanitize_range (x : float) :
  exists r, sanitize x = #r /\ -1e10 <= r <= 1e10.
Proof.
  destruct x as [| s | r].
  - exists 0. split; [reflexivity | lra].
  - exists 0. split; [apply sanitize_Inf | lra].
  - destruct (Rlt_dec r (-1e10)) as [Hl | Hl].
    + exists 0. split; [apply sanitize_fin_drop; lra | lra].
    + destruct (Rlt_dec 1e10 r) as [Hh | Hh].
      * exists 0. split; [apply sanitize_fin_drop; lra | lra].
      * exists r. split; [apply sanitize_fin_keep; lra | lra].
Qed.

(** C5: [sanitize] is idempotent on every value, finite or not; it maps
    NaN, the infinities and 1e20 to 0 and returns a finite value of
    magnitude at most 1e10 unchanged. *)
Theorem sanitize_idempotent :
  (forall x : float, sanitize (sanitize x) = sanitize x) /\
  sanitize NaN = #0 /\
  (forall s : bool, sanitize (Inf s) = #0) /\
  sanitize #1e20 = #0 /\
  (forall r : R, Rabs r <= 1e10 -> sanitize #r = #r).
Proof.
  repeat split.
  - intros x. destruct (sanitize_range x) as [r [E Hr]].
    rewrite E. apply sanitize_fin_keep. assumption.
  - apply sanitize_Inf.
  - apply sanitize_fin_drop. right. lra.
  - intros r Hr. apply sanitize_fin_keep.
    unfold Rabs in Hr. destruct (Rcase_abs r); lra.
Qed.

Lemma sanitize_idempotent_witness : sanitize #5 = #5.
Proof.
  apply (proj2 (proj2 (proj2 (proj2 sanitize_idempotent)))).
  rewrite Rabs_pos_eq; lra.
Defined.

(** ** Pseudo-random generator *)

Section Xorshift.
Local Open Scope Z_scope.

Lemma lxor_u32 (a b : Z) : u32 a -> u32 b -> u32 (Z.lxor a b).
Proof.
  unfold u32. intros Ha Hb.
  assert (Hn : 0 <= Z.lxor a b) by (apply Z.lxor_nonneg; lia).
  split; [assumption |].
  destruct (Z.eq_dec (Z.lxor a b) 0) as [E | E]; [rewrite E; lia |].
  apply Z.log2_lt_pow2; [lia |].
  pose proof (Z.log2_lxor a b (proj1 Ha) (proj1 Hb)) as Hl.
  assert (La : Z.log2 a < 32).
  { destruct (Z.eq_dec a 0) as [-> | Na]; [cbn; lia |].
    apply Z.log2_lt_pow2; lia. }
  assert (Lb : Z.log2 b < 32).
  { destruct (Z.eq_dec b 0) as [-> | Nb]; [cbn; lia |].
    apply Z.log2_lt_pow2; lia. }
  lia.
Qed.

Lemma wrap32_u32 (z : Z) : u32 (wrap32 z).
Proof. unfold u32, wrap32. apply Z.mod_pos_bound. lia. Qed.

Lemma shiftr_u32 (s n : Z) : 0 <= n -> u32 s -> u32 (Z.shiftr s n).
Proof.
  unfold u32. intros Hn Hs. rewrite Z.shiftr_div_pow2 by assumption.
  assert (Hp : 0 < 2 ^ n) by (apply Z.pow_pos_nonneg; lia).
  split.
  - apply Z.div_pos; lia.
  - apply Z.le_lt_trans with s; [| lia].
    apply Z.div_le_upper_bound; [assumption | nia].
Qed.

(** [state ^= state << a] keeps a non-zero state non-zero: the factor
    [2^a - 1] is odd, hence invertible modulo [2^32]. *)
Lemma xor_shiftl_nonzero (s a : Z) :
  0 < a -> Z.gcd (2 ^ 32) (2 ^ a - 1) = 1 ->
  u32 s -> s <> 0 -> Z.lxor s (wrap32 (Z.shiftl s a)) <> 0.
Proof.
  unfold u32, wrap32. intros Ha Hg Hs Hnz Hx.
  apply Z.lxor_eq in Hx.
  rewrite Z.shiftl_mul_pow2 in Hx by lia.
  assert (Hdiv : (2 ^ 32 | (2 ^ a - 1) * s)).
  { exists ((s * 2 ^ a) / 2 ^ 32).
    pose proof (Z.div_mod (s * 2 ^ a) (2 ^ 32)) as Hdm.
    rewrite <- Hx in Hdm. lia. }
  apply Z.gauss in Hdiv; [| assumption].
  destruct Hdiv as [q Hq].
  assert (q = 0) by nia. subst q. lia.
Qed.

(** [state ^= state >> a] keeps a non-zero state non-zero: the shifted
    value is strictly smaller. *)
Lemma xor_shiftr_nonzero (s a : Z) :
  0 < a -> u32 s -> s <> 0 -> Z.lxor s (Z.shiftr s a) <> 0.
Proof.
  unfold u32. intros Ha Hs Hnz Hx.
  apply Z.lxor_eq in Hx.
  rewrite Z.shiftr_div_pow2 in Hx by lia.
  assert (Hlt : s / 2 ^ a < s).
  { apply Z.div_lt; [lia |]. apply Z.pow_gt_1; lia. }
  lia.
Qed.

Lemma xorshift_u32 (s : Z) : u32 s -> u32 (xorshift s).
Proof.
  intros Hs. unfold xorshift.
  repeat (first [apply lxor_u32 | apply wrap32_u32 | apply shiftr_u32; [lia |] | assumption]).
Qed.

Lemma xorshift_nonzero (s : Z) : u32 s -> s <> 0 -> xorshift s <> 0.
Proof.
  intros Hs Hnz. unfold xorshift.
  set (s1 := Z.lxor s (wrap32 (Z.shiftl s 13))).
  assert (U1 : u32 s1) by (apply lxor_u32; [assumption | apply wrap32_u32]).
  assert (N1 : s1 <> 0) by (apply xor_shiftl_nonzero; [lia | reflexivity | assumption | assumption]).
  set (s2 := Z.lxor s1 (Z.shiftr s1 17)).
  assert (U2 : u32 s2) by (apply lxor_u32; [assumption | apply shiftr_u32; [lia | assumption]]).
  assert (N2 : s2 <> 0) by (apply xor_shiftr_nonzero; [lia | assumption | assumption]).
  apply xor_shiftl_nonzero; [lia | reflexivity | assumption | assumption].
Qed.

Lemma randomStateAfter_inv (n : nat) (seed : Z) :
  u32 seed -> seed <> 0 ->
  u32 (randomStateAfter n seed) /\ randomStateAfter n seed <> 0.
Proof.
  intros Hs Hnz. induction n as [| n [IHu IHn]]; cbn.
  - split; assumption.
  - split; [apply xorshift_u32 | apply xorshift_nonzero]; assumption.
Qed.
End Xorshift.

Lemma fastRandom_range (s : Z) :
  exists y, fst (fastRandom s) = #y /\ 0 <= y <= 1.
Proof.
  unfold fastRandom. cbn [fst of_int div].
  rewrite Reqb_false by lra.
  eexists. split; [reflexivity |].
  change 0x7FFFFFFF%Z with (Z.ones 31).
  rewrite Z.land_ones by lia.
  pose proof (Z.mod_pos_bound (xorshift s) (2 ^ 31) eq_refl) as [Hlo Hhi].
  change (Z.ones 31) with 2147483647%Z.
  apply IZR_le in Hlo.
  assert (Hle : (xorshift s mod 2 ^ 31 <= 2147483647)%Z) by lia.
  apply IZR_le in Hle.
  split.
  - apply Rmult_le_pos; [assumption |]. left. apply Rinv_0_lt_compat. lra.
  - apply div_le_1; lra.
Qed.

(** C10: the xorshift update maps a non-zero 32-bit state to a non-zero
    32-bit state; from the construction seed 0x12345678 the state is
    therefore non-zero after any number of calls; every value returned by
    [fastRandom] lies in [0, 1]. *)
Theorem fastRandom_never_degenerates :
  (forall s : Z, u32 s -> s <> 0%Z ->
     u32 (snd (fastRandom s)) /\ snd (fastRandom s) <> 0%Z) /\
  (forall (sampleRate : Z) (n : nat),
     let s := randomStateAfter n (randState (construct sampleRate)) in
     u32 s /\ s <> 0%Z) /\
  (forall s : Z, exists y, fst (fastRandom s) = #y /\ 0 <= y <= 1).
Proof.
  split; [| split].
  - intros s Hs Hnz. cbn [fastRandom snd].
    split; [apply xorshift_u32 | apply xorshift_nonzero]; assumption.
  - intros sampleRate n. cbv zeta.
    apply randomStateAfter_inv; cbn; unfold u32; lia.
  - apply fastRandom_range.
Qed.

Lemma fastRandom_never_degenerates_witness :
  u32 (snd (fastRandom 0x12345678)) /\ snd (fastRandom 0x12345678) <> 0%Z.
Proof.
  apply (proj1 fastRandom_never_degenerates); [unfold u32; lia | lia].
Defined.

(** ** Attenu-Gain-Randomizer *)

(** In the randomization zone the gain is [v/50 + y * (1 - v/25)] for the
    value [y] in [0, 1] drawn from the generator. *)
Lemma agrRandomZone_value (agrValue randState : Z) :
  exists y, 0 <= y <= 1 /\
    fst (agrRandomZone agrValue randState) =
      #(IZR agrValue / 50 + y * (1 - IZR agrValue / 25)) /\
    snd (agrRandomZone agrValue randState) = xorshift randState.
Proof.
  unfold agrRandomZone.
  destruct (fastRandom_range randState) as [y [Ey Hy]].
  destruct (fastRandom randState) as [rg rs] eqn:E.
  assert (Hs : rs = xorshift randState).
  { unfold fastRandom in E. injection E as _ <-. reflexivity. }
  cbn [fst] in Ey. subst rg.
  exists y. split; [assumption |].
  unfold of_int. rewrite !div_fin by lra. cbn. split; [reflexivity | assumption].
Qed.

Lemma agrAttenZone_25 : agrAttenZone 25 = #0.5.
Proof. unfold agrAttenZone, of_int. rewrite div_fin by lra. cbn. fin_eq. Qed.

Lemma agrAttenZone_50 : agrAttenZone 50 = #1.
Proof. unfold agrAttenZone, of_int. rewrite div_fin by lra. cbn. fin_eq. Qed.

Lemma agrAmpZone_50 : agrAmpZone 50 = #1.
Proof. unfold agrAmpZone, of_int. rewrite div_fin by lra. cbn. fin_eq. Qed.

Lemma agrAmpZone_100 : agrAmpZone 100 = #4.
Proof. unfold agrAmpZone, of_int. rewrite div_fin by lra. cbn. fin_eq. Qed.

(** C6: the AGR gain is continuous at its zone boundaries and meets its
    anchor values for every random state: at 25 the randomization zone
    returns exactly 0.5 (its random term is multiplied by zero), which is
    the value of the attenuation formula at 25; the attenuation formula at
    50 and the amplification formula at 50 both give 1; 50 gives 1 and 100
    gives 4. *)
Theorem processAGR_anchor_values (s : Z) :
  fst (processAGR 25 s) = #0.5 /\
  agrAttenZone 25 = #0.5 /\
  fst (processAGR 50 s) = #1 /\
  agrAmpZone 50 = #1 /\
  fst (processAGR 100 s) = #4.
Proof.
  split; [| split; [| split; [| split]]].
  - change (processAGR 25 s) with (agrRandomZone 25 s).
    destruct (agrRandomZone_value 25 s) as [y [_ [E _]]].
    rewrite E. fin_eq.
  - exact agrAttenZone_25.
  - change (processAGR 50 s) with (agrAttenZone 50, s). exact agrAttenZone_50.
  - exact agrAmpZone_50.
  - change (processAGR 100 s) with (agrAmpZone 100, s). exact agrAmpZone_100.
Qed.

(** ** Coefficient calculator *)

Lemma calculateFilterCoeffs_in_range (dtc : DTC) (cutoff resonance rate : R) :
  20 <= cutoff <= 0.45 * rate ->
  let x := 3.14159265358979323846 * cutoff / rate in
  let gv := tan x in
  let kv := 2 - resonance * 1.9 in
  calculateFilterCoeffs dtc #cutoff #resonance #rate =
    set_coeffs dtc #gv #kv (#1 / (#1 + #gv * (#gv + #kv)))%float.
Proof.
  intros Hc x gv kv. unfold calculateFilterCoeffs, gt, lt, M_PI.
  rewrite (Rltb_false cutoff 20) by lra.
  cbn [mul]. rewrite (Rltb_false (rate * 0.45) cutoff) by lra.
  rewrite div_fin by lra. reflexivity.
Qed.

Lemma prewarp_positive (cutoff rate : R) :
  20 <= cutoff <= 0.45 * rate ->
  0 < tan (3.14159265358979323846 * cutoff / rate).
Proof.
  intros Hc.
  assert (Hr : 0 < rate) by lra.
  assert (Hq : 0 < cutoff / rate <= 0.45).
  { split.
    - apply Rdiv_lt_0_compat; lra.
    - unfold Rdiv. apply Rmult_le_reg_r with rate; [assumption |].
      rewrite Rmult_assoc, Rinv_l by lra. lra. }
  replace (3.14159265358979323846 * cutoff / rate)
    with (3.14159265358979323846 * (cutoff / rate)) by (unfold Rdiv; ring).
  pose proof PI2_3_2 as Hpi.
  apply tan_gt_0; nra.
Qed.

(** C3: for a cutoff in [20, 0.45 * rate] and a resonance in [0, 1] the
    stored coefficients are finite, [g] is non-negative, [k] is
    [2 - 1.9 * resonance], lies in [0.1, 2] and is not zero, and [gInv] is
    [1 / (1 + g * (g + k))], finite and strictly positive. *)
Theorem coefficient_bounds (dtc : DTC) (cutoff resonance rate : R) :
  20 <= cutoff <= 0.45 * rate ->
  0 <= resonance <= 1 ->
  exists gv kv gi : R,
    g (calculateFilterCoeffs dtc #cutoff #resonance #rate) = #gv /\
    k (calculateFilterCoeffs dtc #cutoff #resonance #rate) = #kv /\
    gInv (calculateFilterCoeffs dtc #cutoff #resonance #rate) = #gi /\
    0 <= gv /\
    kv = 2 - resonance * 1.9 /\ 0.1 <= kv <= 2 /\ kv <> 0 /\
    gi = 1 / (1 + gv * (gv + kv)) /\ 0 < gi.
Proof.
  intros Hc Hres.
  rewrite (calculateFilterCoeffs_in_range dtc cutoff resonance rate Hc).
  pose proof (prewarp_positive cutoff rate Hc) as Hg.
  set (gv := tan (3.14159265358979323846 * cutoff / rate)) in *.
  set (kv := 2 - resonance * 1.9).
  assert (Hk : 0.1 <= kv <= 2) by (unfold kv; lra).
  assert (Hden : 1 <= 1 + gv * (gv + kv)) by nra.
  exists gv, kv, (1 / (1 + gv * (gv + kv))).
  cbn [g k gInv set_coeffs mul add].
  rewrite div_fin by lra.
  repeat split; try reflexivity; try lra.
  apply Rdiv_lt_0_compat; lra.
Qed.

Lemma coefficient_bounds_witness :
  exists gv kv gi : R,
    g (calculateFilterCoeffs (construct 48000) #1000 #0.5 #96000) = #gv /\
    k (calculateFilterCoeffs (construct 48000) #1000 #0.5 #96000) = #kv /\
    gInv (calculateFilterCoeffs (construct 48000) #1000 #0.5 #96000) = #gi /\
    0 <= gv /\
    kv = 2 - 0.5 * 1.9 /\ 0.1 <= kv <= 2 /\ kv <> 0 /\
    gi = 1 / (1 + gv * (gv + kv)) /\ 0 < gi.
Proof.
  apply (coefficient_bounds (construct 48000) 1000 0.5 96000); lra.
Defined.

(** ** The per-sample loop: what it leaves alone *)

Lemma frame_refl (d : DTC) : frame d d.
Proof. unfold frame. repeat split. Qed.

Lemma frame_trans (d1 d2 d3 : DTC) : frame d1 d2 -> frame d2 d3 -> frame d1 d3.
Proof.
  unfold frame. intros H1 H2.
  decompose [and] H1. decompose [and] H2.
  repeat split; etransitivity; eassumption.
Qed.

Lemma frame_set_filter (d : DTC) (a b c : float) : frame d (set_filter d a b c).
Proof. unfold frame. repeat split. Qed.

Lemma frame_set_randState (d : DTC) (s : Z) : frame d (set_randState d s).
Proof. unfold frame. repeat split. Qed.

Lemma osBody_frame (mode model : Z) (input resAmt : float) (d : DTC) (acc : float) :
  frame d (fst (osBody mode model input resAmt (d, acc))).
Proof. cbn. apply frame_set_filter. Qed.

Lemma osLoop_frame (n : nat) (mode model : Z) (input resAmt : float) :
  forall (d : DTC) (acc : float),
    frame d (fst (osLoop n mode model input resAmt (d, acc))).
Proof.
  induction n as [| n IH]; intros d acc.
  - apply frame_refl.
  - cbn [osLoop].
    destruct (osBody mode model input resAmt (d, acc)) as [d1 acc1] eqn:E.
    apply frame_trans with d1; [| apply IH].
    change d1 with (fst (d1, acc1)). rewrite <- E. apply osBody_frame.
Qed.

(** [processSample] without the destructuring lets. *)
Lemma processSample_eq (mode model oversample : Z) (resAmt : float)
    (dtc : DTC) (x : float) :
  let p := processAGR (to_int (agrSmooth dtc)) (randState dtc) in
  let input := (x * fst p * driveSmooth dtc)%float in
  let r := osLoop (Z.to_nat oversample) mode model input resAmt
             (set_randState dtc (snd p), #0) in
  processSample mode model oversample resAmt dtc x =
    mkSample (fst r) (fst p) input
             (outSaturate model (sanitize (snd r / of_int oversample)%float)).
Proof.
  unfold processSample.
  destruct (processAGR (to_int (agrSmooth dtc)) (randState dtc)) as [gain rs].
  cbn [fst snd driveSmooth set_randState].
  destruct (osLoop _ _ _ _ _ _) as [d1 acc]. reflexivity.
Qed.

Lemma processSample_frame (mode model oversample : Z) (resAmt : float)
    (dtc : DTC) (x : float) :
  frame dtc (s_dtc (processSample mode model oversample resAmt dtc x)).
Proof.
  rewrite processSample_eq. cbn [s_dtc].
  eapply frame_trans; [apply frame_set_randState | apply osLoop_frame].
Qed.

Lemma sampleLoop_frame (n : nat) (mode model oversample : Z) (resAmt : float)
    (inp out : Z) (replace : bool) :
  forall (i : Z) (st : LoopState),
    frame (l_dtc st)
      (l_dtc (sampleLoop n mode model oversample resAmt inp out replace i st)).
Proof.
  induction n as [| n IH]; intros i st.
  - apply frame_refl.
  - cbn [sampleLoop].
    eapply frame_trans; [| apply IH].
    cbn [sampleBody l_dtc]. apply processSample_frame.
Qed.

(** ** Coefficients within a block *)

(** C8: within one call of [step] the coefficients are those that
    [calculateFilterCoeffs] stored before the loop, from the smoothed cutoff
    and resonance of the block and the oversampled rate; they are the same
    after any number of samples, after any number of oversampling passes
    inside the next sample, and when [step] returns. *)
Theorem coefficients_fixed_within_block
    (sampleRate : Z) (v : Param -> Z) (dtc : DTC) (busFrames : Bus)
    (numFramesBy4 : Z) :
  let numFrames := (numFramesBy4 * 4)%Z in
  let d0 := prepareBlock sampleRate v dtc busFrames numFrames in
  coeffs d0 =
    coeffs (calculateFilterCoeffs d0 (cutoffSmooth d0) (resonanceSmooth d0)
              (of_int (sampleRate * Z.shiftl 1 (v kParamOversample)))) /\
  (forall n : nat,
     coeffs (l_dtc (blockLoop v d0 busFrames numFrames n)) = coeffs d0) /\
  (forall (n m : nat) (rs : Z) (input acc : float),
     coeffs (fst (osLoop m (v kParamMode) (v kParamModel) input (resonanceAmount d0)
                    (set_randState (l_dtc (blockLoop v d0 busFrames numFrames n)) rs,
                     acc))) = coeffs d0) /\
  coeffs (l_dtc (step sampleRate v dtc busFrames numFramesBy4)) = coeffs d0.
Proof.
  intros numFrames d0.
  assert (Hloop : forall n, coeffs (l_dtc (blockLoop v d0 busFrames numFrames n)) = coeffs d0).
  { intros n. unfold blockLoop.
    match goal with
    | |- coeffs (l_dtc (sampleLoop ?n ?a ?b ?c ?d ?e ?f ?r ?i ?st)) = _ =>
        exact (proj1 (sampleLoop_frame n a b c d e f r i st))
    end. }
  split; [| split; [| split]].
  - reflexivity.
  - exact Hloop.
  - intros n m rs input acc.
    rewrite (proj1 (osLoop_frame m _ _ input _ _ acc)).
    exact (Hloop n).
  - unfold step. cbn [l_dtc]. fold numFrames. fold d0.
    exact (Hloop (Z.to_nat numFrames)).
Qed.

(** ** Selector switches *)

Lemma preSaturate_default (model : Z) (input resAmt : float) :
  known_model model = false -> preSaturate model input resAmt = fastTanh input.
Proof. destruct model as [| [[] | [] |] |]; cbn; intros H; try reflexivity; discriminate. Qed.

Lemma outSaturate_default (model : Z) (x : float) :
  known_model model = false -> outSaturate model x = fastTanh x.
Proof. destruct model as [| [[] | [] |] |]; cbn; intros H; try reflexivity; discriminate. Qed.

Lemma accumulate_default (mode : Z) (output lp' bp' hp' : float) :
  known_mode mode = false -> accumulate mode output lp' bp' hp' = output.
Proof.
  destruct mode as [| [[| |] | [| |] |] |]; cbn; intros H;
    try reflexivity; discriminate.
Qed.

(** The four functions an output stage can be. *)
Lemma outSaturate_cases (model : Z) (x : float) :
  outSaturate model x = fastTanh x \/
  outSaturate model x = diodeClip x \/
  outSaturate model x = aggressiveSat x.
Proof. destruct model as [| [[] | [] |] |]; cbn; auto. Qed.

(** ** Output boundedness *)

Lemma outSaturate_bounded (model : Z) (x : float) :
  exists r, outSaturate model (sanitize x) = #r /\ -1 <= r <= 1.
Proof.
  destruct (sanitize_range x) as [y [-> _]].
  destruct (outSaturate_cases model #y) as [E | [E | E]]; rewrite E.
  - apply fastTanh_bounded.
  - destruct (diodeClip_bounded y) as [r [Er Hr]]. exists r. split; [assumption | lra].
  - destruct (aggressiveSat_bounded y) as [r [Er Hr]]. exists r. split; [assumption | lra].
Qed.

Lemma processSample_bounded (mode model oversample : Z) (resAmt : float)
    (dtc : DTC) (x : float) :
  bounded_sample (s_output (processSample mode model oversample resAmt dtc x)).
Proof.
  rewrite processSample_eq. cbn [s_output].
  match goal with
  | |- bounded_sample (outSaturate _ (sanitize ?y)) =>
      destruct (outSaturate_bounded model y) as [r [E Hr]]
  end.
  exists r. split; [exact E | apply Rabs_le; lra].
Qed.

Lemma sampleLoop_outs_length (n : nat) (mode model oversample : Z)
    (resAmt : float) (inp out : Z) (replace : bool) :
  forall (i : Z) (st : LoopState),
    length (l_outs (sampleLoop n mode model oversample resAmt inp out replace i st)) =
      (length (l_outs st) + n)%nat.
Proof.
  induction n as [| n IH]; intros i st.
  - cbn. lia.
  - cbn [sampleLoop]. rewrite IH. cbn [sampleBody l_outs].
    rewrite length_app. cbn. lia.
Qed.

Lemma sampleLoop_outs_bounded (n : nat) (mode model oversample : Z)
    (resAmt : float) (inp out : Z) (replace : bool) :
  forall (i : Z) (st : LoopState),
    Forall bounded_sample (l_outs st) ->
    Forall bounded_sample
      (l_outs (sampleLoop n mode model oversample resAmt inp out replace i st)).
Proof.
  induction n as [| n IH]; intros i st Hst.
  - exact Hst.
  - cbn [sampleLoop]. apply IH. cbn [sampleBody l_outs].
    apply Forall_app. split; [exact Hst |].
    constructor; [apply processSample_bounded | constructor].
Qed.

(** C1: every output sample is finite and of magnitude at most 1.2 (at
    most 1 in exact arithmetic), for every input sample, finite or not, every mode and
    model selector, every oversampling factor and every state: the output
    stage saturates a sanitized value.  This holds for one iteration of the
    per-sample loop and for all the outputs of a call of [step], one per
    frame. *)
Theorem output_bounded :
  (forall (mode model oversample : Z) (resAmt : float) (dtc : DTC) (x : float),
     exists r,
       s_output (processSample mode model oversample resAmt dtc x) = #r /\
       Rabs r <= 1 /\ Rabs r <= 1.2) /\
  (forall (sampleRate : Z) (v : Param -> Z) (dtc : DTC) (busFrames : Bus)
          (numFramesBy4 : Z),
     length (l_outs (step sampleRate v dtc busFrames numFramesBy4)) =
       Z.to_nat (numFramesBy4 * 4) /\
     Forall bounded_sample (l_outs (step sampleRate v dtc busFrames numFramesBy4))).
Proof.
  split.
  - intros mode model oversample resAmt dtc x.
    rewrite processSample_eq. cbn [s_output].
    match goal with
    | |- exists r, outSaturate _ (sanitize ?y) = _ /\ _ =>
        destruct (outSaturate_bounded model y) as [r [E Hr]]
    end.
    exists r. split; [exact E |]. split; apply Rabs_le; lra.
  - intros sampleRate v dtc busFrames numFramesBy4.
    unfold step, blockLoop. cbn [l_outs]. split.
    + rewrite sampleLoop_outs_length. reflexivity.
    + apply sampleLoop_outs_bounded. constructor.
Qed.

(** ** Evaluation on finite values *)

Lemma add_fin (a b : R) : (#a + #b)%float = #(a + b).
Proof. reflexivity. Qed.

Lemma sub_fin (a b : R) : (#a - #b)%float = #(a - b).
Proof. reflexivity. Qed.

Lemma mul_fin (a b : R) : (#a * #b)%float = #(a * b).
Proof. reflexivity. Qed.

Lemma neg_fin (a : R) : (- #a)%float = #(- a).
Proof. reflexivity. Qed.

Lemma lt_fin (a b : R) : (#a <? #b)%float = Rltb a b.
Proof. reflexivity. Qed.

Lemma gt_fin (a b : R) : (#a >? #b)%float = Rltb b a.
Proof. reflexivity. Qed.

Lemma fabsf_fin (a : R) : fabsf #a = #(Rabs a).
Proof. reflexivity. Qed.

(** Evaluates float operations on closed finite operands, innermost
    first; the side conditions are closed and left to [lra]. *)
Ltac feval :=
  repeat first
    [ rewrite add_fin | rewrite sub_fin | rewrite mul_fin | rewrite neg_fin
    | rewrite lt_fin | rewrite gt_fin | rewrite fabsf_fin
    | rewrite div_fin by lra
    | rewrite sanitize_fin_keep by lra
    | rewrite fastTanh_mid by lra
    | match goal with
      | |- context [Rltb ?a ?b] =>
          first [rewrite (Rltb_true a b) by lra | rewrite (Rltb_false a b) by lra]
      end ].

Lemma to_int_IZR (z : Z) :
  (INT_MIN <= z <= INT_MAX)%Z -> to_int (of_int z) = z.
Proof.
  intros H. unfold to_int, of_int, trunc.
  assert (Hi : forall n, Int_part (IZR n) = n).
  { intros n. symmetry. apply Int_part_spec. lra. }
  destruct (Rlt_dec (IZR z) 0) as [Hn | Hn].
  - rewrite Rltb_true by assumption. rewrite <- opp_IZR, Hi. lia.
  - rewrite Rltb_false by lra. rewrite Hi. lia.
Qed.

(** ** Unknown selectors *)

Lemma osLoop_unknown_mode (n : nat) (mode model : Z) (input resAmt : float) :
  known_mode mode = false ->
  forall (d : DTC) (acc : float),
    snd (osLoop n mode model input resAmt (d, acc)) = acc.
Proof.
  intros Hm. induction n as [| n IH]; intros d acc.
  - reflexivity.
  - cbn [osLoop osBody]. rewrite IH. apply accumulate_default. exact Hm.
Qed.

(** The filter state does not depend on the mode or on the accumulator. *)
Lemma osLoop_state_any_mode (n : nat) (mode mode' model : Z) (input resAmt : float) :
  forall (d : DTC) (acc acc' : float),
    fst (osLoop n mode model input resAmt (d, acc)) =
    fst (osLoop n mode' model input resAmt (d, acc')).
Proof.
  induction n as [| n IH]; intros d acc acc'.
  - reflexivity.
  - cbn [osLoop osBody]. apply IH.
Qed.

Lemma sanitize_zero_div (n : Z) : sanitize (#0 / of_int n)%float = #0.
Proof.
  unfold of_int. cbn [div].
  destruct (Req_dec_T (IZR n) 0) as [E | E].
  - rewrite Reqb_true by assumption. unfold sign.
    rewrite !Rltb_false by lra. reflexivity.
  - rewrite Reqb_false by assumption.
    replace (0 / IZR n) with 0 by (unfold Rdiv; ring).
    apply sanitize_0.
Qed.

Lemma outSaturate_0 (model : Z) : outSaturate model #0 = #0.
Proof.
  destruct (outSaturate_cases model #0) as [E | [E | E]]; rewrite E.
  - apply fastTanh_0.
  - apply diodeClip_0.
  - apply aggressiveSat_0.
Qed.

Lemma unknown_mode_output (mode model oversample : Z) (resAmt : float)
    (dtc : DTC) (x : float) :
  known_mode mode = false ->
  s_output (processSample mode model oversample resAmt dtc x) = #0.
Proof.
  intros Hm. rewrite processSample_eq. cbn [s_output].
  rewrite osLoop_unknown_mode by exact Hm.
  rewrite sanitize_zero_div. apply outSaturate_0.
Qed.

Lemma known_mode_false (mode : Z) : ~ (0 <= mode <= 3)%Z -> known_mode mode = false.
Proof. intros H. unfold known_mode. repeat (apply orb_false_intro); apply Z.eqb_neq; lia. Qed.

Lemma known_model_false (model : Z) : ~ (0 <= model <= 2)%Z -> known_model model = false.
Proof. intros H. unfold known_model. repeat (apply orb_false_intro); apply Z.eqb_neq; lia. Qed.

(** On [quarterRateState] with input 1, model YU and no oversampling, the
    lowpass output is [fastTanh (7/36)], about 0.1923. *)
Lemma lowpass_at_quarterRate :
  exists r,
    s_output (processSample 0 0 1 (resonanceAmount quarterRateState)
                quarterRateState #1) = #r /\
    0.19 < r < 0.2.
Proof.
  rewrite processSample_eq.
  cbn [s_output agrSmooth randState driveSmooth quarterRateState].
  change #50 with (of_int 50).
  rewrite (to_int_IZR 50) by (unfold INT_MIN, INT_MAX; lia).
  change (processAGR 50 305419896) with (agrAttenZone 50, 305419896%Z).
  rewrite agrAttenZone_50.
  unfold resonanceAmount, of_int.
  change (Z.to_nat 1) with 1%nat.
  cbn [fst snd osLoop osBody k g gInv lp bp hp set_randState quarterRateState
       set_filter preSaturate accumulate outSaturate].
  unfold softClamp.
  feval.
  eexists. split; [reflexivity | lra].
Qed.

(** C2, as stated, fails for the mode: with the unknown mode 4 the output
    on [quarterRateState] is 0, while the lowpass output (mode 0) on the
    same state and input is about 0.1923. *)
Lemma unknown_mode_is_not_lowpass :
  s_output (processSample 4 0 1 (resonanceAmount quarterRateState)
              quarterRateState #1) = #0 /\
  s_output (processSample 4 0 1 (resonanceAmount quarterRateState)
              quarterRateState #1) <>
  s_output (processSample 0 0 1 (resonanceAmount quarterRateState)
              quarterRateState #1).
Proof.
  assert (H4 : s_output (processSample 4 0 1 (resonanceAmount quarterRateState)
                           quarterRateState #1) = #0)
    by (apply unknown_mode_output; reflexivity).
  split; [exact H4 |].
  rewrite H4.
  destruct lowpass_at_quarterRate as [r [E Hr]].
  rewrite E. intros Heq. injection Heq as Heq. lra.
Qed.

(** C2, amended: an unknown model selector falls back to [fastTanh] in both
    stages (the output stage is then the one of YU; the pre-filter stage
    saturates the input without the resonance-dependent drive of YU); an
    unknown mode selector accumulates nothing, so the output sample is 0,
    while the filter state advances as in any other mode. *)
Theorem selector_fallback :
  (forall (model : Z) (input resAmt x : float),
     ~ (0 <= model <= 2)%Z ->
     preSaturate model input resAmt = fastTanh input /\
     outSaturate model x = fastTanh x /\
     outSaturate model x = outSaturate 0 x) /\
  (forall (mode model oversample : Z) (resAmt : float) (dtc : DTC) (x : float),
     ~ (0 <= mode <= 3)%Z ->
     s_output (processSample mode model oversample resAmt dtc x) = #0 /\
     forall mode' : Z,
       s_dtc (processSample mode model oversample resAmt dtc x) =
       s_dtc (processSample mode' model oversample resAmt dtc x)).
Proof.
  split.
  - intros model input resAmt x Hm. apply known_model_false in Hm.
    split; [apply preSaturate_default; exact Hm |].
    split; apply outSaturate_default; exact Hm.
  - intros mode model oversample resAmt dtc x Hm. apply known_mode_false in Hm.
    split; [apply unknown_mode_output; exact Hm |].
    intros mode'. rewrite !processSample_eq. cbn [s_dtc].
    apply osLoop_state_any_mode.
Qed.

Lemma selector_fallback_witness :
  (preSaturate 7 #2 #1 = fastTanh #2 /\
   outSaturate 7 #2 = fastTanh #2 /\
   outSaturate 7 #2 = outSaturate 0 #2) /\
  (s_output (processSample 4 0 1 #0 quarterRateState #1) = #0 /\
   s_dtc (processSample 4 0 1 #0 quarterRateState #1) =
     s_dtc (processSample 0 0 1 #0 quarterRateState #1)).
Proof.
  split.
  - apply (proj1 selector_fallback). lia.
  - destruct (proj2 selector_fallback 4%Z 0%Z 1%Z #0 quarterRateState #1 ltac:(lia))
      as [H0 Hs].
    split; [exact H0 | apply Hs].
Defined.

(** ** Silence *)

Lemma zeroish_0 : zeroish #0.
Proof. left. reflexivity. Qed.

Lemma zeroish_mul_l (a b : float) : zeroish a -> zeroish (a * b)%float.
Proof.
  intros [-> | ->]; [| right; reflexivity].
  destruct b as [| s | r]; cbn.
  - right. reflexivity.
  - right. unfold sign. rewrite !Rltb_false by lra. reflexivity.
  - left. fin_eq.
Qed.

Lemma zeroish_mul_r (a b : float) : zeroish b -> zeroish (a * b)%float.
Proof.
  intros [-> | ->]; [| right; destruct a; reflexivity].
  destruct a as [| s | r]; cbn.
  - right. reflexivity.
  - right. unfold sign. rewrite !Rltb_false by lra. reflexivity.
  - left. fin_eq.
Qed.

Lemma zeroish_add (a b : float) : zeroish a -> zeroish b -> zeroish (a + b)%float.
Proof.
  intros [-> | ->] [-> | ->]; cbn; try (right; reflexivity).
  left. fin_eq.
Qed.

Lemma zeroish_sub (a b : float) : zeroish a -> zeroish b -> zeroish (a - b)%float.
Proof.
  intros [-> | ->] [-> | ->]; cbn; try (right; reflexivity).
  left. fin_eq.
Qed.

Lemma zeroish_div (a b : float) : zeroish a -> zeroish (a / b)%float.
Proof.
  intros [-> | ->]; [| right; reflexivity].
  destruct b as [| s | r]; cbn.
  - right. reflexivity.
  - left. reflexivity.
  - destruct (Req_dec_T r 0) as [E | E].
    + rewrite Reqb_true by assumption. unfold sign.
      rewrite !Rltb_false by lra. right. reflexivity.
    + rewrite Reqb_false by assumption. left. f_equal. unfold Rdiv. ring.
Qed.

Lemma zeroish_fabsf (a : float) : zeroish a -> zeroish (fabsf a).
Proof. intros [-> | ->]; cbn; [left; rewrite Rabs_R0; reflexivity | right; reflexivity]. Qed.

Lemma zeroish_not_gt_0 (a : float) : zeroish a -> (a >? #0)%float = false.
Proof. intros [-> | ->]; cbn; [apply Rltb_false; lra | reflexivity]. Qed.

Lemma zeroish_sanitize (a : float) : zeroish a -> sanitize a = #0.
Proof. intros [-> | ->]; [apply sanitize_0 | reflexivity]. Qed.

Lemma zeroish_softClamp (a : float) : zeroish a -> zeroish (softClamp a #5).
Proof.
  intros [-> | ->]; [left | right; reflexivity].
  unfold softClamp. feval. reflexivity.
Qed.

Lemma zeroish_fastTanh (a : float) : zeroish a -> zeroish (fastTanh a).
Proof. intros [-> | ->]; [left; apply fastTanh_0 | right; reflexivity]. Qed.

Lemma zeroish_diodeClip (a : float) : zeroish a -> zeroish (diodeClip a).
Proof. intros [-> | ->]; [left; apply diodeClip_0 | right; reflexivity]. Qed.

Lemma zeroish_aggressiveSat (a : float) : zeroish a -> zeroish (aggressiveSat a).
Proof. intros [-> | ->]; [left; apply aggressiveSat_0 | right; reflexivity]. Qed.

Lemma zeroish_preSaturate (model : Z) (input resAmt : float) :
  zeroish input -> zeroish (preSaturate model input resAmt).
Proof.
  intros H.
  destruct model as [| [[] | [] |] |]; cbn [preSaturate];
    first [apply zeroish_fastTanh | apply zeroish_diodeClip | apply zeroish_aggressiveSat];
    first [exact H | apply zeroish_mul_l; exact H].
Qed.

Lemma zeroish_accumulate (mode : Z) (acc lp' bp' hp' : float) :
  zeroish acc -> zeroish lp' -> zeroish bp' -> zeroish hp' ->
  zeroish (accumulate mode acc lp' bp' hp').
Proof.
  intros Ha Hl Hb Hh.
  destruct mode as [| [[| |] | [| |] |] |]; cbn [accumulate];
    first [exact Ha | apply zeroish_add; [exact Ha |]];
    first [assumption | apply zeroish_sub; assumption].
Qed.

(** One oversampling pass on a silent filter with a zero (or NaN) input. *)
Lemma osBody_silent (mode model : Z) (input resAmt : float) (d : DTC) (acc : float) :
  zeroish input -> lp d = #0 -> bp d = #0 -> zeroish acc ->
  silent (fst (osBody mode model input resAmt (d, acc))) /\
  zeroish (snd (osBody mode model input resAmt (d, acc))).
Proof.
  intros Hin Hlp Hbp Hacc.
  cbn [osBody fst snd]. rewrite Hlp, Hbp.
  pose proof (zeroish_preSaturate model input resAmt Hin) as Hu.
  set (u := preSaturate model input resAmt) in *.
  assert (Hhp : zeroish ((u - k d * #0 - #0) * gInv d)%float).
  { apply zeroish_mul_l. apply zeroish_sub; [| apply zeroish_0].
    apply zeroish_sub; [exact Hu | apply zeroish_mul_r, zeroish_0]. }
  set (hp' := ((u - k d * #0 - #0) * gInv d)%float) in *.
  assert (Hbp' : zeroish (g d * hp' + #0)%float).
  { apply zeroish_add; [apply zeroish_mul_r; exact Hhp | apply zeroish_0]. }
  set (bp' := (g d * hp' + #0)%float) in *.
  assert (Hlp' : zeroish (g d * bp' + #0)%float).
  { apply zeroish_add; [apply zeroish_mul_r; exact Hbp' | apply zeroish_0]. }
  set (lp' := (g d * bp' + #0)%float) in *.
  pose proof (zeroish_softClamp bp' Hbp') as Hcb.
  pose proof (zeroish_softClamp lp' Hlp') as Hcl.
  split.
  - unfold silent. cbn [lp bp hp set_filter].
    rewrite !zeroish_sanitize by assumption. repeat split.
  - apply zeroish_accumulate; assumption.
Qed.

Lemma osLoop_silent (n : nat) (mode model : Z) (input resAmt : float) :
  zeroish input ->
  forall (d : DTC) (acc : float),
    silent d -> zeroish acc ->
    silent (fst (osLoop n mode model input resAmt (d, acc))) /\
    zeroish (snd (osLoop n mode model input resAmt (d, acc))).
Proof.
  intros Hin. induction n as [| n IH]; intros d acc Hs Hacc.
  - split; assumption.
  - cbn [osLoop].
    destruct Hs as [Hlp [Hbp Hhp]].
    destruct (osBody_silent mode model input resAmt d acc Hin Hlp Hbp Hacc) as [Hs1 Ha1].
    destruct (osBody mode model input resAmt (d, acc)) as [d1 acc1].
    apply IH; assumption.
Qed.

Lemma processAGR_finite (agrValue randState : Z) :
  exists y, fst (processAGR agrValue randState) = #y.
Proof.
  unfold processAGR.
  destruct (agrValue <=? 25)%Z.
  - destruct (agrRandomZone_value agrValue randState) as [y [_ [E _]]].
    eexists. exact E.
  - destruct (agrValue <=? 50)%Z; cbn [fst].
    + unfold agrAttenZone, of_int. rewrite div_fin by lra. eexists. reflexivity.
    + unfold agrAmpZone, of_int. rewrite div_fin by lra. eexists. reflexivity.
Qed.

(** A zero bus sample on a silent filter: the output is exactly 0, the
    filter stays silent and the conditioned input is zero (or NaN when the
    smoothed drive is not finite). *)
Lemma processSample_silent (mode model oversample : Z) (resAmt : float) (dtc : DTC) :
  silent dtc ->
  let s := processSample mode model oversample resAmt dtc #0 in
  silent (s_dtc s) /\ zeroish (s_input s) /\ s_output s = #0.
Proof.
  intros Hs. cbv zeta. rewrite processSample_eq. cbn [s_dtc s_input s_output].
  set (p := processAGR (to_int (agrSmooth dtc)) (randState dtc)).
  assert (Hin : zeroish (#0 * fst p * driveSmooth dtc)%float).
  { apply zeroish_mul_l, zeroish_mul_l, zeroish_0. }
  set (input := (#0 * fst p * driveSmooth dtc)%float) in *.
  destruct (osLoop_silent (Z.to_nat oversample) mode model input resAmt Hin
              (set_randState dtc (snd p)) #0 Hs zeroish_0) as [Hs' Hacc].
  repeat split; try apply Hs'; try exact Hin.
  rewrite zeroish_sanitize by (apply zeroish_div; exact Hacc).
  apply outSaturate_0.
Qed.

(** Two bus regions of a block are the same or disjoint: a later input
    sample is never the output sample being written. *)
Lemma bus_no_overlap (a b n i j : Z) :
  (0 <= i < j)%Z -> (j < n)%Z -> (a * n + j <> b * n + i)%Z.
Proof.
  intros Hi Hj E.
  assert (Hd : ((a - b) * n = i - j)%Z) by lia.
  assert (Hc : (a - b <= -1 \/ a - b >= 0)%Z) by lia.
  destruct Hc as [Hc | Hc]; nia.
Qed.

Lemma store_other (bus : Bus) (i j : Z) (x : float) :
  j <> i -> store bus i x j = bus j.
Proof. intros H. unfold store. destruct (Z.eqb_spec j i); [contradiction | reflexivity]. Qed.

Section SilentLoop.
Variables (mode model oversample : Z) (resAmt : float).
Variables (a b numFrames : Z) (replace : bool).

Let inp := (a * numFrames)%Z.
Let out := (b * numFrames)%Z.

Lemma sampleBody_silent (i : Z) (d0 : DTC) (st : LoopState) :
  (0 <= i < numFrames)%Z ->
  silentLoopInv a numFrames i d0 st ->
  silentLoopInv a numFrames (i + 1) d0
    (sampleBody mode model oversample resAmt inp out replace i st) /\
  l_outs (sampleBody mode model oversample resAmt inp out replace i st) =
    l_outs st ++ [#0].
Proof.
  intros Hi (Hs & Hf & Hmi & Hmo & Hbus).
  unfold sampleBody, inp, out. rewrite (Hbus i) by lia.
  destruct (processSample_silent mode model oversample resAmt (l_dtc st) Hs)
    as (Hs' & Hin & Hout).
  pose proof (processSample_frame mode model oversample resAmt (l_dtc st) #0) as Hf'.
  set (s := processSample mode model oversample resAmt (l_dtc st) #0) in *.
  cbn [l_dtc l_maxIn l_maxOut l_bus l_outs].
  rewrite Hmi, Hmo, Hout.
  rewrite (zeroish_not_gt_0 _ (zeroish_fabsf _ Hin)).
  rewrite (zeroish_not_gt_0 (fabsf #0) (zeroish_fabsf _ zeroish_0)).
  split; [| reflexivity].
  unfold silentLoopInv. cbn [l_dtc l_maxIn l_maxOut l_bus].
  refine (conj Hs' (conj (frame_trans _ _ _ Hf Hf') (conj eq_refl (conj eq_refl _)))).
  intros j Hj.
  assert (Hne : (a * numFrames + j <> b * numFrames + i)%Z)
    by (apply bus_no_overlap; lia).
  destruct replace; rewrite store_other by exact Hne; apply Hbus; lia.
Qed.

Lemma sampleLoop_silent (n : nat) :
  forall (i : Z) (d0 : DTC) (st : LoopState),
    (0 <= i)%Z -> (i + Z.of_nat n <= numFrames)%Z ->
    silentLoopInv a numFrames i d0 st ->
    let st' := sampleLoop n mode model oversample resAmt inp out replace i st in
    silentLoopInv a numFrames (i + Z.of_nat n) d0 st' /\
    l_outs st' = l_outs st ++ repeat #0 n.
Proof.
  induction n as [| n IH]; intros i d0 st Hi Hn Hinv; cbv zeta.
  - cbn [sampleLoop repeat]. rewrite Z.add_0_r, app_nil_r. split; [exact Hinv | reflexivity].
  - cbn [sampleLoop].
    destruct (sampleBody_silent i d0 st ltac:(lia) Hinv) as [Hinv1 Houts1].
    destruct (IH (i + 1)%Z d0 _ ltac:(lia) ltac:(lia) Hinv1) as [Hinv2 Houts2].
    split.
    + replace (i + Z.of_nat (S n))%Z with (i + 1 + Z.of_nat n)%Z by lia. exact Hinv2.
    + rewrite Houts2, Houts1, <- app_assoc. reflexivity.
Qed.
End SilentLoop.

Lemma prepareBlock_keeps (sampleRate : Z) (v : Param -> Z) (dtc : DTC)
    (busFrames : Bus) (numFrames : Z) :
  let d := prepareBlock sampleRate v dtc busFrames numFrames in
  lp d = lp dtc /\ bp d = bp dtc /\ hp d = hp dtc /\
  randState d = randState dtc /\
  inputLevel d = inputLevel dtc /\ outputLevel d = outputLevel dtc.
Proof. cbv zeta. repeat split. Qed.

Lemma blockLoop_silent (v : Param -> Z) (d0 : DTC) (busFrames : Bus)
    (numFrames : Z) (n : nat) :
  silent d0 ->
  (forall i : Z, (0 <= i < numFrames)%Z ->
     busFrames ((v kParamInput - 1) * numFrames + i)%Z = #0) ->
  (Z.of_nat n <= numFrames)%Z ->
  let st := blockLoop v d0 busFrames numFrames n in
  silent (l_dtc st) /\ frame d0 (l_dtc st) /\
  l_maxIn st = #0 /\ l_maxOut st = #0 /\ l_outs st = repeat #0 n.
Proof.
  intros Hs Hbus Hn. cbv zeta. unfold blockLoop.
  destruct (sampleLoop_silent (v kParamMode) (v kParamModel)
              (Z.shiftl 1 (v kParamOversample)) (resonanceAmount d0)
              (v kParamInput - 1) (v kParamOutput - 1) numFrames
              (negb (v kParamOutputMode =? 0)%Z) n 0 d0
              (mkLoop d0 busFrames #0 #0 [] []))
    as [(H1 & H2 & H3 & H4 & _) Houts].
  - lia.
  - lia.
  - unfold silentLoopInv. cbn [l_dtc l_maxIn l_maxOut l_bus].
    split; [exact Hs |]. split; [apply frame_refl |].
    split; [reflexivity |]. split; [reflexivity |].
    intros j Hj. apply Hbus. lia.
  - exact (conj H1 (conj H2 (conj H3 (conj H4 Houts)))).
Qed.

Lemma step_silent (sampleRate : Z) (v : Param -> Z) (dtc : DTC)
    (busFrames : Bus) (numFramesBy4 : Z) :
  silent dtc ->
  silentInput (mkBlock v busFrames numFramesBy4) ->
  let r := step sampleRate v dtc busFrames numFramesBy4 in
  silent (l_dtc r) /\
  l_outs r = repeat #0 (Z.to_nat (numFramesBy4 * 4)) /\
  inputLevel (l_dtc r) = (inputLevel dtc * #0.95 + #0 * #0.05)%float /\
  outputLevel (l_dtc r) = (outputLevel dtc * #0.95 + #0 * #0.05)%float.
Proof.
  intros Hs Hbus. cbv zeta. unfold silentInput in Hbus. cbn in Hbus.
  unfold step.
  set (numFrames := (numFramesBy4 * 4)%Z) in *.
  set (d0 := prepareBlock sampleRate v dtc busFrames numFrames).
  assert (Hs0 : silent d0) by exact Hs.
  assert (Hn : (Z.of_nat (Z.to_nat numFrames) <= numFrames)%Z \/ Z.to_nat numFrames = 0%nat) by lia.
  assert (Hloop :
    let st := blockLoop v d0 busFrames numFrames (Z.to_nat numFrames) in
    silent (l_dtc st) /\ frame d0 (l_dtc st) /\
    l_maxIn st = #0 /\ l_maxOut st = #0 /\
    l_outs st = repeat #0 (Z.to_nat numFrames)).
  { destruct Hn as [Hn | Hn].
    - apply blockLoop_silent; assumption.
    - rewrite Hn. cbv zeta. unfold blockLoop. cbn.
      repeat split; try apply Hs0. }
  cbv zeta in Hloop. destruct Hloop as (H1 & H2 & H3 & H4 & H5).
  cbn [l_dtc l_outs]. rewrite H3, H4.
  destruct H2 as (_ & _ & _ & _ & _ & _ & _ & HiL & HoL).
  split; [exact H1 |]. split; [exact H5 |].
  cbn [inputLevel outputLevel set_levels]. rewrite HiL, HoL.
  split; reflexivity.
Qed.

Lemma run_silent (sampleRate : Z) (blocks : list Block) :
  forall (dtc : DTC) (L M : R),
    silent dtc -> inputLevel dtc = #L -> outputLevel dtc = #M ->
    Forall silentInput blocks ->
    silent (fst (run sampleRate blocks dtc)) /\
    Forall (fun r => silent (l_dtc r)) (snd (run sampleRate blocks dtc)) /\
    map l_outs (snd (run sampleRate blocks dtc)) =
      map (fun b => repeat #0 (Z.to_nat (b_numFramesBy4 b * 4))) blocks /\
    inputLevel (fst (run sampleRate blocks dtc)) = #(L * 0.95 ^ length blocks) /\
    outputLevel (fst (run sampleRate blocks dtc)) = #(M * 0.95 ^ length blocks).
Proof.
  induction blocks as [| b rest IH]; intros dtc L M Hs HL HM Hall.
  - cbn. rewrite HL, HM. repeat split; try apply Hs; try constructor; fin_eq.
  - inversion Hall as [| b' rest' Hb Hrest]; subst.
    destruct b as [v bus nb4].
    destruct (step_silent sampleRate v dtc bus nb4 Hs Hb) as (Hs1 & Ho1 & Hi1 & Hm1).
    cbn [run b_v b_bus b_numFramesBy4].
    set (r := step sampleRate v dtc bus nb4) in *.
    rewrite HL in Hi1. rewrite HM in Hm1. rewrite !mul_fin, add_fin in Hi1, Hm1.
    destruct (IH (l_dtc r) _ _ Hs1 Hi1 Hm1 Hrest) as (A & B & C & D & E).
    destruct (run sampleRate rest (l_dtc r)) as [d' rs].
    cbn [fst snd map length] in *.
    split; [exact A |]. split; [constructor; assumption |].
    split; [rewrite Ho1, C; reflexivity |].
    rewrite D, E. split; fin_eq; cbn [pow]; ring.
Qed.

(** C7: silence.  From a silent filter state and for any parameter values,
    sample rate and number of blocks whose input bus is all zero: every
    output sample is exactly 0, the filter state is (0, 0, 0) after every
    sample and every block, and each level meter is multiplied by 0.95 per
    block, so that it tends to 0. *)
Theorem silence_scenario :
  (forall (sampleRate : Z) (blocks : list Block) (dtc : DTC) (L M : R),
     silent dtc -> inputLevel dtc = #L -> outputLevel dtc = #M ->
     Forall silentInput blocks ->
     silent (fst (run sampleRate blocks dtc)) /\
     Forall (fun r => silent (l_dtc r)) (snd (run sampleRate blocks dtc)) /\
     map l_outs (snd (run sampleRate blocks dtc)) =
       map (fun b => repeat #0 (Z.to_nat (b_numFramesBy4 b * 4))) blocks /\
     inputLevel (fst (run sampleRate blocks dtc)) = #(L * 0.95 ^ length blocks) /\
     outputLevel (fst (run sampleRate blocks dtc)) = #(M * 0.95 ^ length blocks)) /\
  (forall (sampleRate : Z) (v : Param -> Z) (dtc : DTC) (busFrames : Bus)
          (numFramesBy4 : Z) (n : nat),
     silent dtc -> silentInput (mkBlock v busFrames numFramesBy4) ->
     (Z.of_nat n <= numFramesBy4 * 4)%Z ->
     silent (l_dtc (blockLoop v
                      (prepareBlock sampleRate v dtc busFrames (numFramesBy4 * 4))
                      busFrames (numFramesBy4 * 4) n))) /\
  (forall L eps : R, 0 < eps ->
     exists N : nat, forall n : nat, (n >= N)%nat -> Rabs (L * 0.95 ^ n) < eps).
Proof.
  split; [| split].
  - intros. apply run_silent; assumption.
  - intros sampleRate v dtc busFrames numFramesBy4 n Hs Hbus Hn.
    apply blockLoop_silent; [exact Hs | exact Hbus | exact Hn].
  - intros L eps Heps.
    destruct (Req_dec L 0) as [-> | HL].
    + exists 0%nat. intros n _. rewrite Rmult_0_l, Rabs_R0. exact Heps.
    + assert (Habs : 0 < Rabs L) by (apply Rabs_pos_lt; exact HL).
      destruct (pow_lt_1_zero 0.95) with (y := eps / Rabs L) as [N HN].
      * rewrite Rabs_pos_eq; lra.
      * apply Rdiv_lt_0_compat; assumption.
      * exists N. intros n Hn. rewrite Rabs_mult.
        specialize (HN n Hn).
        apply Rmult_lt_compat_l with (r := Rabs L) in HN; [| exact Habs].
        replace (Rabs L * (eps / Rabs L)) with eps in HN by (field; lra).
        exact HN.
Qed.

Lemma silence_scenario_witness :
  silent (fst (run 48000 [zeroBlock; zeroBlock] (construct 48000))) /\
  Forall (fun r => silent (l_dtc r))
    (snd (run 48000 [zeroBlock; zeroBlock] (construct 48000))) /\
  map l_outs (snd (run 48000 [zeroBlock; zeroBlock] (construct 48000))) =
    map (fun b => repeat #0 (Z.to_nat (b_numFramesBy4 b * 4))) [zeroBlock; zeroBlock] /\
  inputLevel (fst (run 48000 [zeroBlock; zeroBlock] (construct 48000))) =
    #(0 * 0.95 ^ length [zeroBlock; zeroBlock]) /\
  outputLevel (fst (run 48000 [zeroBlock; zeroBlock] (construct 48000))) =
    #(0 * 0.95 ^ length [zeroBlock; zeroBlock]).
Proof.
  apply (proj1 silence_scenario).
  - repeat split.
  - reflexivity.
  - reflexivity.
  - repeat constructor.
Defined.

(** ** Determinism of the randomizer *)

Lemma osLoop_randState (n : nat) (mode model : Z) (input resAmt : float) :
  forall (d : DTC) (acc : float),
    randState (fst (osLoop n mode model input resAmt (d, acc))) = randState d.
Proof.
  induction n as [| n IH]; intros d acc.
  - reflexivity.
  - cbn [osLoop osBody]. rewrite IH. reflexivity.
Qed.

(** The gain of a sample and the next random state are those returned by
    [processAGR] on the smoothed AGR value and the random state. *)
Lemma processSample_agr (mode model oversample : Z) (resAmt : float)
    (dtc : DTC) (x : float) :
  let s := processSample mode model oversample resAmt dtc x in
  let p := processAGR (to_int (agrSmooth dtc)) (randState dtc) in
  s_gain s = fst p /\ randState (s_dtc s) = snd p /\
  agrSmooth (s_dtc s) = agrSmooth dtc.
Proof.
  cbv zeta. rewrite processSample_eq. cbn [s_gain s_dtc].
  split; [reflexivity |]. split.
  - rewrite osLoop_randState. reflexivity.
  - match goal with
    | |- agrSmooth (fst (osLoop ?n ?a ?b ?c ?d (?e, ?f))) = _ =>
        pose proof (osLoop_frame n a b c d e f) as (_ & _ & _ & _ & H & _)
    end.
    exact H.
Qed.

Lemma sampleLoop_gains (n : nat) :
  forall (mode1 model1 os1 : Z) (resAmt1 : float) (inp1 out1 : Z) (rep1 : bool)
         (mode2 model2 os2 : Z) (resAmt2 : float) (inp2 out2 : Z) (rep2 : bool)
         (i1 i2 : Z) (st1 st2 : LoopState),
    sameAGRState (l_dtc st1) (l_dtc st2) ->
    l_gains st1 = l_gains st2 ->
    let r1 := sampleLoop n mode1 model1 os1 resAmt1 inp1 out1 rep1 i1 st1 in
    let r2 := sampleLoop n mode2 model2 os2 resAmt2 inp2 out2 rep2 i2 st2 in
    sameAGRState (l_dtc r1) (l_dtc r2) /\ l_gains r1 = l_gains r2.
Proof.
  induction n as [| n IH]; intros; cbv zeta.
  - split; assumption.
  - cbn [sampleLoop]. apply IH.
    + cbn [sampleBody l_dtc]. destruct H as [Hr Ha].
      match goal with
      | |- sameAGRState (s_dtc (processSample ?m1 ?o1 ?v1 ?r1 ?d1 ?x1))
                        (s_dtc (processSample ?m2 ?o2 ?v2 ?r2 ?d2 ?x2)) =>
          destruct (processSample_agr m1 o1 v1 r1 d1 x1) as (_ & R1 & A1);
          destruct (processSample_agr m2 o2 v2 r2 d2 x2) as (_ & R2 & A2)
      end.
      split; [rewrite R1, R2, Hr, Ha; reflexivity | rewrite A1, A2; exact Ha].
    + cbn [sampleBody l_gains l_dtc]. destruct H as [Hr Ha].
      match goal with
      | |- _ ++ [s_gain (processSample ?m1 ?o1 ?v1 ?r1 ?d1 ?x1)] =
           _ ++ [s_gain (processSample ?m2 ?o2 ?v2 ?r2 ?d2 ?x2)] =>
          destruct (processSample_agr m1 o1 v1 r1 d1 x1) as (G1 & _ & _);
          destruct (processSample_agr m2 o2 v2 r2 d2 x2) as (G2 & _ & _)
      end.
      rewrite G1, G2, Hr, Ha, H0. reflexivity.
Qed.

Lemma prepareBlock_agr (sampleRate : Z) (v : Param -> Z) (dtc : DTC)
    (busFrames : Bus) (numFrames : Z) :
  agrSmooth (prepareBlock sampleRate v dtc busFrames numFrames) =
    smooth (agrSmooth dtc) (of_int (v kParamInputAGR) / #10)%float.
Proof. reflexivity. Qed.

Lemma step_gains (sr1 sr2 : Z) (v1 v2 : Param -> Z) (d1 d2 : DTC)
    (bus1 bus2 : Bus) (n1 n2 : Z) :
  sameAGRState d1 d2 ->
  sameAGR (mkBlock v1 bus1 n1) (mkBlock v2 bus2 n2) ->
  sameAGRState (l_dtc (step sr1 v1 d1 bus1 n1)) (l_dtc (step sr2 v2 d2 bus2 n2)) /\
  l_gains (step sr1 v1 d1 bus1 n1) = l_gains (step sr2 v2 d2 bus2 n2).
Proof.
  intros [Hr Ha] [Hv Hn]. cbn in Hv, Hn. subst n2.
  assert (Hinit : sameAGRState (prepareBlock sr1 v1 d1 bus1 (n1 * 4))
                               (prepareBlock sr2 v2 d2 bus2 (n1 * 4))).
  { split.
    - exact Hr.
    - rewrite !prepareBlock_agr, Ha, Hv. reflexivity. }
  unfold step, blockLoop. cbn [l_dtc l_gains].
  match goal with
  | |- sameAGRState (set_levels (l_dtc ?x) _ _) (set_levels (l_dtc ?y) _ _) /\ _ =>
      change (sameAGRState (l_dtc x) (l_dtc y) /\ l_gains x = l_gains y)
  end.
  apply sampleLoop_gains; [exact Hinit | reflexivity].
Qed.

Lemma run_gains (sr1 sr2 : Z) (blocks1 blocks2 : list Block) :
  Forall2 sameAGR blocks1 blocks2 ->
  forall d1 d2 : DTC,
    sameAGRState d1 d2 ->
    map l_gains (snd (run sr1 blocks1 d1)) = map l_gains (snd (run sr2 blocks2 d2)) /\
    sameAGRState (fst (run sr1 blocks1 d1)) (fst (run sr2 blocks2 d2)).
Proof.
  induction 1 as [| b1 b2 rest1 rest2 Hb Hrest IH]; intros d1 d2 Hd.
  - split; [reflexivity | exact Hd].
  - destruct b1 as [v1 bus1 n1], b2 as [v2 bus2 n2].
    destruct (step_gains sr1 sr2 v1 v2 d1 d2 bus1 bus2 n1 n2 Hd Hb) as [Hs Hg].
    cbn [run b_v b_bus b_numFramesBy4].
    destruct (IH _ _ Hs) as [Hm Hf].
    destruct (run sr1 rest1 (l_dtc (step sr1 v1 d1 bus1 n1))) as [e1 rs1].
    destruct (run sr2 rest2 (l_dtc (step sr2 v2 d2 bus2 n2))) as [e2 rs2].
    cbn [fst snd map] in *. rewrite Hg, Hm. split; [reflexivity | exact Hf].
Qed.

Lemma sampleLoop_ext (n : nat) (mode model oversample : Z) (resAmt : float)
    (inp out : Z) (replace : bool) :
  forall (i : Z) (st1 st2 : LoopState),
    sameLoopState st1 st2 ->
    sameLoopState (sampleLoop n mode model oversample resAmt inp out replace i st1)
                  (sampleLoop n mode model oversample resAmt inp out replace i st2).
Proof.
  induction n as [| n IH]; intros i st1 st2 Hst.
  - exact Hst.
  - cbn [sampleLoop]. apply IH.
    destruct Hst as (Hd & Hb & Hmi & Hmo & Hg & Ho).
    unfold sameLoopState, sampleBody.
    cbn [l_dtc l_bus l_maxIn l_maxOut l_gains l_outs].
    rewrite Hd, Hmi, Hmo, Hg, Ho, (Hb (inp + i)%Z), (Hb (out + i)%Z).
    repeat split.
    intros j. unfold store.
    destruct replace; destruct (j =? out + i)%Z; try reflexivity; apply Hb.
Qed.

Lemma prepareBlock_ext (sampleRate : Z) (v1 v2 : Param -> Z) (dtc : DTC)
    (bus1 bus2 : Bus) (numFrames : Z) :
  (forall p, v1 p = v2 p) -> (forall i, bus1 i = bus2 i) ->
  prepareBlock sampleRate v1 dtc bus1 numFrames =
  prepareBlock sampleRate v2 dtc bus2 numFrames.
Proof.
  intros Hv Hb. unfold prepareBlock.
  rewrite !Hv.
  destruct (v2 kParamCvCutoff >? 0)%Z; destruct (v2 kParamCvResonance >? 0)%Z;
    rewrite ?Hb; reflexivity.
Qed.

Lemma step_ext (sampleRate : Z) (v1 v2 : Param -> Z) (dtc : DTC)
    (bus1 bus2 : Bus) (n1 n2 : Z) :
  sameBlock (mkBlock v1 bus1 n1) (mkBlock v2 bus2 n2) ->
  sameLoopState (step sampleRate v1 dtc bus1 n1) (step sampleRate v2 dtc bus2 n2).
Proof.
  intros (Hv & Hb & Hn). cbn in Hv, Hb, Hn. subst n2.
  unfold step, blockLoop.
  rewrite (prepareBlock_ext sampleRate v1 v2 dtc bus1 bus2 (n1 * 4) Hv Hb).
  rewrite !Hv.
  match goal with
  | |- sameLoopState
         (mkLoop _ _ _ _ _ (l_outs (sampleLoop ?n ?a ?b ?c ?d ?e ?f ?g ?i ?st1)))
         (mkLoop _ _ _ _ _ (l_outs (sampleLoop _ _ _ _ _ _ _ _ _ ?st2))) =>
      destruct (sampleLoop_ext n a b c d e f g i st1 st2)
        as (Ed & Eb & Emi & Emo & Eg & Eo)
  end.
  - unfold sameLoopState. cbn [l_dtc l_bus l_maxIn l_maxOut l_gains l_outs].
    repeat split. exact Hb.
  - unfold sameLoopState. cbn [l_dtc l_bus l_maxIn l_maxOut l_gains l_outs].
    rewrite Ed, Emi, Emo, Eg, Eo. repeat split. exact Eb.
Qed.

Lemma run_ext (sampleRate : Z) (blocks1 blocks2 : list Block) :
  Forall2 sameBlock blocks1 blocks2 ->
  forall dtc : DTC,
    fst (run sampleRate blocks1 dtc) = fst (run sampleRate blocks2 dtc) /\
    map l_outs (snd (run sampleRate blocks1 dtc)) =
      map l_outs (snd (run sampleRate blocks2 dtc)) /\
    map l_gains (snd (run sampleRate blocks1 dtc)) =
      map l_gains (snd (run sampleRate blocks2 dtc)).
Proof.
  induction 1 as [| b1 b2 rest1 rest2 Hb Hrest IH]; intros dtc.
  - repeat split.
  - destruct b1 as [v1 bus1 n1], b2 as [v2 bus2 n2].
    destruct (step_ext sampleRate v1 v2 dtc bus1 bus2 n1 n2 Hb)
      as (Ed & _ & _ & _ & Eg & Eo).
    cbn [run b_v b_bus b_numFramesBy4].
    rewrite Ed. destruct (IH (l_dtc (step sampleRate v2 dtc bus2 n2))) as (Hf & Ho & Hg).
    destruct (run sampleRate rest1 _) as [e1 rs1].
    destruct (run sampleRate rest2 _) as [e2 rs2].
    cbn [fst snd map] in *. rewrite Eg, Eo, Hf, Ho, Hg. repeat split.
Qed.

Lemma sampleLoop_agrGains (n : nat) (mode model oversample : Z) (resAmt : float)
    (inp out : Z) (replace : bool) :
  forall (i : Z) (st : LoopState),
    let r := sampleLoop n mode model oversample resAmt inp out replace i st in
    let p := agrGains n (to_int (agrSmooth (l_dtc st))) (randState (l_dtc st)) in
    l_gains r = l_gains st ++ fst p /\ randState (l_dtc r) = snd p.
Proof.
  induction n as [| n IH]; intros i st; cbv zeta.
  - cbn [sampleLoop agrGains fst snd]. rewrite app_nil_r. split; reflexivity.
  - cbn [sampleLoop agrGains].
    destruct (processSample_agr mode model oversample resAmt (l_dtc st)
                (l_bus st (inp + i)%Z)) as (G & R & A).
    specialize (IH (i + 1)%Z (sampleBody mode model oversample resAmt inp out replace i st)).
    cbv zeta in IH. cbn [sampleBody l_dtc l_gains] in IH.
    rewrite A, R, G in IH.
    destruct (processAGR (to_int (agrSmooth (l_dtc st))) (randState (l_dtc st)))
      as [gain s'].
    cbn [fst snd] in IH.
    destruct (agrGains n (to_int (agrSmooth (l_dtc st))) s') as [gains s''].
    cbn [fst snd] in *. destruct IH as [IH1 IH2].
    split; [| exact IH2].
    rewrite IH1, <- app_assoc. reflexivity.
Qed.

Lemma step_agrGains (sampleRate : Z) (v : Param -> Z) (dtc : DTC)
    (busFrames : Bus) (numFramesBy4 : Z) :
  let r := step sampleRate v dtc busFrames numFramesBy4 in
  let p := agrGains (Z.to_nat (numFramesBy4 * 4)) (agrControl v dtc) (randState dtc) in
  l_gains r = fst p /\ randState (l_dtc r) = snd p.
Proof.
  cbv zeta. unfold step, blockLoop, agrControl. cbn [l_gains l_dtc randState set_levels].
  match goal with
  | |- context [sampleLoop ?n ?a ?b ?c ?d ?e ?f ?g ?i ?st] =>
      destruct (sampleLoop_agrGains n a b c d e f g i st) as [H1 H2]
  end.
  cbn [l_dtc l_gains app] in H1, H2.
  rewrite prepareBlock_agr in H1, H2.
  split; [exact H1 | exact H2].
Qed.

Lemma agrGains_state (n : nat) (agrValue : Z) :
  forall s : Z,
    snd (agrGains n agrValue s) =
      if (agrValue <=? 25)%Z then randomStateAfter n s else s.
Proof.
  induction n as [| n IH]; intros s.
  - cbn. destruct (agrValue <=? 25)%Z; reflexivity.
  - cbn [agrGains].
    destruct (processAGR agrValue s) as [gain s'] eqn:E.
    specialize (IH s').
    destruct (agrGains n agrValue s') as [gains s'']. cbn [snd] in *.
    rewrite IH. unfold processAGR in E.
    destruct (agrValue <=? 25)%Z.
    + unfold agrRandomZone in E. cbn in E. injection E as _ <-.
      unfold randomStateAfter. rewrite Nat.iter_succ_r. reflexivity.
    + destruct (agrValue <=? 50)%Z; injection E as _ <-; reflexivity.
Qed.

(** C9: the randomizer is deterministic.  [fastRandom] and [processAGR] are
    functions of the state they are given.  The gains of a block are the
    results of successive calls of [processAGR] on the block's control
    value, from the random state the block starts with, and the state left
    is the one these calls leave: nothing else enters.  Hence the gains of
    a run and its final random state are a function of the seed, of the
    smoothed AGR value and of the AGR parameter and size of every block:
    two runs that agree on these produce the same gains, whatever their
    audio, filter state and other parameters; and two runs from the same
    state on blocks with the same parameters and bus contents produce the
    same gains, the same outputs and the same final state. *)
Theorem randomizer_deterministic :
  (forall (s : Z) (agrValue : Z) (s' : Z),
     s = s' -> fastRandom s = fastRandom s' /\
               processAGR agrValue s = processAGR agrValue s') /\
  (forall (sampleRate : Z) (v : Param -> Z) (dtc : DTC) (busFrames : Bus)
          (numFramesBy4 : Z),
     let r := step sampleRate v dtc busFrames numFramesBy4 in
     let p := agrGains (Z.to_nat (numFramesBy4 * 4)) (agrControl v dtc)
                (randState dtc) in
     l_gains r = fst p /\ randState (l_dtc r) = snd p /\
     randState (l_dtc r) =
       if (agrControl v dtc <=? 25)%Z
       then randomStateAfter (Z.to_nat (numFramesBy4 * 4)) (randState dtc)
       else randState dtc) /\
  (forall (sr1 sr2 : Z) (blocks1 blocks2 : list Block) (d1 d2 : DTC),
     randState d1 = randState d2 -> agrSmooth d1 = agrSmooth d2 ->
     Forall2 sameAGR blocks1 blocks2 ->
     map l_gains (snd (run sr1 blocks1 d1)) = map l_gains (snd (run sr2 blocks2 d2)) /\
     randState (fst (run sr1 blocks1 d1)) = randState (fst (run sr2 blocks2 d2))) /\
  (forall (sampleRate : Z) (blocks1 blocks2 : list Block) (dtc : DTC),
     Forall2 sameBlock blocks1 blocks2 ->
     map l_gains (snd (run sampleRate blocks1 dtc)) =
       map l_gains (snd (run sampleRate blocks2 dtc)) /\
     map l_outs (snd (run sampleRate blocks1 dtc)) =
       map l_outs (snd (run sampleRate blocks2 dtc)) /\
     fst (run sampleRate blocks1 dtc) = fst (run sampleRate blocks2 dtc)).
Proof.
  split; [| split; [| split]].
  - intros s agrValue s' <-. split; reflexivity.
  - intros sampleRate v dtc busFrames numFramesBy4. cbv zeta.
    destruct (step_agrGains sampleRate v dtc busFrames numFramesBy4) as [H1 H2].
    split; [exact H1 |]. split; [exact H2 |].
    rewrite H2. apply agrGains_state.
  - intros sr1 sr2 blocks1 blocks2 d1 d2 Hr Ha Hb.
    destruct (run_gains sr1 sr2 blocks1 blocks2 Hb d1 d2 (conj Hr Ha)) as [Hg [Hs _]].
    split; assumption.
  - intros sampleRate blocks1 blocks2 dtc Hb.
    destruct (run_ext sampleRate blocks1 blocks2 Hb dtc) as (Hf & Ho & Hg).
    repeat split; assumption.
Qed.

(** Two runs of eight blocks from the constructed state with the AGR control
    at 0, at different sample rates and on different audio: the smoothed
    value falls from 50 by a tenth per block and is below 25, in the
    randomization zone, in the seventh and eighth block. *)
Lemma randomizer_deterministic_witness :
  map l_gains (snd (run 48000 (repeat agrZeroBlock 8) (construct 48000))) =
    map l_gains (snd (run 44100 (repeat agrZeroTone 8) (construct 44100))) /\
  randState (fst (run 48000 (repeat agrZeroBlock 8) (construct 48000))) =
    randState (fst (run 44100 (repeat agrZeroTone 8) (construct 44100))).
Proof.
  apply (proj1 (proj2 (proj2 randomizer_deterministic))).
  - reflexivity.
  - reflexivity.
  - repeat constructor.
Defined.

(** ** Checks on concrete values *)

(** The generator and the real-valued model at a few inputs, and single
    precision at the same ones. *)

Example xorshift_seed : xorshift 0x12345678 = 2274908837%Z.
Proof. reflexivity. Qed.

Example xorshift_seed_twice : randomStateAfter 2 0x12345678 = 358294691%Z.
Proof. reflexivity. Qed.

Example xorshift_zero : xorshift 0 = 0%Z.
Proof. reflexivity. Qed.

Example fastTanh_3 : fastTanh #3 = #1.
Proof. rewrite fastTanh_mid by lra. fin_eq. Qed.

(** In single precision: [fastTanh(1.0f)] is 0.777777791, the single
    nearest to 7/9; the formula gives exactly 1 at 3; the gain at 75 is
    exactly 2.5. *)
Example fastTanh32_1 :
  fastTanh32 (Binary32.of_int 1) = S754_finite false 13048946 (-24).
Proof. vm_compute. reflexivity. Qed.

Example fastTanh32_3 : fastTanh32 (Binary32.of_int 3) = Binary32.of_int 1.
Proof. vm_compute. reflexivity. Qed.

Example processAGR32_75 :
  fst (processAGR32 75 0x12345678) = Binary32.lit 25 10.
Proof. vm_compute. reflexivity. Qed.

Example processAGR_75 : fst (processAGR 75 0x12345678) = #2.5.
Proof.
  change (processAGR 75 305419896) with (agrAmpZone 75, 305419896%Z).
  unfold agrAmpZone, of_int. cbn [fst]. rewrite div_fin by lra. cbn. fin_eq.
Qed.

Example sanitize_big : sanitize #1e11 = #0.
Proof. apply sanitize_fin_drop. right. lra. Qed.

(** * Further properties of the code *)

(** ** Clamping of the filter state *)

Lemma softClamp_fin (x limit : R) :
  0 <= limit ->
  exists y, softClamp #x #limit = #y /\ - limit <= y <= limit /\
            (- limit <= x <= limit -> y = x).
Proof.
  intros Hl. unfold softClamp. rewrite gt_fin, neg_fin, lt_fin.
  destruct (Rlt_dec limit x) as [H1 | H1].
  - rewrite Rltb_true by assumption. exists limit.
    split; [reflexivity |]. split; lra.
  - rewrite Rltb_false by lra.
    destruct (Rlt_dec x (- limit)) as [H2 | H2].
    + rewrite Rltb_true by assumption. exists (- limit).
      split; [reflexivity |]. split; lra.
    + rewrite Rltb_false by lra. exists x.
      split; [reflexivity |]. split; lra.
Qed.

(** [softClamp] limits a finite value and an infinity to [-limit, limit],
    returns a value already in range unchanged, and lets NaN through. *)
Theorem softClamp_range (x limit : R) :
  0 <= limit ->
  (exists y, softClamp #x #limit = #y /\ Rabs y <= limit) /\
  (Rabs x <= limit -> softClamp #x #limit = #x) /\
  softClamp (Inf false) #limit = #limit /\
  softClamp (Inf true) #limit = #(- limit) /\
  softClamp NaN #limit = NaN.
Proof.
  intros Hl.
  destruct (softClamp_fin x limit Hl) as [y [E [Hy Hx]]].
  split; [| split; [| split; [| split]]].
  - exists y. split; [exact E | apply Rabs_le; exact Hy].
  - intros Hr. rewrite E. f_equal. apply Hx.
    unfold Rabs in Hr. destruct (Rcase_abs x); lra.
  - reflexivity.
  - reflexivity.
  - reflexivity.
Qed.

Lemma softClamp_range_witness :
  (exists y, softClamp #7 #5 = #y /\ Rabs y <= 5) /\
  (Rabs 7 <= 5 -> softClamp #7 #5 = #7) /\
  softClamp (Inf false) #5 = #5 /\
  softClamp (Inf true) #5 = #(- 5) /\
  softClamp NaN #5 = NaN.
Proof. apply (softClamp_range 7 5). lra. Defined.

(** What is stored after the clamp and [sanitize] is finite and within 5,
    whatever was computed. *)
Lemma sanitize_softClamp_5 (x : float) :
  exists y, sanitize (softClamp x #5) = #y /\ Rabs y <= 5.
Proof.
  destruct x as [| [|] | r].
  - exists 0. split; [reflexivity | rewrite Rabs_R0; lra].
  - exists (- 5). split.
    + change (softClamp (Inf true) #5) with #(- 5). apply sanitize_fin_keep. lra.
    + rewrite Rabs_left; lra.
  - exists 5. split.
    + change (softClamp (Inf false) #5) with #5. apply sanitize_fin_keep. lra.
    + rewrite Rabs_pos_eq; lra.
  - destruct (softClamp_fin r 5 ltac:(lra)) as [y [E [Hy _]]].
    exists y. rewrite E. split; [apply sanitize_fin_keep; lra | apply Rabs_le; lra].
Qed.

Lemma osBody_stateBounded (mode model : Z) (input resAmt : float)
    (d : DTC) (acc : float) :
  stateBounded (fst (osBody mode model input resAmt (d, acc))).
Proof.
  cbn [osBody fst]. unfold stateBounded. cbn [lp bp hp set_filter].
  match goal with
  | |- context [sanitize (softClamp ?l #5)] =>
      destruct (sanitize_softClamp_5 l) as [yl [El Hl]]
  end.
  rewrite El.
  match goal with
  | |- context [sanitize (softClamp ?b #5)] =>
      destruct (sanitize_softClamp_5 b) as [yb [Eb Hb]]
  end.
  rewrite Eb.
  match goal with
  | |- context [sanitize ?h] =>
      destruct (sanitize_range h) as [yh [Eh Hh]]
  end.
  rewrite Eh.
  exists yl, yb, yh. repeat split; try assumption. apply Rabs_le; lra.
Qed.

Lemma osLoop_stateBounded (n : nat) (mode model : Z) (input resAmt : float) :
  forall (d : DTC) (acc : float),
    stateBounded d ->
    stateBounded (fst (osLoop n mode model input resAmt (d, acc))).
Proof.
  induction n as [| n IH]; intros d acc Hd.
  - exact Hd.
  - cbn [osLoop].
    pose proof (osBody_stateBounded mode model input resAmt d acc) as H1.
    destruct (osBody mode model input resAmt (d, acc)) as [d1 acc1].
    apply IH. exact H1.
Qed.

Lemma processSample_stateBounded (mode model oversample : Z) (resAmt : float)
    (dtc : DTC) (x : float) :
  stateBounded dtc ->
  stateBounded (s_dtc (processSample mode model oversample resAmt dtc x)).
Proof.
  intros Hd. rewrite processSample_eq. cbn [s_dtc].
  apply osLoop_stateBounded. exact Hd.
Qed.

Lemma sampleLoop_stateBounded (n : nat) (mode model oversample : Z)
    (resAmt : float) (inp out : Z) (replace : bool) :
  forall (i : Z) (st : LoopState),
    stateBounded (l_dtc st) ->
    stateBounded
      (l_dtc (sampleLoop n mode model oversample resAmt inp out replace i st)).
Proof.
  induction n as [| n IH]; intros i st Hst.
  - exact Hst.
  - cbn [sampleLoop]. apply IH. cbn [sampleBody l_dtc].
    apply processSample_stateBounded. exact Hst.
Qed.

Lemma step_stateBounded (sampleRate : Z) (v : Param -> Z) (dtc : DTC)
    (busFrames : Bus) (numFramesBy4 : Z) :
  stateBounded dtc ->
  stateBounded (l_dtc (step sampleRate v dtc busFrames numFramesBy4)).
Proof.
  intros Hd. unfold step, blockLoop. cbn [l_dtc].
  match goal with
  | |- stateBounded (set_levels (l_dtc ?st) _ _) =>
      change (stateBounded (l_dtc st))
  end.
  apply sampleLoop_stateBounded. exact Hd.
Qed.

(** X1: The stored filter state cannot run away: one oversampling pass from
    any state and input, NaN and infinities included, stores a finite state
    with [lp] and [bp] within 5 and [hp] within 1e10; a state within these
    bounds, as the constructed one, stays within them across any run. *)
Theorem filter_state_bounded :
  (forall (mode model : Z) (input resAmt : float) (d : DTC) (acc : float),
     stateBounded (fst (osBody mode model input resAmt (d, acc)))) /\
  (forall (sampleRate : Z), stateBounded (construct sampleRate)) /\
  (forall (sampleRate : Z) (blocks : list Block) (dtc : DTC),
     stateBounded dtc ->
     stateBounded (fst (run sampleRate blocks dtc)) /\
     Forall (fun r => stateBounded (l_dtc r)) (snd (run sampleRate blocks dtc))).
Proof.
  split; [exact osBody_stateBounded |]. split.
  - intros sampleRate. exists 0, 0, 0.
    repeat split; rewrite Rabs_R0; lra.
  - intros sampleRate blocks. induction blocks as [| b rest IH]; intros dtc Hd.
    + split; [exact Hd | constructor].
    + cbn [run].
      pose proof (step_stateBounded sampleRate (b_v b) dtc (b_bus b)
                    (b_numFramesBy4 b) Hd) as H1.
      destruct (IH _ H1) as [H2 H3].
      destruct (run sampleRate rest _) as [d' rs].
      cbn [fst snd] in *. split; [exact H2 | constructor; assumption].
Qed.

Lemma filter_state_bounded_witness :
  stateBounded (fst (run 48000 [demoBlock; demoBlock] (construct 48000))) /\
  Forall (fun r => stateBounded (l_dtc r))
    (snd (run 48000 [demoBlock; demoBlock] (construct 48000))).
Proof.
  apply (proj2 (proj2 filter_state_bounded)).
  exists 0, 0, 0. repeat split; rewrite Rabs_R0; lra.
Defined.

(** ** Coefficients for any cutoff *)

Lemma calculateFilterCoeffs_clamped (dtc : DTC) (cutoff resonance rate : R) :
  0 < rate ->
  let c := clampCutoff cutoff rate in
  let gv := tan (3.14159265358979323846 * c / rate) in
  let kv := 2 - resonance * 1.9 in
  0 < c <= rate * 0.45 /\
  calculateFilterCoeffs dtc #cutoff #resonance #rate =
    set_coeffs dtc #gv #kv (#1 / (#1 + #gv * (#gv + #kv)))%float.
Proof.
  intros Hr c gv kv.
  assert (Hc : 0 < c <= rate * 0.45).
  { unfold c, clampCutoff. split.
    - apply Rmin_glb_lt; [| lra].
      apply Rlt_le_trans with 20; [lra | apply Rmax_r].
    - apply Rmin_r. }
  split; [exact Hc |].
  unfold calculateFilterCoeffs, M_PI.
  rewrite lt_fin.
  assert (E1 : (if Rltb cutoff 20 then #20 else #cutoff) = #(Rmax cutoff 20)).
  { destruct (Rlt_dec cutoff 20) as [H | H].
    - rewrite Rltb_true by assumption. rewrite Rmax_right by lra. reflexivity.
    - rewrite Rltb_false by lra. rewrite Rmax_left by lra. reflexivity. }
  rewrite E1, mul_fin, gt_fin.
  assert (E2 : (if Rltb (rate * 0.45) (Rmax cutoff 20) then #(rate * 0.45)
                else #(Rmax cutoff 20)) = #c).
  { unfold c, clampCutoff.
    destruct (Rlt_dec (rate * 0.45) (Rmax cutoff 20)) as [H | H].
    - rewrite Rltb_true by assumption. rewrite Rmin_right by lra. reflexivity.
    - rewrite Rltb_false by lra. rewrite Rmin_left by lra. reflexivity. }
  rewrite E2, mul_fin, div_fin by lra. reflexivity.
Qed.

Lemma prewarp_range (c rate : R) :
  0 < rate -> 0 < c <= rate * 0.45 ->
  0 < tan (3.14159265358979323846 * c / rate) <= gMax.
Proof.
  intros Hr Hc.
  assert (Hq : 0 < c / rate <= 0.45).
  { split.
    - apply Rdiv_lt_0_compat; lra.
    - unfold Rdiv. apply Rmult_le_reg_r with rate; [assumption |].
      rewrite Rmult_assoc, Rinv_l by lra. lra. }
  replace (3.14159265358979323846 * c / rate)
    with (3.14159265358979323846 * (c / rate)) by (unfold Rdiv; ring).
  pose proof PI2_3_2 as Hpi.
  split.
  - apply tan_gt_0; nra.
  - unfold gMax.
    destruct (Req_dec (c / rate) 0.45) as [-> | Hne]; [lra |].
    left. apply tan_increasing; nra.
Qed.

Lemma cos_lb_value (a : R) :
  cos_lb a = 1 - a * a / 2 + a * a * a * a / 24 - a * a * a * a * a * a / 720.
Proof.
  unfold cos_lb, cos_approx. cbn [sum_f_R0]. unfold cos_term.
  change (fact (2 * 0)) with 1%nat. change (fact (2 * 1)) with 2%nat.
  change (fact (2 * 2)) with 24%nat. change (fact (2 * 3)) with 720%nat.
  rewrite !INR_IZR_INZ. cbn [Z.of_nat Pos.of_succ_nat Pos.succ].
  cbn [Nat.mul Nat.add pow]. field.
Qed.

Lemma gMax_bound : 0 < gMax <= 6.5.
Proof.
  unfold gMax. set (a := 3.14159265358979323846 * 0.45).
  pose proof PI2_3_2 as Hpi.
  assert (Ha : 1.4137 <= a <= 1.4138) by (unfold a; lra).
  destruct (COS a ltac:(lra) ltac:(lra)) as [Hc _].
  rewrite cos_lb_value in Hc.
  assert (Hlb : 0.156 <=
                1 - a * a / 2 + a * a * a * a / 24 - a * a * a * a * a * a / 720)
    by (unfold a; lra).
  pose proof (SIN_bound a) as [_ Hs].
  assert (Hs0 : 0 < sin a) by (apply sin_gt_0; lra).
  unfold tan. split.
  - apply Rdiv_lt_0_compat; lra.
  - apply Rmult_le_reg_r with (cos a); [lra |].
    unfold Rdiv. rewrite Rmult_assoc, Rinv_l by lra. nra.
Qed.

Lemma calculateFilterCoeffs_inRange (dtc : DTC) (cutoff resonance rate : R) :
  0 < rate -> 0 <= resonance <= 1 ->
  coeffsInRange (calculateFilterCoeffs dtc #cutoff #resonance #rate).
Proof.
  intros Hr Hres.
  destruct (calculateFilterCoeffs_clamped dtc cutoff resonance rate Hr) as [Hc E].
  rewrite E.
  pose proof (prewarp_range _ rate Hr Hc) as Hg.
  set (gv := tan (3.14159265358979323846 * clampCutoff cutoff rate / rate)) in *.
  set (kv := 2 - resonance * 1.9).
  assert (Hk : 0.1 <= kv <= 2) by (unfold kv; lra).
  assert (Hden : 1 <= 1 + gv * (gv + kv)) by nra.
  exists gv, kv, (1 / (1 + gv * (gv + kv))).
  unfold coeffs. cbn [g k gInv set_coeffs].
  rewrite add_fin, mul_fin, add_fin, div_fin by lra.
  pose proof gMax_bound as Hmax.
  split; [reflexivity |]. split; [lra |]. split; [exact Hk |].
  split; [apply Rdiv_lt_0_compat; lra | apply div_le_1; lra].
Qed.

Lemma calculateFilterCoeffs_same_clamp (dtc : DTC) (c1 c2 resonance rate : R) :
  0 < rate -> clampCutoff c1 rate = clampCutoff c2 rate ->
  calculateFilterCoeffs dtc #c1 #resonance #rate =
  calculateFilterCoeffs dtc #c2 #resonance #rate.
Proof.
  intros Hr E.
  destruct (calculateFilterCoeffs_clamped dtc c1 resonance rate Hr) as [_ E1].
  destruct (calculateFilterCoeffs_clamped dtc c2 resonance rate Hr) as [_ E2].
  rewrite E1, E2, E. reflexivity.
Qed.

(** X2: [calculateFilterCoeffs] for any cutoff, in range or not, at a rate
    from 1 Hz to 1 GHz and a resonance in [0, 1].  A cutoff below 20 gives
    the coefficients of 20; all cutoffs from 46% of the rate on give the
    same coefficients; and for every finite cutoff [g] is finite, positive
    and at most 6.5, [k] is in [0.1, 2] and [gInv] is in (0, 1]. *)
Theorem coefficients_any_cutoff (dtc : DTC) (resonance rate : R) :
  1 <= rate <= 1e9 -> 0 <= resonance <= 1 ->
  (forall cutoff : R, cutoff <= 20 ->
     calculateFilterCoeffs dtc #cutoff #resonance #rate =
     calculateFilterCoeffs dtc #20 #resonance #rate) /\
  (forall c1 c2 : R, rate * 0.46 <= c1 -> rate * 0.46 <= c2 ->
     calculateFilterCoeffs dtc #c1 #resonance #rate =
     calculateFilterCoeffs dtc #c2 #resonance #rate) /\
  (forall cutoff : R,
     exists gv kv gi : R,
       coeffs (calculateFilterCoeffs dtc #cutoff #resonance #rate) = (#gv, #kv, #gi) /\
       0 < gv <= 6.5 /\ 0.1 <= kv <= 2 /\ 0 < gi <= 1).
Proof.
  intros Hr Hres. split; [| split].
  - intros cutoff Hc. apply calculateFilterCoeffs_same_clamp; [lra |].
    unfold clampCutoff. rewrite Rmax_right by lra. rewrite Rmax_left by lra.
    reflexivity.
  - intros c1 c2 H1 H2. apply calculateFilterCoeffs_same_clamp; [lra |].
    unfold clampCutoff.
    assert (M1 : rate * 0.45 <= Rmax c1 20)
      by (apply Rle_trans with c1; [lra | apply Rmax_l]).
    assert (M2 : rate * 0.45 <= Rmax c2 20)
      by (apply Rle_trans with c2; [lra | apply Rmax_l]).
    rewrite !Rmin_right by assumption. reflexivity.
  - intros cutoff.
    apply (calculateFilterCoeffs_inRange dtc cutoff resonance rate); [lra | exact Hres].
Qed.

Lemma coefficients_any_cutoff_witness :
  calculateFilterCoeffs (construct 48000) #50000 #1 #48000 =
    calculateFilterCoeffs (construct 48000) #30000 #1 #48000 /\
  exists gv kv gi : R,
    coeffs (calculateFilterCoeffs (construct 48000) #50000 #1 #48000) = (#gv, #kv, #gi) /\
    0 < gv <= 6.5 /\ 0.1 <= kv <= 2 /\ 0 < gi <= 1.
Proof.
  assert (Hr : 1 <= 48000 <= 1e9) by lra.
  assert (Hres : 0 <= 1 <= 1) by lra.
  split.
  - apply (proj1 (proj2 (coefficients_any_cutoff (construct 48000) 1 48000 Hr Hres)));
      lra.
  - apply (proj2 (proj2 (coefficients_any_cutoff (construct 48000) 1 48000 Hr Hres))).
Defined.

(** ** NaN in a control input *)

Lemma add_NaN_l (x : float) : (NaN + x)%float = NaN.
Proof. reflexivity. Qed.

Lemma add_NaN_r (x : float) : (x + NaN)%float = NaN.
Proof. destruct x; reflexivity. Qed.

Lemma mul_NaN_r (x : float) : (x * NaN)%float = NaN.
Proof. destruct x; reflexivity. Qed.

Lemma lt_NaN_r (x : float) : (x <? NaN)%float = false.
Proof. destruct x as [| [|] |]; reflexivity. Qed.

Lemma smooth_NaN_l (target : float) : smooth NaN target = NaN.
Proof. reflexivity. Qed.

Lemma smooth_NaN_r (stored : float) : smooth stored NaN = NaN.
Proof. unfold smooth. cbn [sub add neg mul]. apply add_NaN_r. Qed.

Lemma calculateFilterCoeffs_NaN (dtc : DTC) (cutoff resonance rate : float) :
  cutoff = NaN \/ resonance = NaN ->
  muted (calculateFilterCoeffs dtc cutoff resonance rate).
Proof.
  unfold muted, calculateFilterCoeffs. cbn [gInv set_coeffs].
  intros [-> | ->].
  - cbn [lt]. unfold gt. rewrite lt_NaN_r. reflexivity.
  - match goal with |- context [tanf ?a] => generalize (tanf a) end.
    intros gv. change (#2 - NaN * #1.9)%float with NaN.
    rewrite add_NaN_r, mul_NaN_r. reflexivity.
Qed.

Lemma prepareBlock_controlNaN (sampleRate : Z) (v : Param -> Z) (dtc : DTC)
    (busFrames : Bus) (numFrames : Z) :
  controlNaN dtc ->
  controlNaN (prepareBlock sampleRate v dtc busFrames numFrames) /\
  muted (prepareBlock sampleRate v dtc busFrames numFrames).
Proof.
  intros H.
  assert (Hc : controlNaN (prepareBlock sampleRate v dtc busFrames numFrames)).
  { unfold controlNaN, prepareBlock in *.
    cbn [cutoffSmooth resonanceSmooth calculateFilterCoeffs set_coeffs set_smooth].
    destruct H as [-> | ->]; [left | right]; apply smooth_NaN_l. }
  split; [exact Hc |].
  unfold prepareBlock. apply calculateFilterCoeffs_NaN. exact Hc.
Qed.

Lemma osBody_muted (mode model : Z) (input resAmt : float) (d : DTC) (acc : float) :
  muted d -> zeroish acc ->
  muted (fst (osBody mode model input resAmt (d, acc))) /\
  silent (fst (osBody mode model input resAmt (d, acc))) /\
  zeroish (snd (osBody mode model input resAmt (d, acc))).
Proof.
  unfold muted. intros Hm Hacc. cbn [osBody fst snd]. rewrite Hm.
  repeat (rewrite mul_NaN_r || rewrite add_NaN_l).
  change (softClamp NaN #5) with NaN.
  split; [exact Hm |]. split.
  - unfold silent. cbn [lp bp hp set_filter]. repeat split.
  - apply zeroish_accumulate; try (right; reflexivity). exact Hacc.
Qed.

Lemma osLoop_muted (n : nat) (mode model : Z) (input resAmt : float) :
  forall (d : DTC) (acc : float),
    muted d -> zeroish acc ->
    muted (fst (osLoop n mode model input resAmt (d, acc))) /\
    zeroish (snd (osLoop n mode model input resAmt (d, acc))).
Proof.
  induction n as [| n IH]; intros d acc Hm Hacc.
  - split; assumption.
  - cbn [osLoop].
    destruct (osBody_muted mode model input resAmt d acc Hm Hacc) as (H1 & _ & H2).
    destruct (osBody mode model input resAmt (d, acc)) as [d1 acc1].
    apply IH; assumption.
Qed.

Lemma processSample_muted (mode model oversample : Z) (resAmt : float)
    (dtc : DTC) (x : float) :
  muted dtc ->
  muted (s_dtc (processSample mode model oversample resAmt dtc x)) /\
  s_output (processSample mode model oversample resAmt dtc x) = #0.
Proof.
  intros Hm. rewrite processSample_eq. cbn [s_dtc s_output].
  match goal with
  | |- muted (fst (osLoop ?n ?a ?b ?c ?d (?e, ?f))) /\ _ =>
      destruct (osLoop_muted n a b c d e f Hm zeroish_0) as [H1 H2]
  end.
  split; [exact H1 |].
  rewrite zeroish_sanitize by (apply zeroish_div; exact H2).
  apply outSaturate_0.
Qed.

Lemma sampleLoop_muted (n : nat) (mode model oversample : Z) (resAmt : float)
    (inp out : Z) (replace : bool) :
  forall (i : Z) (st : LoopState),
    muted (l_dtc st) ->
    let st' := sampleLoop n mode model oversample resAmt inp out replace i st in
    muted (l_dtc st') /\ l_outs st' = l_outs st ++ repeat #0 n.
Proof.
  induction n as [| n IH]; intros i st Hm; cbv zeta.
  - cbn [sampleLoop repeat]. rewrite app_nil_r. split; [exact Hm | reflexivity].
  - cbn [sampleLoop].
    destruct (processSample_muted mode model oversample resAmt (l_dtc st)
                (l_bus st (inp + i)%Z) Hm) as [H1 H2].
    destruct (IH (i + 1)%Z
                (sampleBody mode model oversample resAmt inp out replace i st) H1)
      as [H3 H4].
    split; [exact H3 |].
    rewrite H4. cbn [sampleBody l_outs]. rewrite H2, <- app_assoc. reflexivity.
Qed.

Lemma step_controlNaN (sampleRate : Z) (v : Param -> Z) (dtc : DTC)
    (busFrames : Bus) (numFramesBy4 : Z) :
  controlNaN dtc ->
  controlNaN (l_dtc (step sampleRate v dtc busFrames numFramesBy4)) /\
  l_outs (step sampleRate v dtc busFrames numFramesBy4) =
    repeat #0 (Z.to_nat (numFramesBy4 * 4)).
Proof.
  intros H.
  destruct (prepareBlock_controlNaN sampleRate v dtc busFrames (numFramesBy4 * 4) H)
    as [Hc Hm].
  unfold step, blockLoop. cbn [l_dtc l_outs].
  set (d0 := prepareBlock sampleRate v dtc busFrames (numFramesBy4 * 4)) in *.
  match goal with
  | |- controlNaN (set_levels (l_dtc (sampleLoop ?n ?a ?b ?c ?d ?e ?f ?g ?i ?st)) _ _) /\ _ =>
      destruct (sampleLoop_muted n a b c d e f g i st Hm) as [_ Ho];
      pose proof (sampleLoop_frame n a b c d e f g i st) as Hf
  end.
  split; [| exact Ho].
  destruct Hf as (_ & Hcut & Hres & _).
  unfold controlNaN in *. cbn [cutoffSmooth resonanceSmooth set_levels l_dtc] in *.
  rewrite Hcut, Hres. exact Hc.
Qed.

(** X3: A NaN control input is never recovered from.  When a connected CV bus
    holds NaN in its first sample, the smoothed cutoff (or resonance) is NaN
    after the block; from a state with a NaN smoothed cutoff or resonance,
    the smoothed value stays NaN and every output sample of every later
    block is exactly 0, whatever the audio input, the CV and the parameter
    values of these blocks. *)
Theorem nan_control_latches :
  (forall (sampleRate : Z) (v : Param -> Z) (dtc : DTC) (busFrames : Bus)
          (numFramesBy4 : Z),
     ((v kParamCvCutoff > 0)%Z /\
      busFrames ((v kParamCvCutoff - 1) * (numFramesBy4 * 4))%Z = NaN) \/
     ((v kParamCvResonance > 0)%Z /\
      busFrames ((v kParamCvResonance - 1) * (numFramesBy4 * 4))%Z = NaN) ->
     controlNaN (l_dtc (step sampleRate v dtc busFrames numFramesBy4))) /\
  (forall (sampleRate : Z) (blocks : list Block) (dtc : DTC),
     controlNaN dtc ->
     controlNaN (fst (run sampleRate blocks dtc)) /\
     map l_outs (snd (run sampleRate blocks dtc)) =
       map (fun b => repeat #0 (Z.to_nat (b_numFramesBy4 b * 4))) blocks).
Proof.
  split.
  - intros sampleRate v dtc busFrames numFramesBy4 H.
    unfold step, blockLoop. cbn [l_dtc].
    match goal with
    | |- controlNaN (set_levels (l_dtc (sampleLoop ?n ?a ?b ?c ?d ?e ?f ?g ?i ?st)) _ _) =>
        pose proof (sampleLoop_frame n a b c d e f g i st) as Hf
    end.
    destruct Hf as (_ & Hcut & Hres & _).
    unfold controlNaN. cbn [cutoffSmooth resonanceSmooth set_levels l_dtc] in *.
    rewrite Hcut, Hres.
    unfold prepareBlock.
    cbn [cutoffSmooth resonanceSmooth calculateFilterCoeffs set_coeffs set_smooth].
    destruct H as [[Hv Hb] | [Hv Hb]].
    + left. assert (Hv' : (v kParamCvCutoff >? 0)%Z = true) by (apply Z.gtb_lt; lia).
      rewrite Hv', Hb.
      cbn [mul pow2f]. rewrite mul_NaN_r. apply smooth_NaN_r.
    + right. assert (Hv' : (v kParamCvResonance >? 0)%Z = true) by (apply Z.gtb_lt; lia).
      rewrite Hv', Hb.
      cbn [mul]. rewrite add_NaN_r. cbn [lt gt]. apply smooth_NaN_r.
  - intros sampleRate blocks.
    induction blocks as [| b rest IH]; intros dtc Hd.
    + split; [exact Hd | reflexivity].
    + cbn [run].
      destruct (step_controlNaN sampleRate (b_v b) dtc (b_bus b)
                  (b_numFramesBy4 b) Hd) as [H1 H2].
      destruct (IH _ H1) as [H3 H4].
      destruct (run sampleRate rest _) as [d' rs].
      cbn [fst snd map] in *. split; [exact H3 |]. rewrite H2, H4. reflexivity.
Qed.

Lemma nan_control_latches_witness :
  controlNaN (fst (run 48000 [demoBlock]
                     (l_dtc (step 48000 demoParams (construct 48000) (fun _ => NaN) 1)))) /\
  map l_outs (snd (run 48000 [demoBlock]
                     (l_dtc (step 48000 demoParams (construct 48000) (fun _ => NaN) 1)))) =
    map (fun b => repeat #0 (Z.to_nat (b_numFramesBy4 b * 4))) [demoBlock].
Proof.
  apply (proj2 nan_control_latches).
  apply (proj1 nan_control_latches).
  left. split; reflexivity.
Defined.

(** ** Controls and coefficients stay in range *)

Lemma smooth_fin (s t : R) : smooth #s #t = #(s + (t - s) * 0.1).
Proof. reflexivity. Qed.

Lemma smooth_between (lo hi s t : R) :
  lo <= s <= hi -> lo <= t <= hi -> lo <= s + (t - s) * 0.1 <= hi.
Proof. intros Hs Ht. lra. Qed.

Lemma oversampleRate_pos (sampleRate osParam : Z) :
  (0 < sampleRate)%Z -> (0 <= osParam)%Z ->
  0 < IZR (sampleRate * Z.shiftl 1 osParam).
Proof.
  intros Hs Ho. apply IZR_lt. rewrite Z.shiftl_1_l.
  apply Z.mul_pos_pos; [assumption | apply Z.pow_pos_nonneg; lia].
Qed.

Lemma prepareBlock_controlsInRange (sampleRate : Z) (v : Param -> Z) (dtc : DTC)
    (busFrames : Bus) (numFrames : Z) :
  paramsInRange v -> cvFinite v busFrames numFrames ->
  controlsInRange dtc ->
  controlsInRange (prepareBlock sampleRate v dtc busFrames numFrames).
Proof.
  intros (Hcut & Hres & _ & _ & Hca & Hra & Hagr & Hdrv & _) [Hcv1 Hcv2]
         (c & r & dr & a & cc & cr & Ec & Er & Edr & Ea & Ecc & Ecr &
          Hc & Hr & Hdr & Ha & Hcc & Hcr).
  destruct Hcut as [Hcut1 Hcut2]. apply IZR_le in Hcut1, Hcut2.
  destruct Hres as [Hres1 Hres2]. apply IZR_le in Hres1, Hres2.
  destruct Hca as [Hca1 Hca2]. apply IZR_le in Hca1, Hca2.
  destruct Hra as [Hra1 Hra2]. apply IZR_le in Hra1, Hra2.
  destruct Hagr as [Hagr1 Hagr2]. apply IZR_le in Hagr1, Hagr2.
  destruct Hdrv as [Hdrv1 Hdrv2]. apply IZR_le in Hdrv1, Hdrv2.
  unfold controlsInRange, prepareBlock.
  cbn [cutoffSmooth resonanceSmooth driveSmooth agrSmooth cvCutoffAmtSmooth
       cvResAmtSmooth calculateFilterCoeffs set_coeffs set_smooth].
  rewrite Ec, Er, Edr, Ea, Ecc, Ecr. unfold of_int.
  rewrite !div_fin by lra. rewrite add_fin, !smooth_fin.
  (* the cutoff target is finite and positive *)
  assert (Tc : exists t, 0 < t /\
            match (if (v kParamCvCutoff >? 0)%Z
                   then Some ((v kParamCvCutoff - 1) * numFrames)%Z else None) with
            | Some p =>
                (#(IZR (v kParamCutoff)) *
                 pow2f (busFrames p * #(cc + (IZR (v kParamCvCutoffAmt) / 1000 - cc) * 0.1)
                        * #5))%float
            | None => #(IZR (v kParamCutoff))
            end = #t).
  { destruct (v kParamCvCutoff >? 0)%Z eqn:Eg.
    - apply Z.gtb_lt in Eg. specialize (Hcv1 ltac:(lia)).
      destruct (busFrames ((v kParamCvCutoff - 1) * numFrames)%Z) as [| s | x];
        try discriminate.
      rewrite !mul_fin. cbn [pow2f]. rewrite mul_fin.
      eexists. split; [| reflexivity].
      apply Rmult_lt_0_compat; [lra | apply exp_pos].
    - exists (IZR (v kParamCutoff)). split; [lra | reflexivity]. }
  destruct Tc as [tc [Htc ->]].
  (* the resonance target is finite and in [0, 1] *)
  destruct (v kParamCvResonance >? 0)%Z eqn:Eg.
  - apply Z.gtb_lt in Eg. specialize (Hcv2 ltac:(lia)).
    destruct (busFrames ((v kParamCvResonance - 1) * numFrames)%Z) as [| s | x];
      try discriminate.
    rewrite !mul_fin, add_fin, lt_fin.
    match goal with |- context [Rltb ?e 0] => set (e0 := e) end.
    destruct (Rlt_dec e0 0) as [H0 | H0].
    + rewrite Rltb_true by assumption. rewrite gt_fin, Rltb_false by lra.
      rewrite !smooth_fin. do 6 eexists.
      repeat (split; [reflexivity |]). repeat split; lra.
    + rewrite Rltb_false by lra. rewrite gt_fin.
      destruct (Rlt_dec 1 e0) as [H1 | H1].
      * rewrite Rltb_true by assumption.
        rewrite !smooth_fin. do 6 eexists.
        repeat (split; [reflexivity |]). repeat split; lra.
      * rewrite Rltb_false by lra.
        rewrite !smooth_fin. do 6 eexists.
        repeat (split; [reflexivity |]). repeat split; lra.
  - rewrite !smooth_fin. do 6 eexists.
    repeat (split; [reflexivity |]). repeat split; lra.
Qed.

Lemma prepareBlock_coeffs (sampleRate : Z) (v : Param -> Z) (dtc : DTC)
    (busFrames : Bus) (numFrames : Z) :
  let d0 := prepareBlock sampleRate v dtc busFrames numFrames in
  coeffs d0 =
    coeffs (calculateFilterCoeffs dtc (cutoffSmooth d0) (resonanceSmooth d0)
              (of_int (sampleRate * Z.shiftl 1 (v kParamOversample)))).
Proof. reflexivity. Qed.

Lemma prepareBlock_coeffsInRange (sampleRate : Z) (v : Param -> Z) (dtc : DTC)
    (busFrames : Bus) (numFrames : Z) :
  (0 < sampleRate)%Z ->
  paramsInRange v -> cvFinite v busFrames numFrames ->
  controlsInRange dtc ->
  coeffsInRange (prepareBlock sampleRate v dtc busFrames numFrames).
Proof.
  intros Hsr Hp Hcv Hd.
  destruct (prepareBlock_controlsInRange sampleRate v dtc busFrames numFrames Hp Hcv Hd)
    as (c & r & dr & a & cc & cr & Ec & Er & _ & _ & _ & _ & Hc & Hr & _).
  unfold coeffsInRange. rewrite prepareBlock_coeffs. cbv zeta.
  rewrite Ec, Er. unfold of_int.
  apply calculateFilterCoeffs_inRange; [| exact Hr].
  apply oversampleRate_pos; [exact Hsr |].
  destruct Hp as (_ & _ & _ & _ & _ & _ & _ & _ & Hos). lia.
Qed.

Lemma frame_controlsInRange (d d' : DTC) :
  frame d d' -> controlsInRange d -> controlsInRange d'.
Proof.
  intros (_ & F1 & F2 & F3 & F4 & F5 & F6 & _)
         (c & r & dr & a & cc & cr & Ec & Er & Edr & Ea & Ecc & Ecr & H).
  exists c, r, dr, a, cc, cr.
  rewrite F1, F2, F3, F4, F5, F6.
  repeat (split; [assumption |]). exact H.
Qed.

Lemma frame_coeffsInRange (d d' : DTC) :
  frame d d' -> coeffsInRange d -> coeffsInRange d'.
Proof.
  intros (F & _) (gv & kv & gi & E & H).
  exists gv, kv, gi. rewrite F. split; assumption.
Qed.

Lemma step_frame (sampleRate : Z) (v : Param -> Z) (dtc : DTC)
    (busFrames : Bus) (numFramesBy4 : Z) :
  let d0 := prepareBlock sampleRate v dtc busFrames (numFramesBy4 * 4) in
  let d1 := l_dtc (step sampleRate v dtc busFrames numFramesBy4) in
  coeffs d1 = coeffs d0 /\
  cutoffSmooth d1 = cutoffSmooth d0 /\ resonanceSmooth d1 = resonanceSmooth d0 /\
  driveSmooth d1 = driveSmooth d0 /\ agrSmooth d1 = agrSmooth d0 /\
  cvCutoffAmtSmooth d1 = cvCutoffAmtSmooth d0 /\
  cvResAmtSmooth d1 = cvResAmtSmooth d0.
Proof.
  cbv zeta. unfold step, blockLoop. cbn [l_dtc].
  match goal with
  | |- context [sampleLoop ?n ?a ?b ?c ?d ?e ?f ?g ?i ?st] =>
      pose proof (sampleLoop_frame n a b c d e f g i st)
        as (F0 & F1 & F2 & F3 & F4 & F5 & F6 & _)
  end.
  cbn [l_dtc] in *.
  repeat split; assumption.
Qed.

Lemma step_inRange (sampleRate : Z) (v : Param -> Z) (dtc : DTC)
    (busFrames : Bus) (numFramesBy4 : Z) :
  (0 < sampleRate)%Z ->
  blockInRange (mkBlock v busFrames numFramesBy4) ->
  controlsInRange dtc ->
  controlsInRange (l_dtc (step sampleRate v dtc busFrames numFramesBy4)) /\
  coeffsInRange (l_dtc (step sampleRate v dtc busFrames numFramesBy4)).
Proof.
  intros Hsr [Hp Hcv] Hd. cbn in Hp, Hcv.
  pose proof (prepareBlock_controlsInRange sampleRate v dtc busFrames _ Hp Hcv Hd) as H1.
  pose proof (prepareBlock_coeffsInRange sampleRate v dtc busFrames _ Hsr Hp Hcv Hd) as H2.
  destruct (step_frame sampleRate v dtc busFrames numFramesBy4)
    as (F0 & F1 & F2 & F3 & F4 & F5 & F6).
  split.
  - destruct H1 as (c & r & dr & a & cc & cr & Ec & Er & Edr & Ea & Ecc & Ecr & H).
    exists c, r, dr, a, cc, cr. rewrite F1, F2, F3, F4, F5, F6.
    repeat (split; [assumption |]). exact H.
  - destruct H2 as (gv & kv & gi & E & H).
    exists gv, kv, gi. rewrite F0. split; assumption.
Qed.

Lemma blockWithinLimits_inRange (b : Block) : blockWithinLimits b -> blockInRange b.
Proof.
  intros [Hp [H1 H2]]. split; [exact Hp |]. split; intros Hc.
  - destruct (H1 Hc) as [x [E _]]. rewrite E. reflexivity.
  - destruct (H2 Hc) as [x [E _]]. rewrite E. reflexivity.
Qed.

Lemma run_inRange (sampleRate : Z) (blocks : list Block) :
  forall dtc : DTC,
    (0 < sampleRate)%Z -> controlsInRange dtc -> Forall blockInRange blocks ->
    controlsInRange (fst (run sampleRate blocks dtc)) /\
    Forall (fun r =>
              controlsInRange (l_dtc r) /\ coeffsInRange (l_dtc r) /\
              exists ra, resonanceAmount (l_dtc r) = #ra /\ 0 <= ra <= 1)
      (snd (run sampleRate blocks dtc)).
Proof.
  induction blocks as [| b rest IH]; intros dtc Hsr Hd Hall.
  - split; [exact Hd | constructor].
  - inversion Hall as [| b' rest' Hb Hrest]; subst.
    destruct b as [v bus nb4]. cbn [run b_v b_bus b_numFramesBy4].
    destruct (step_inRange sampleRate v dtc bus nb4 Hsr Hb Hd) as [H1 H2].
    destruct (IH _ Hsr H1 Hrest) as [H3 H4].
    destruct (run sampleRate rest _) as [d' rs].
    cbn [fst snd] in *. split; [exact H3 |].
    constructor; [| exact H4].
    split; [exact H1 |]. split; [exact H2 |].
    destruct H2 as (gv & kv & gi & E & _ & Hk & _).
    assert (Ek : k (l_dtc (step sampleRate v dtc bus nb4)) = #kv)
      by (unfold coeffs in E; congruence).
    unfold resonanceAmount. rewrite Ek, sub_fin, div_fin by lra.
    eexists. split; [reflexivity |]. split.
    + apply Rmult_le_pos; [lra | left; apply Rinv_0_lt_compat; lra].
    + apply div_le_1; lra.
Qed.

(** X4: With parameter values inside their declared ranges, control voltages
    within 10 in magnitude and a sample rate from 1 Hz to 1 MHz, the
    smoothed controls and the coefficients never leave their ranges: from
    the constructed state and after every block of any run, cutoff is
    finite and positive, resonance in [0, 1], drive in [1, 5], AGR in
    [0, 100], the CV amounts in [-1, 1], [g] in (0, 6.5], [k] in [0.1, 2],
    [gInv] in (0, 1] and the resonance amount of the saturation in
    [0, 1]. *)
Theorem controls_stay_in_range :
  (forall sampleRate : Z, controlsInRange (construct sampleRate)) /\
  (forall (sampleRate : Z) (blocks : list Block) (dtc : DTC),
     (1 <= sampleRate <= 1000000)%Z -> controlsInRange dtc ->
     Forall blockWithinLimits blocks ->
     controlsInRange (fst (run sampleRate blocks dtc)) /\
     Forall (fun r =>
               controlsInRange (l_dtc r) /\ coeffsInRange (l_dtc r) /\
               exists ra, resonanceAmount (l_dtc r) = #ra /\ 0 <= ra <= 1)
       (snd (run sampleRate blocks dtc))).
Proof.
  split.
  - intros sampleRate. exists 1000, 0, 1, 50, 1, 1.
    repeat (split; [reflexivity |]). repeat split; lra.
  - intros sampleRate blocks dtc Hsr Hd Hall.
    apply run_inRange; [lia | exact Hd |].
    eapply Forall_impl; [| exact Hall].
    exact blockWithinLimits_inRange.
Qed.

Lemma controls_stay_in_range_witness :
  controlsInRange (fst (run 48000 [demoBlock; demoBlock] (construct 48000))) /\
  Forall (fun r =>
            controlsInRange (l_dtc r) /\ coeffsInRange (l_dtc r) /\
            exists ra, resonanceAmount (l_dtc r) = #ra /\ 0 <= ra <= 1)
    (snd (run 48000 [demoBlock; demoBlock] (construct 48000))).
Proof.
  apply (proj2 controls_stay_in_range).
  - lia.
  - apply (proj1 controls_stay_in_range).
  - assert (Hb : blockWithinLimits demoBlock).
    { split.
      - unfold paramsInRange. cbn. lia.
      - split; intros _; exists 8; cbn; (split; [reflexivity |]);
          rewrite Rabs_pos_eq by lra; lra. }
    constructor; [exact Hb |]. constructor; [exact Hb |]. constructor.
Defined.

(** ** The gain law of the AGR *)

Lemma agrAttenZone_value (agrValue : Z) : agrAttenZone agrValue = #(IZR agrValue / 50).
Proof.
  unfold agrAttenZone, of_int. rewrite div_fin, mul_fin, add_fin by lra.
  rewrite minus_IZR. fin_eq.
Qed.

Lemma agrAmpZone_value (agrValue : Z) :
  agrAmpZone agrValue = #((3 * IZR agrValue - 100) / 50).
Proof.
  unfold agrAmpZone, of_int. rewrite div_fin, mul_fin, add_fin by lra.
  rewrite minus_IZR. fin_eq.
Qed.

Lemma agrRandomZone_bounds (agrValue randState : Z) :
  (0 <= agrValue <= 25)%Z ->
  exists y, fst (agrRandomZone agrValue randState) = #y /\
            IZR agrValue / 50 <= y <= 1 - IZR agrValue / 50.
Proof.
  intros [H0 H25]. apply IZR_le in H0, H25.
  destruct (agrRandomZone_value agrValue randState) as [y [Hy [E _]]].
  eexists. split; [exact E |].
  set (m := 1 - IZR agrValue / 25).
  assert (Hm : 0 <= m <= 1) by (unfold m; lra).
  assert (H1 : 0 <= y * m) by (apply Rmult_le_pos; lra).
  assert (H2 : y * m <= 1 * m) by (apply Rmult_le_compat_r; lra).
  unfold m in *. lra.
Qed.

Lemma processAGR_gain_range (agrValue randState : Z) :
  (0 <= agrValue <= 100)%Z ->
  exists y, fst (processAGR agrValue randState) = #y /\ 0 <= y <= 4.
Proof.
  intros [H0 H100].
  pose proof (IZR_le _ _ H0) as R0. pose proof (IZR_le _ _ H100) as R100.
  unfold processAGR.
  destruct (Z.leb_spec agrValue 25) as [H | H].
  - destruct (agrRandomZone_bounds agrValue randState ltac:(lia)) as [y [E Hy]].
    apply IZR_le in H.
    eexists. split; [exact E | lra].
  - apply IZR_lt in H.
    destruct (Z.leb_spec agrValue 50) as [H' | H']; cbn [fst].
    + apply IZR_le in H'.
      rewrite agrAttenZone_value. eexists. split; [reflexivity | lra].
    + apply IZR_lt in H'.
      rewrite agrAmpZone_value. eexists. split; [reflexivity | lra].
Qed.

Lemma checkFrom_spec (P : Z -> bool) (n : nat) :
  forall lo : Z,
    checkFrom P lo n = true ->
    forall v : Z, (lo <= v < lo + Z.of_nat n)%Z -> P v = true.
Proof.
  induction n as [| n IH]; intros lo H v Hv.
  - cbn in Hv. lia.
  - cbn [checkFrom] in H. apply andb_prop in H. destruct H as [H0 H1].
    destruct (Z.eq_dec v lo) as [-> | Hne]; [exact H0 |].
    apply (IH (lo + 1)%Z H1). lia.
Qed.

Lemma processAGR32_fixed (v s : Z) :
  (25 < v)%Z -> processAGR32 v s = (fst (processAGR32 v 0), s).
Proof.
  intros H. unfold processAGR32.
  destruct (Z.leb_spec v 25) as [H' | _]; [lia |].
  destruct (v <=? 50)%Z; reflexivity.
Qed.

Lemma processAGR32_attenuation :
  checkFrom
    (fun v => Binary32.le (Binary32.lit 5 10) (fst (processAGR32 v 0)) &&
              Binary32.le (fst (processAGR32 v 0)) (Binary32.of_int 1))
    26 25 = true.
Proof. vm_compute. reflexivity. Qed.

Lemma processAGR32_amplification :
  checkFrom
    (fun v => Binary32.le (Binary32.of_int 1) (fst (processAGR32 v 0)) &&
              Binary32.le (fst (processAGR32 v 0)) (Binary32.of_int 4))
    51 50 = true.
Proof. vm_compute. reflexivity. Qed.

Lemma processAGR32_rising :
  checkFrom
    (fun v =>
       checkFrom
         (fun w => Binary32.le (fst (processAGR32 v 0)) (fst (processAGR32 w 0)))
         v (Z.to_nat (101 - v)))
    26 75 = true.
Proof. vm_compute. reflexivity. Qed.

(** X5: The gain law of [processAGR], zone by zone, in single precision bit
    for bit.  Up to 25 the generator advances by one step; above 25 it is
    left alone and the gain depends on the control value only.  From 26 to
    50 the gain lies between 0.5 and 1, from 51 to 100 between 1 and 4,
    and from 26 to 100 it never falls when the control value rises.  In
    the randomization zone, from 0 to 25, the gain of the real-valued model
    lies between 0 and 1. *)
Theorem processAGR_zones :
  (forall v s : Z, (v <= 25)%Z -> snd (processAGR32 v s) = xorshift s) /\
  (forall v s : Z, (25 < v)%Z -> snd (processAGR32 v s) = s) /\
  (forall v s : Z, (25 < v <= 50)%Z ->
     Binary32.le (Binary32.lit 5 10) (fst (processAGR32 v s)) = true /\
     Binary32.le (fst (processAGR32 v s)) (Binary32.of_int 1) = true) /\
  (forall v s : Z, (50 < v <= 100)%Z ->
     Binary32.le (Binary32.of_int 1) (fst (processAGR32 v s)) = true /\
     Binary32.le (fst (processAGR32 v s)) (Binary32.of_int 4) = true) /\
  (forall v w s t : Z, (25 < v)%Z -> (v <= w)%Z -> (w <= 100)%Z ->
     Binary32.le (fst (processAGR32 v s)) (fst (processAGR32 w t)) = true) /\
  (forall v s : Z, (0 <= v <= 25)%Z ->
     exists y, fst (processAGR v s) = #y /\ 0 <= y <= 1).
Proof.
  split; [| split; [| split; [| split; [| split]]]].
  - intros v s H. unfold processAGR32.
    destruct (Z.leb_spec v 25) as [_ | H']; [| lia]. reflexivity.
  - intros v s H. rewrite processAGR32_fixed by exact H. reflexivity.
  - intros v s H. rewrite processAGR32_fixed by lia. cbn [fst].
    apply andb_prop.
    apply (checkFrom_spec _ _ _ processAGR32_attenuation v). lia.
  - intros v s H. rewrite processAGR32_fixed by lia. cbn [fst].
    apply andb_prop.
    apply (checkFrom_spec _ _ _ processAGR32_amplification v). lia.
  - intros v w s t H1 H2 H3.
    rewrite (processAGR32_fixed v s), (processAGR32_fixed w t) by lia. cbn [fst].
    pose proof (checkFrom_spec _ _ _ processAGR32_rising v ltac:(lia)) as Hv.
    cbv beta in Hv.
    apply (checkFrom_spec _ _ _ Hv w). lia.
  - intros v s [H0 H25].
    pose proof (IZR_le _ _ H0) as R0. pose proof (IZR_le _ _ H25) as R25.
    destruct (agrRandomZone_bounds v s (conj H0 H25)) as [y [E Hy]].
    exists y. split; [| lra].
    unfold processAGR. destruct (Z.leb_spec v 25) as [_ | H']; [exact E | lia].
Qed.

Lemma processAGR_zones_witness :
  snd (processAGR32 10 0x12345678) = xorshift 0x12345678 /\
  snd (processAGR32 40 0x12345678) = 0x12345678%Z /\
  Binary32.le (fst (processAGR32 40 0x12345678)) (Binary32.of_int 1) = true /\
  Binary32.le (Binary32.of_int 1) (fst (processAGR32 75 0x12345678)) = true /\
  Binary32.le (fst (processAGR32 40 0x12345678)) (fst (processAGR32 75 1)) = true /\
  (exists y, fst (processAGR 10 0x12345678) = #y /\ 0 <= y <= 1).
Proof.
  split; [| split; [| split; [| split; [| split]]]].
  - apply (proj1 processAGR_zones). lia.
  - apply (proj1 (proj2 processAGR_zones)). lia.
  - apply (proj1 (proj2 (proj2 processAGR_zones)) 40%Z). lia.
  - apply (proj1 (proj2 (proj2 (proj2 processAGR_zones))) 75%Z). lia.
  - apply (proj1 (proj2 (proj2 (proj2 (proj2 processAGR_zones))))); lia.
  - apply (proj2 (proj2 (proj2 (proj2 (proj2 processAGR_zones))))). lia.
Defined.

(** ** Input conditioning in a run *)

Lemma to_int_range (r lo hi : R) (zlo zhi : Z) :
  IZR zlo <= r <= IZR zhi -> (0 <= zlo)%Z -> (zhi <= INT_MAX)%Z ->
  (zlo <= to_int #r <= zhi)%Z.
Proof.
  intros [Hlo Hhi] Hz Hmax. unfold to_int, trunc.
  assert (H0 : 0 <= r) by (apply Rle_trans with (IZR zlo); [apply IZR_le; lia | exact Hlo]).
  rewrite Rltb_false by lra.
  destruct (base_Int_part r) as [Hb1 Hb2].
  assert (Hi1 : (zlo <= Int_part r)%Z).
  { assert (IZR zlo < IZR (Int_part r) + 1) by lra.
    rewrite <- plus_IZR in H. apply lt_IZR in H. lia. }
  assert (Hi2 : (Int_part r <= zhi)%Z) by (apply le_IZR; lra).
  unfold INT_MIN, INT_MAX in *. lia.
Qed.

Lemma processSample_gain_range (mode model oversample : Z) (resAmt : float)
    (dtc : DTC) (x : float) :
  controlsInRange dtc ->
  exists y, s_gain (processSample mode model oversample resAmt dtc x) = #y /\
            0 <= y <= 4.
Proof.
  intros (c & r & dr & a & cc & cr & _ & _ & _ & Ea & _ & _ & _ & _ & _ & Ha & _).
  destruct (processSample_agr mode model oversample resAmt dtc x) as (E & _ & _).
  rewrite E, Ea.
  apply processAGR_gain_range.
  apply (to_int_range a 0 100 0 100); [exact Ha | lia | unfold INT_MAX; lia].
Qed.

Lemma sampleLoop_gains_range (n : nat) (mode model oversample : Z)
    (resAmt : float) (inp out : Z) (replace : bool) :
  forall (i : Z) (st : LoopState),
    controlsInRange (l_dtc st) ->
    Forall (fun y => exists r, y = #r /\ 0 <= r <= 4) (l_gains st) ->
    Forall (fun y => exists r, y = #r /\ 0 <= r <= 4)
      (l_gains (sampleLoop n mode model oversample resAmt inp out replace i st)).
Proof.
  induction n as [| n IH]; intros i st Hc Hg.
  - exact Hg.
  - cbn [sampleLoop]. apply IH.
    + cbn [sampleBody l_dtc].
      apply (frame_controlsInRange (l_dtc st)); [apply processSample_frame | exact Hc].
    + cbn [sampleBody l_gains]. apply Forall_app. split; [exact Hg |].
      constructor; [| constructor].
      apply processSample_gain_range. exact Hc.
Qed.

(** X6: With parameter values inside their declared ranges and finite CV
    samples, every AGR gain applied in a run from an in-range state is
    finite and in [0, 4]. *)
Theorem gains_in_range (sampleRate : Z) (blocks : list Block) :
  forall dtc : DTC,
    controlsInRange dtc -> Forall blockInRange blocks ->
    Forall (fun r => Forall (fun y => exists g, y = #g /\ 0 <= g <= 4) (l_gains r))
      (snd (run sampleRate blocks dtc)).
Proof.
  induction blocks as [| b rest IH]; intros dtc Hd Hall.
  - constructor.
  - inversion Hall as [| b' rest' Hb Hrest]; subst.
    destruct b as [v bus nb4]. destruct Hb as [Hp Hcv]. cbn in Hp, Hcv.
    cbn [run b_v b_bus b_numFramesBy4].
    pose proof (prepareBlock_controlsInRange sampleRate v dtc bus _ Hp Hcv Hd) as H0.
    assert (H1 : controlsInRange (l_dtc (step sampleRate v dtc bus nb4))).
    { destruct (step_frame sampleRate v dtc bus nb4)
        as (_ & F1 & F2 & F3 & F4 & F5 & F6).
      destruct H0 as (c & r & dr & a & cc & cr & Ec & Er & Edr & Ea & Ecc & Ecr & H).
      exists c, r, dr, a, cc, cr. rewrite F1, F2, F3, F4, F5, F6.
      repeat (split; [assumption |]). exact H. }
    assert (H2 : Forall (fun y => exists g, y = #g /\ 0 <= g <= 4)
                   (l_gains (step sampleRate v dtc bus nb4))).
    { unfold step, blockLoop. cbn [l_gains].
      apply sampleLoop_gains_range; [exact H0 | constructor]. }
    specialize (IH _ H1 Hrest).
    destruct (run sampleRate rest _) as [d' rs].
    cbn [snd] in *. constructor; assumption.
Qed.

Lemma gains_in_range_witness :
  Forall (fun r => Forall (fun y => exists g, y = #g /\ 0 <= g <= 4) (l_gains r))
    (snd (run 48000 [demoBlock] (construct 48000))).
Proof.
  apply (gains_in_range 48000 [demoBlock] (construct 48000)).
  - exists 1000, 0, 1, 50, 1, 1.
    repeat (split; [reflexivity |]). repeat split; lra.
  - constructor; [| constructor]. split.
    + unfold paramsInRange. cbn. lia.
    + split; intros _; reflexivity.
Defined.

(** ** Settling of the smoothed parameters *)

Lemma run_fst_cons (sampleRate : Z) (b : Block) (rest : list Block) (dtc : DTC) :
  fst (run sampleRate (b :: rest) dtc) =
    fst (run sampleRate rest
           (l_dtc (step sampleRate (b_v b) dtc (b_bus b) (b_numFramesBy4 b)))).
Proof. cbn [run]. destruct (run sampleRate rest _) as [d' rs]. reflexivity. Qed.

Lemma step_drive_agr (sampleRate : Z) (v : Param -> Z) (dtc : DTC)
    (busFrames : Bus) (numFramesBy4 : Z) :
  driveSmooth (l_dtc (step sampleRate v dtc busFrames numFramesBy4)) =
    smooth (driveSmooth dtc) (#1 + of_int (v kParamDrive) / #250)%float /\
  agrSmooth (l_dtc (step sampleRate v dtc busFrames numFramesBy4)) =
    smooth (agrSmooth dtc) (of_int (v kParamInputAGR) / #10)%float.
Proof.
  destruct (step_frame sampleRate v dtc busFrames numFramesBy4)
    as (_ & _ & _ & F3 & F4 & _).
  rewrite F3, F4. split; reflexivity.
Qed.




(** ** The output level meter *)

Lemma processSample_output_unit (mode model oversample : Z) (resAmt : float)
    (dtc : DTC) (x : float) :
  exists r, s_output (processSample mode model oversample resAmt dtc x) = #r /\
            Rabs r <= 1.
Proof.
  rewrite processSample_eq. cbn [s_output].
  match goal with
  | |- exists r, outSaturate _ (sanitize ?y) = _ /\ _ =>
      destruct (outSaturate_bounded model y) as [r [E Hr]]
  end.
  exists r. split; [exact E | apply Rabs_le; lra].
Qed.

Lemma peakOf_snoc (m r : R) (outs : list float) :
  0 <= m -> peakOf m outs ->
  peakOf (if Rlt_dec m (Rabs r) then Rabs r else m) (outs ++ [#r]).
Proof.
  intros Hm [Hall Hatt]. unfold peakOf.
  destruct (Rlt_dec m (Rabs r)) as [H | H].
  - split.
    + apply Forall_app. split.
      * eapply Forall_impl; [| exact Hall].
        intros o (x & -> & Hx). exists x. split; [reflexivity | lra].
      * constructor; [| constructor]. exists r. split; [reflexivity | lra].
    + right. exists r. split; [apply in_or_app; right; left; reflexivity | reflexivity].
  - split.
    + apply Forall_app. split; [exact Hall |].
      constructor; [| constructor]. exists r. split; [reflexivity | lra].
    + destruct Hatt as [H0 | (x & Hin & Hx)]; [left; exact H0 |].
      right. exists x. split; [apply in_or_app; left; exact Hin | exact Hx].
Qed.

Lemma sampleLoop_maxOut (n : nat) (mode model oversample : Z) (resAmt : float)
    (inp out : Z) (replace : bool) :
  forall (i : Z) (st : LoopState) (m : R),
    l_maxOut st = #m -> 0 <= m <= 1 -> peakOf m (l_outs st) ->
    exists m',
      l_maxOut (sampleLoop n mode model oversample resAmt inp out replace i st) = #m' /\
      0 <= m' <= 1 /\
      peakOf m' (l_outs (sampleLoop n mode model oversample resAmt inp out replace i st)).
Proof.
  induction n as [| n IH]; intros i st m Hm Hr Hp.
  - exists m. split; [exact Hm | split; [exact Hr | exact Hp]].
  - cbn [sampleLoop].
    destruct (processSample_output_unit mode model oversample resAmt (l_dtc st)
                (l_bus st (inp + i)%Z)) as [r [Er Hr1]].
    apply (IH _ _ (if Rlt_dec m (Rabs r) then Rabs r else m)).
    + cbn [sampleBody l_maxOut]. rewrite Er, Hm, fabsf_fin, gt_fin.
      unfold Rltb. destruct (Rlt_dec m (Rabs r)); reflexivity.
    + destruct (Rlt_dec m (Rabs r)); [| exact Hr].
      split; [apply Rabs_pos | exact Hr1].
    + cbn [sampleBody l_outs]. rewrite Er. apply peakOf_snoc; [lra | exact Hp].
Qed.

Lemma step_maxOut (sampleRate : Z) (v : Param -> Z) (dtc : DTC)
    (busFrames : Bus) (numFramesBy4 : Z) :
  exists m,
    l_maxOut (step sampleRate v dtc busFrames numFramesBy4) = #m /\
    0 <= m <= 1 /\
    peakOf m (l_outs (step sampleRate v dtc busFrames numFramesBy4)) /\
    outputLevel (l_dtc (step sampleRate v dtc busFrames numFramesBy4)) =
      (outputLevel dtc * #0.95 + #m * #0.05)%float.
Proof.
  unfold step, blockLoop. cbn [l_maxOut l_outs l_dtc outputLevel set_levels].
  match goal with
  | |- context [sampleLoop ?n ?a ?b ?c ?d ?e ?f ?g ?i ?st] =>
      destruct (sampleLoop_maxOut n a b c d e f g i st 0) as (m & E & Hm & Hp);
      [reflexivity | lra | split; [constructor | left; reflexivity] |];
      pose proof (sampleLoop_frame n a b c d e f g i st)
        as (_ & _ & _ & _ & _ & _ & _ & _ & Fo)
  end.
  exists m. rewrite E, Fo.
  split; [reflexivity |]. split; [exact Hm |]. split; [exact Hp | reflexivity].
Qed.

(** X8: The output meter.  In every block the peak [maxOut] is finite, in
    [0, 1.2], bounds the magnitude of every output sample of the block and
    is attained by one of them (or is 0); the stored level is computed from
    it as [outputLevel * 0.95f + maxOut * 0.05f].  A level in [0, 1.2], as
    after construction, therefore stays in [0, 1.2] across any run, for
    any audio, CV and parameter values, and the bar drawn from it is 0 to
    50 wide. *)
Theorem output_meter :
  (forall (sampleRate : Z) (v : Param -> Z) (dtc : DTC) (busFrames : Bus)
          (numFramesBy4 : Z),
     exists m,
       l_maxOut (step sampleRate v dtc busFrames numFramesBy4) = #m /\
       0 <= m <= 1.2 /\
       peakOf m (l_outs (step sampleRate v dtc busFrames numFramesBy4)) /\
       outputLevel (l_dtc (step sampleRate v dtc busFrames numFramesBy4)) =
         (outputLevel dtc * #0.95 + #m * #0.05)%float) /\
  (forall (sampleRate : Z) (blocks : list Block) (dtc : DTC) (L : R),
     outputLevel dtc = #L -> 0 <= L <= 1.2 ->
     exists L',
       outputLevel (fst (run sampleRate blocks dtc)) = #L' /\ 0 <= L' <= 1.2 /\
       (0 <= meterWidth (outputLevel (fst (run sampleRate blocks dtc))) <= 50)%Z).
Proof.
  split.
  - intros sampleRate v dtc busFrames numFramesBy4.
    destruct (step_maxOut sampleRate v dtc busFrames numFramesBy4)
      as (m & E & Hm & Hp & El).
    exists m. split; [exact E |]. split; [lra |]. split; [exact Hp | exact El].
  - intros sampleRate blocks. induction blocks as [| b rest IH]; intros dtc L HL Hr.
    + exists L. cbn [run fst]. rewrite HL. split; [reflexivity |]. split; [exact Hr |].
      unfold meterWidth. rewrite mul_fin.
      assert (Hw : (0 <= to_int #(L * 50) <= 60)%Z).
      { apply (to_int_range (L * 50) 0 60 0 60); [lra | lia | unfold INT_MAX; lia]. }
      cbv zeta. destruct (Z.gtb_spec (to_int #(L * 50)) 50); lia.
    + cbn [run].
      destruct (step_maxOut sampleRate (b_v b) dtc (b_bus b) (b_numFramesBy4 b))
        as (m & _ & Hm & _ & E).
      rewrite HL, !mul_fin, add_fin in E.
      destruct (IH _ _ E ltac:(lra)) as (L' & E' & HL' & Hw).
      destruct (run sampleRate rest _) as [d' rs]. cbn [fst] in *.
      exists L'. split; [exact E' | split; [exact HL' | exact Hw]].
Qed.

Lemma output_meter_witness :
  exists L',
    outputLevel (fst (run 48000 [demoBlock; demoBlock] (construct 48000))) = #L' /\
    0 <= L' <= 1.2 /\
    (0 <= meterWidth (outputLevel (fst (run 48000 [demoBlock; demoBlock]
                                          (construct 48000)))) <= 50)%Z.
Proof.
  apply (proj2 output_meter 48000%Z [demoBlock; demoBlock] (construct 48000) 0).
  - reflexivity.
  - lra.
Defined.

(** ** What [step] writes to the bus *)

Lemma sampleLoop_outs_prefix (n : nat) (mode model oversample : Z)
    (resAmt : float) (inp out : Z) (replace : bool) :
  forall (i : Z) (st : LoopState),
    exists more,
      l_outs (sampleLoop n mode model oversample resAmt inp out replace i st) =
        l_outs st ++ more /\ length more = n.
Proof.
  induction n as [| n IH]; intros i st.
  - exists []. rewrite app_nil_r. split; reflexivity.
  - cbn [sampleLoop].
    destruct (IH (i + 1)%Z (sampleBody mode model oversample resAmt inp out replace i st))
      as [more [E L]].
    rewrite E. cbn [sampleBody l_outs]. rewrite <- app_assoc.
    eexists. split; [reflexivity |]. cbn. rewrite L. reflexivity.
Qed.

Lemma store_same (bus : Bus) (i : Z) (x : float) : store bus i x i = x.
Proof. unfold store. rewrite Z.eqb_refl. reflexivity. Qed.

Lemma sampleLoop_bus (n : nat) (mode model oversample : Z) (resAmt : float)
    (inp out : Z) (replace : bool) :
  forall (i : Z) (st : LoopState),
    let st' := sampleLoop n mode model oversample resAmt inp out replace i st in
    (forall j : Z, ~ (out + i <= j < out + i + Z.of_nat n)%Z ->
       l_bus st' j = l_bus st j) /\
    (forall m : nat, (m < n)%nat ->
       l_bus st' (out + i + Z.of_nat m)%Z =
         let o := nth (length (l_outs st) + m) (l_outs st') NaN in
         if replace then o else (l_bus st (out + i + Z.of_nat m)%Z + o)%float).
Proof.
  induction n as [| n IH]; intros i st; cbv zeta.
  - split; [reflexivity | intros m Hm; lia].
  - cbn [sampleLoop].
    set (st1 := sampleBody mode model oversample resAmt inp out replace i st).
    destruct (IH (i + 1)%Z st1) as [Hout Hin]. cbv zeta in Hin.
    destruct (sampleLoop_outs_prefix n mode model oversample resAmt inp out replace
                (i + 1)%Z st1) as [more [Emore _]].
    assert (Eouts1 : l_outs st1 = l_outs st ++ [s_output
               (processSample mode model oversample resAmt (l_dtc st)
                  (l_bus st (inp + i)%Z))]) by reflexivity.
    assert (Ebus1 : forall j, j <> (out + i)%Z -> l_bus st1 j = l_bus st j).
    { intros j Hj. unfold st1, sampleBody. cbn [l_bus].
      destruct replace; apply store_other; exact Hj. }
    split.
    + intros j Hj. rewrite Hout by lia. apply Ebus1. lia.
    + intros m Hm. destruct m as [| m'].
      * rewrite Hout by lia.
        rewrite Emore, Eouts1, <- app_assoc, Nat.add_0_r, Z.add_0_r.
        cbn [app]. rewrite nth_middle.
        unfold st1, sampleBody. cbn [l_bus].
        destruct replace; apply store_same.
      * replace (out + i + Z.of_nat (S m'))%Z with (out + (i + 1) + Z.of_nat m')%Z by lia.
        rewrite Hin by lia.
        rewrite Eouts1, length_app. cbn [length].
        replace (length (l_outs st) + 1 + m')%nat with (length (l_outs st) + S m')%nat by lia.
        rewrite Ebus1 by lia. reflexivity.
Qed.

(** X9: [step] writes the output bus and nothing else.  Every bus sample
    outside the [numFrames] samples of the output bus is left as it was,
    the input and CV buses included when they are other buses; sample [m]
    of the output bus receives output [m] in replace mode and its old value
    plus output [m] in add mode, also when input and output are the same
    bus. *)
Theorem step_bus_writes (sampleRate : Z) (v : Param -> Z) (dtc : DTC)
    (busFrames : Bus) (numFramesBy4 : Z) :
  let numFrames := (numFramesBy4 * 4)%Z in
  let out := ((v kParamOutput - 1) * numFrames)%Z in
  let r := step sampleRate v dtc busFrames numFramesBy4 in
  length (l_outs r) = Z.to_nat numFrames /\
  (forall j : Z, ~ (out <= j < out + numFrames)%Z -> l_bus r j = busFrames j) /\
  (forall m : nat, (m < Z.to_nat numFrames)%nat ->
     l_bus r (out + Z.of_nat m)%Z =
       if negb (v kParamOutputMode =? 0)%Z then nth m (l_outs r) NaN
       else (busFrames (out + Z.of_nat m)%Z + nth m (l_outs r) NaN)%float).
Proof.
  cbv zeta. unfold step, blockLoop. cbn [l_outs l_bus].
  match goal with
  | |- context [sampleLoop ?n ?a ?b ?c ?d ?e ?f ?g ?i ?st] =>
      destruct (sampleLoop_bus n a b c d e f g i st) as [Hout Hin];
      pose proof (sampleLoop_outs_length n a b c d e f g i st) as Hlen
  end.
  cbv zeta in Hin. cbn [l_bus l_outs length] in *.
  split; [exact Hlen |]. split.
  - intros j Hj. apply Hout. lia.
  - intros m Hm. specialize (Hin m Hm).
    rewrite Z.add_0_r in Hin. exact Hin.
Qed.

Lemma step_bus_writes_witness :
  l_bus (step 48000 demoParams (construct 48000) (fun i => of_int i) 1) 100%Z =
    of_int 100 /\
  l_bus (step 48000 demoParams (construct 48000) (fun i => of_int i) 1) (4 + Z.of_nat 1)%Z =
    (of_int (4 + Z.of_nat 1) +
     nth 1 (l_outs (step 48000 demoParams (construct 48000) (fun i => of_int i) 1)) NaN)%float.
Proof.
  pose proof (step_bus_writes 48000 demoParams (construct 48000) (fun i => of_int i) 1)
    as H.
  cbv zeta in H. destruct H as (_ & Hout & Hin).
  split.
  - apply Hout. cbn. lia.
  - apply (Hin 1%nat). cbn. lia.
Defined.

(** ** The first block after construction *)

(** X10: [construct] initialises the smoothed values and the coefficients to
    what [step] computes for the default parameter values (cutoff 1000,
    resonance 0, CV amounts 100%, AGR 50%, drive 0, 2x oversampling, no CV
    bus): the first block with these values starts settled, without
    parameter glide, on the coefficients of the constructor. *)
Theorem first_block_is_settled (sampleRate : Z) (v : Param -> Z)
    (busFrames : Bus) (numFrames : Z) :
  v kParamCutoff = 1000%Z -> v kParamResonance = 0%Z ->
  v kParamCvCutoff = 0%Z -> v kParamCvResonance = 0%Z ->
  v kParamCvCutoffAmt = 1000%Z -> v kParamCvResonanceAmt = 1000%Z ->
  v kParamInputAGR = 500%Z -> v kParamDrive = 0%Z -> v kParamOversample = 1%Z ->
  prepareBlock sampleRate v (construct sampleRate) busFrames numFrames =
    construct sampleRate.
Proof.
  intros H1 H2 H3 H4 H5 H6 H7 H8 H9.
  unfold prepareBlock. rewrite H1, H2, H3, H4, H5, H6, H7, H8, H9.
  change (0 >? 0)%Z with false. cbv iota.
  change (Z.shiftl 1 1) with 2%Z.
  assert (E1 : smooth (driveSmooth (construct sampleRate)) (#1 + of_int 0 / #250)%float = #1).
  { change (driveSmooth (construct sampleRate)) with #1.
    unfold of_int. rewrite div_fin, add_fin, smooth_fin by lra. fin_eq. }
  assert (E2 : smooth (agrSmooth (construct sampleRate)) (of_int 500 / #10)%float = #50).
  { change (agrSmooth (construct sampleRate)) with #50.
    unfold of_int. rewrite div_fin, smooth_fin by lra. fin_eq. }
  assert (E3 : smooth (cvCutoffAmtSmooth (construct sampleRate)) (of_int 1000 / #1000)%float = #1).
  { change (cvCutoffAmtSmooth (construct sampleRate)) with #1.
    unfold of_int. rewrite div_fin, smooth_fin by lra. fin_eq. }
  assert (E4 : smooth (cvResAmtSmooth (construct sampleRate)) (of_int 1000 / #1000)%float = #1).
  { change (cvResAmtSmooth (construct sampleRate)) with #1.
    unfold of_int. rewrite div_fin, smooth_fin by lra. fin_eq. }
  assert (E5 : smooth (cutoffSmooth (construct sampleRate)) (of_int 1000) = #1000).
  { change (cutoffSmooth (construct sampleRate)) with #1000.
    unfold of_int. rewrite smooth_fin. fin_eq. }
  assert (E6 : smooth (resonanceSmooth (construct sampleRate)) (of_int 0 / #1000)%float = #0).
  { change (resonanceSmooth (construct sampleRate)) with #0.
    unfold of_int. rewrite div_fin, smooth_fin by lra. fin_eq. }
  cbv zeta. rewrite E1, E2, E3, E4, E5, E6.
  reflexivity.
Qed.

Lemma first_block_is_settled_witness :
  prepareBlock 48000 defaultParams (construct 48000) (fun _ => #0) 4 =
    construct 48000.
Proof.
  apply (first_block_is_settled 48000 defaultParams (fun _ => #0) 4); reflexivity.
Defined.

(** ** Symmetry of the tanh approximation *)

Lemma binary_round_aux_opp (s : bool) (m e : Z) (l : location) :
  binary_round_aux Binary32.prec Binary32.emax (negb s) m e l =
  SFopp (binary_round_aux Binary32.prec Binary32.emax s m e l).
Proof.
  unfold binary_round_aux.
  destruct (shr_fexp _ _ m e l) as [mrs' e'].
  destruct (shr_fexp _ _ _ e' loc_Exact) as [mrs'' e''].
  destruct (shr_m mrs''); try reflexivity.
  destruct (Z.leb _ _); reflexivity.
Qed.

Lemma mul32_neg_l (x y : spec_float) :
  Binary32.mul (Binary32.neg x) y = Binary32.neg (Binary32.mul x y).
Proof.
  destruct x as [s | s | | s m e], y as [t | t | | t n f]; cbn; try reflexivity;
    try (destruct s, t; reflexivity).
  rewrite <- binary_round_aux_opp. f_equal. destruct s, t; reflexivity.
Qed.

Lemma mul32_neg_r (x y : spec_float) :
  Binary32.mul x (Binary32.neg y) = Binary32.neg (Binary32.mul x y).
Proof.
  destruct x as [s | s | | s m e], y as [t | t | | t n f]; cbn; try reflexivity;
    try (destruct s, t; reflexivity).
  rewrite <- binary_round_aux_opp. f_equal. destruct s, t; reflexivity.
Qed.

Lemma div32_neg_l (x y : spec_float) :
  Binary32.div (Binary32.neg x) y = Binary32.neg (Binary32.div x y).
Proof.
  destruct x as [s | s | | s m e], y as [t | t | | t n f]; cbn; try reflexivity;
    try (destruct s, t; reflexivity).
  destruct (SFdiv_core_binary _ _ _ _ _ _) as [[mz ez] lz].
  rewrite <- binary_round_aux_opp. f_equal. destruct s, t; reflexivity.
Qed.

Lemma neg32_neg (x : spec_float) : Binary32.neg (Binary32.neg x) = x.
Proof. destruct x as [s | s | | s m e]; cbn; rewrite ?negb_involutive; reflexivity. Qed.

Lemma SFcompare_opp (x y : spec_float) :
  SFcompare (SFopp x) (SFopp y) = SFcompare y x.
Proof.
  destruct x as [s | s | | s m e], y as [t | t | | t n f]; cbn; try reflexivity;
    try (destruct s; reflexivity); try (destruct t; reflexivity);
    try (destruct s, t; reflexivity).
  destruct s, t; cbn; try reflexivity.
  - rewrite (Z.compare_antisym e f). destruct (e ?= f)%Z; cbn; try reflexivity.
    rewrite (Pos.compare_cont_antisym n m Eq). reflexivity.
  - rewrite (Z.compare_antisym e f). destruct (e ?= f)%Z; cbn; try reflexivity.
    rewrite (Pos.compare_cont_antisym m n Eq). reflexivity.
Qed.

Lemma SFltb_opp (x y : spec_float) :
  SFltb (Binary32.neg x) (Binary32.neg y) = SFltb y x.
Proof. unfold Binary32.neg, SFltb. rewrite SFcompare_opp. reflexivity. Qed.

(** X11: [fastTanh] is an odd function in single precision, bit for bit:
    on every value, the zeros, the infinities and NaN included, negating
    the argument negates the result. *)
Theorem fastTanh_odd (x : spec_float) :
  fastTanh32 (Binary32.neg x) = Binary32.neg (fastTanh32 x).
Proof.
  unfold fastTanh32, Binary32.gt, Binary32.lt.
  assert (E2 : Binary32.mul (Binary32.neg x) (Binary32.neg x) = Binary32.mul x x)
    by (rewrite mul32_neg_l, mul32_neg_r; apply neg32_neg).
  rewrite E2, mul32_neg_l, div32_neg_l, SFltb_opp.
  rewrite <- (neg32_neg (Binary32.of_int 3)) at 1. rewrite SFltb_opp.
  destruct (SFltb (Binary32.of_int 3) x) eqn:Hhi;
    destruct (SFltb x (Binary32.neg (Binary32.of_int 3))) eqn:Hlo;
    try reflexivity.
  exfalso.
  destruct x as [s | s | | s m e]; try discriminate;
    destruct s; first [discriminate | cbv in Hhi; discriminate | cbv in Hlo; discriminate].
Qed.

(** ** Constant signals *)

Lemma accumulate_dc (mode : Z) (a u l b h : R) :
  l = u -> b = 0 -> h = 0 ->
  accumulate mode #a #l #b #h = #(a + dcGain mode * u).
Proof.
  intros -> -> ->.
  destruct mode as [| [[| |] | [| |] |] |]; cbn [accumulate dcGain];
    rewrite ?sub_fin, ?add_fin; fin_eq.
Qed.

Lemma osBody_dc (mode model : Z) (input resAmt : float) (d : DTC)
    (gv kv gi u a : R) :
  g d = #gv -> k d = #kv -> gInv d = #gi ->
  lp d = #u -> bp d = #0 -> hp d = #0 ->
  preSaturate model input resAmt = #u -> Rabs u <= 5 ->
  osBody mode model input resAmt (d, #a) = (d, #(a + dcGain mode * u)).
Proof.
  intros Eg Ek Egi Elp Ebp Ehp Eu Hu.
  assert (Hu' : -5 <= u <= 5) by (unfold Rabs in Hu; destruct (Rcase_abs u); lra).
  cbn [osBody]. rewrite Eg, Ek, Egi, Elp, Ebp, Eu.
  rewrite !mul_fin, !sub_fin, !mul_fin, !add_fin, !mul_fin, !add_fin.
  replace ((u - kv * 0 - u) * gi) with 0 by ring.
  replace (gv * 0 + 0) with 0 by ring.
  replace (gv * 0 + u) with u by ring.
  unfold softClamp. rewrite !gt_fin, !neg_fin, !lt_fin.
  rewrite !Rltb_false by lra.
  rewrite !sanitize_fin_keep by lra.
  f_equal.
  - destruct d. cbn in *. subst. reflexivity.
  - apply accumulate_dc; reflexivity.
Qed.

(** X12: A constant signal is a fixed point of the filter core.  When the
    saturated input is the constant [u] (within the clamp) and the state is
    [lp = u], [bp = 0], [hp = 0], every oversampling pass leaves the state
    as it is, for any finite coefficients; the passes add [u] to the
    accumulator in the lowpass and all-pass modes and nothing in the
    bandpass and highpass modes. *)
Theorem dc_steady_state (mode model : Z) (input resAmt : float) (d : DTC)
    (gv kv gi u : R) :
  g d = #gv -> k d = #kv -> gInv d = #gi ->
  lp d = #u -> bp d = #0 -> hp d = #0 ->
  preSaturate model input resAmt = #u -> Rabs u <= 5 ->
  forall (n : nat) (a : R),
    osLoop n mode model input resAmt (d, #a) =
      (d, #(a + INR n * (dcGain mode * u))).
Proof.
  intros Eg Ek Egi Elp Ebp Ehp Eu Hu.
  induction n as [| n IH]; intros a.
  - cbn [osLoop INR]. f_equal. fin_eq.
  - cbn [osLoop].
    rewrite (osBody_dc mode model input resAmt d gv kv gi u a) by assumption.
    rewrite IH. f_equal. f_equal. rewrite S_INR. ring.
Qed.

Lemma dc_steady_state_witness :
  osLoop 4 0 0 #1 #0
    (mkDTC #(7 / 9) #0 #0 #1 #2 #0.25 #1000 #0 #1 #50 #1 #1 0x12345678 #0 #0, #0) =
  (mkDTC #(7 / 9) #0 #0 #1 #2 #0.25 #1000 #0 #1 #50 #1 #1 0x12345678 #0 #0,
   #(0 + INR 4 * (dcGain 0 * (7 / 9)))).
Proof.
  apply (dc_steady_state 0 0 #1 #0 _ 1 2 0.25 (7 / 9)); try reflexivity.
  - cbn [preSaturate]. rewrite add_fin, mul_fin, fastTanh_mid by lra. fin_eq.
  - rewrite Rabs_pos_eq; lra.
Defined.

(** ** The generator does not merge states *)

Lemma land_lxor_distr_r (a b c : Z) :
  Z.land (Z.lxor a b) c = Z.lxor (Z.land a c) (Z.land b c).
Proof.
  apply Z.bits_inj'. intros n Hn.
  rewrite Z.land_spec, !Z.lxor_spec, !Z.land_spec.
  destruct (Z.testbit a n), (Z.testbit b n), (Z.testbit c n); reflexivity.
Qed.

Lemma wrap32_land (z : Z) : wrap32 z = Z.land z (Z.ones 32).
Proof. unfold wrap32. rewrite Z.land_ones by lia. reflexivity. Qed.

Lemma xor_shiftl_linear (x y a : Z) :
  Z.lxor (Z.lxor x (wrap32 (Z.shiftl x a))) (Z.lxor y (wrap32 (Z.shiftl y a))) =
  Z.lxor (Z.lxor x y) (wrap32 (Z.shiftl (Z.lxor x y) a)).
Proof.
  rewrite !wrap32_land, Z.shiftl_lxor, land_lxor_distr_r.
  apply Z.bits_inj'. intros n Hn. rewrite !Z.lxor_spec.
  destruct (Z.testbit x n), (Z.testbit y n),
    (Z.testbit (Z.land (Z.shiftl x a) (Z.ones 32)) n),
    (Z.testbit (Z.land (Z.shiftl y a) (Z.ones 32)) n); reflexivity.
Qed.

Lemma xor_shiftr_linear (x y a : Z) :
  Z.lxor (Z.lxor x (Z.shiftr x a)) (Z.lxor y (Z.shiftr y a)) =
  Z.lxor (Z.lxor x y) (Z.shiftr (Z.lxor x y) a).
Proof.
  rewrite Z.shiftr_lxor.
  apply Z.bits_inj'. intros n Hn. rewrite !Z.lxor_spec.
  destruct (Z.testbit x n), (Z.testbit y n),
    (Z.testbit (Z.shiftr x a) n), (Z.testbit (Z.shiftr y a) n); reflexivity.
Qed.

Lemma xor_shiftl_injective (x y a : Z) :
  (0 < a)%Z -> Z.gcd (2 ^ 32) (2 ^ a - 1) = 1%Z -> u32 x -> u32 y ->
  Z.lxor x (wrap32 (Z.shiftl x a)) = Z.lxor y (wrap32 (Z.shiftl y a)) -> x = y.
Proof.
  intros Ha Hg Hx Hy E.
  apply Z.lxor_eq.
  destruct (Z.eq_dec (Z.lxor x y) 0) as [H0 | Hn]; [exact H0 | exfalso].
  apply (xor_shiftl_nonzero (Z.lxor x y) a Ha Hg (lxor_u32 x y Hx Hy) Hn).
  rewrite <- xor_shiftl_linear, E. apply Z.lxor_nilpotent.
Qed.

Lemma xor_shiftr_injective (x y a : Z) :
  (0 < a)%Z -> u32 x -> u32 y ->
  Z.lxor x (Z.shiftr x a) = Z.lxor y (Z.shiftr y a) -> x = y.
Proof.
  intros Ha Hx Hy E.
  apply Z.lxor_eq.
  destruct (Z.eq_dec (Z.lxor x y) 0) as [H0 | Hn]; [exact H0 | exfalso].
  apply (xor_shiftr_nonzero (Z.lxor x y) a Ha (lxor_u32 x y Hx Hy) Hn).
  rewrite <- xor_shiftr_linear, E. apply Z.lxor_nilpotent.
Qed.

Lemma randomStateAfter_u32 (n : nat) (seed : Z) :
  u32 seed -> u32 (randomStateAfter n seed).
Proof.
  intros Hs. induction n as [| n IH]; [exact Hs |].
  unfold randomStateAfter in *. cbn [Nat.iter fastRandom snd].
  apply xorshift_u32. exact IH.
Qed.

(** X13: The state update of [fastRandom] is injective on 32-bit states: two
    different states never lead to the same next state, so the state
    sequence has no transient and, from any number of calls on, two
    generators agree only if they agreed from the start. *)
Theorem xorshift_injective :
  (forall x y : Z, u32 x -> u32 y ->
     snd (fastRandom x) = snd (fastRandom y) -> x = y) /\
  (forall (n : nat) (x y : Z), u32 x -> u32 y ->
     randomStateAfter n x = randomStateAfter n y -> x = y).
Proof.
  assert (Hinj : forall x y : Z, u32 x -> u32 y -> xorshift x = xorshift y -> x = y).
  { intros x y Hx Hy E. unfold xorshift in E.
    set (x1 := Z.lxor x (wrap32 (Z.shiftl x 13))) in *.
    set (y1 := Z.lxor y (wrap32 (Z.shiftl y 13))) in *.
    assert (Ux1 : u32 x1) by (apply lxor_u32; [assumption | apply wrap32_u32]).
    assert (Uy1 : u32 y1) by (apply lxor_u32; [assumption | apply wrap32_u32]).
    set (x2 := Z.lxor x1 (Z.shiftr x1 17)) in *.
    set (y2 := Z.lxor y1 (Z.shiftr y1 17)) in *.
    assert (Ux2 : u32 x2) by (apply lxor_u32; [assumption | apply shiftr_u32; [lia | assumption]]).
    assert (Uy2 : u32 y2) by (apply lxor_u32; [assumption | apply shiftr_u32; [lia | assumption]]).
    apply xor_shiftl_injective in E; [| lia | reflexivity | assumption | assumption].
    apply xor_shiftr_injective in E; [| lia | assumption | assumption].
    apply xor_shiftl_injective in E; [| lia | reflexivity | assumption | assumption].
    exact E. }
  split; [exact Hinj |].
  induction n as [| n IH]; intros x y Hx Hy E.
  - exact E.
  - unfold randomStateAfter in *. cbn [Nat.iter] in E.
    apply Hinj in E.
    + apply IH; assumption.
    + apply (randomStateAfter_u32 n x Hx).
    + apply (randomStateAfter_u32 n y Hy).
Qed.

Lemma xorshift_injective_witness : 0x12345678%Z = 0x12345678%Z.
Proof.
  apply (proj1 xorshift_injective); [unfold u32; lia | unfold u32; lia | reflexivity].
Defined.

(** ** Custom UI *)

Lemma pot_scaled_range (x : float) :
  potPosition x -> (0 <= to_int (x * #1000)%float <= 1000)%Z.
Proof.
  intros (r & -> & Hr). rewrite mul_fin.
  apply (to_int_range (r * 1000) 0 1000 0 1000); [lra | lia | unfold INT_MAX; lia].
Qed.

Lemma selector_wrap_range (cur delta top : Z) :
  (0 <= top)%Z ->
  let m := (cur + delta)%Z in
  let m := if (m <? 0)%Z then top else m in
  let m := if (m >? top)%Z then 0%Z else m in
  (0 <= m <= top)%Z.
Proof.
  intros Ht. cbv zeta.
  destruct (Z.ltb_spec (cur + delta) 0);
    match goal with |- context [(?a >? ?b)%Z] => destruct (Z.gtb_spec a b) end; lia.
Qed.

(** X14: Whatever the pots, encoders and current parameter values, [customUi]
    sets Mode within 0..3, Model within 0..2 and Cutoff within 20..20000,
    and sets nothing when no control moved; with the pots at positions in
    [0, 1] every value it sets lies in the declared range of its
    parameter.  One encoder click from a valid selector steps cyclically:
    up from the last entry gives the first, down from the first gives the
    last. *)
Theorem customUi_in_range (v : Param -> Z) (data : UiData) :
  Forall (fun w => match fst w with
                   | kParamInputAGR | kParamResonance => True
                   | _ => writeInRange w
                   end) (customUi v data) /\
  (potPosition (pots0 data) -> potPosition (pots2 data) ->
   Forall writeInRange (customUi v data)) /\
  (potL_changed data = false -> potC_changed data = false ->
   potR_changed data = false -> encoders0 data = 0%Z -> encoders1 data = 0%Z ->
   customUi v data = []) /\
  ((0 <= v kParamMode <= 3)%Z -> (encoders0 data = 1 \/ encoders0 data = -1)%Z ->
   In (kParamMode, ((v kParamMode + encoders0 data) mod 4)%Z) (customUi v data)) /\
  ((0 <= v kParamModel <= 2)%Z -> (encoders1 data = 1 \/ encoders1 data = -1)%Z ->
   In (kParamModel, ((v kParamModel + encoders1 data) mod 3)%Z) (customUi v data)).
Proof.
  assert (Hcut : forall z : Z,
            (20 <= (if ((if (z >? 20000)%Z then 20000%Z else z) <? 20)%Z then 20%Z
                    else (if (z >? 20000)%Z then 20000%Z else z)) <= 20000)%Z).
  { intros z. destruct (Z.gtb_spec z 20000);
      match goal with |- context [(?a <? ?b)%Z] => destruct (Z.ltb_spec a b) end; lia. }
  pose proof (selector_wrap_range (v kParamMode) (encoders0 data) 3 ltac:(lia)) as Hmode.
  pose proof (selector_wrap_range (v kParamModel) (encoders1 data) 2 ltac:(lia)) as Hmodel.
  cbv zeta in Hmode, Hmodel.
  unfold customUi. cbv zeta.
  split; [| split; [| split; [| split]]].
  - repeat (apply Forall_app; split);
      match goal with |- Forall _ (if ?c then _ else _) => destruct c end;
      try apply Forall_nil; (apply Forall_cons; [| apply Forall_nil]);
      unfold writeInRange; cbn [fst snd];
      first [exact I | apply Hcut | exact Hmode | exact Hmodel].
  - intros H0 H2.
    pose proof (pot_scaled_range _ H0) as R0. pose proof (pot_scaled_range _ H2) as R2.
    repeat (apply Forall_app; split);
      match goal with |- Forall _ (if ?c then _ else _) => destruct c end;
      try apply Forall_nil; (apply Forall_cons; [| apply Forall_nil]);
      unfold writeInRange; cbn [fst snd];
      first [exact R0 | exact R2 | apply Hcut | exact Hmode | exact Hmodel].
  - intros -> -> -> -> ->. reflexivity.
  - intros Hm He.
    assert (E0 : negb (encoders0 data =? 0)%Z = true)
      by (apply negb_true_iff, Z.eqb_neq; lia).
    rewrite E0.
    apply in_or_app; right. apply in_or_app; right. apply in_or_app; right.
    apply in_or_app; left. left. f_equal.
    destruct He as [-> | ->].
    + destruct (Z.ltb_spec (v kParamMode + 1) 0); [lia |].
      destruct (Z.gtb_spec (v kParamMode + 1) 3).
      * replace (v kParamMode) with 3%Z by lia. reflexivity.
      * symmetry. apply Z.mod_small. lia.
    + destruct (Z.ltb_spec (v kParamMode + -1) 0).
      * replace (v kParamMode) with 0%Z by lia. reflexivity.
      * destruct (Z.gtb_spec (v kParamMode + -1) 3); [lia |].
        symmetry. apply Z.mod_small. lia.
  - intros Hm He.
    assert (E1 : negb (encoders1 data =? 0)%Z = true)
      by (apply negb_true_iff, Z.eqb_neq; lia).
    rewrite E1.
    apply in_or_app; right. apply in_or_app; right. apply in_or_app; right.
    apply in_or_app; right. left. f_equal.
    destruct He as [-> | ->].
    + destruct (Z.ltb_spec (v kParamModel + 1) 0); [lia |].
      destruct (Z.gtb_spec (v kParamModel + 1) 2).
      * replace (v kParamModel) with 2%Z by lia. reflexivity.
      * symmetry. apply Z.mod_small. lia.
    + destruct (Z.ltb_spec (v kParamModel + -1) 0).
      * replace (v kParamModel) with 0%Z by lia. reflexivity.
      * destruct (Z.gtb_spec (v kParamModel + -1) 2); [lia |].
        symmetry. apply Z.mod_small. lia.
Qed.

Lemma customUi_in_range_witness :
  Forall writeInRange (customUi demoParams demoUiData) /\
  In (kParamMode, ((demoParams kParamMode + encoders0 demoUiData) mod 4)%Z)
     (customUi demoParams demoUiData).
Proof.
  split.
  - apply (proj1 (proj2 (customUi_in_range demoParams demoUiData))).
    + exists 0.5. split; [reflexivity | lra].
    + exists 0.5. split; [reflexivity | lra].
  - apply (proj1 (proj2 (proj2 (proj2 (customUi_in_range demoParams demoUiData))))).
    + cbn. lia.
    + left. reflexivity.
Defined.

Lemma ln_10_pos : 0 < ln 10.
Proof. rewrite <- ln_1. apply ln_increasing; lra. Qed.

Lemma ln_1000 : ln 1000 = 3 * ln 10.
Proof.
  replace 1000 with (10 ^ 3) by (simpl; lra).
  rewrite ln_pow by lra. simpl. ring.
Qed.

Lemma ln_le_compat (x y : R) : 0 < x -> x <= y -> ln x <= ln y.
Proof.
  intros Hx [H | ->]; [left; apply ln_increasing; assumption | right; reflexivity].
Qed.

(** X15: For parameter values inside their declared ranges, [setupUi] places
    all three pots at finite positions in [0, 1]: the AGR and resonance
    pots at a thousandth of the parameter, the cutoff pot at
    [log10 (cutoff / 20) / 3], which neither clamp then changes. *)
Theorem setupUi_pots (v : Param -> Z) :
  paramsInRange v ->
  fst (fst (setupUi v)) = #(IZR (v kParamInputAGR) / 1000) /\
  snd (fst (setupUi v)) = #(ln (IZR (v kParamCutoff) / 20) / ln 10 / 3) /\
  snd (setupUi v) = #(IZR (v kParamResonance) / 1000) /\
  potPosition (fst (fst (setupUi v))) /\
  potPosition (snd (fst (setupUi v))) /\
  potPosition (snd (setupUi v)).
Proof.
  intros (Hcut & Hres & _ & _ & _ & _ & Hagr & _).
  destruct Hcut as [Hc1 Hc2]. apply IZR_le in Hc1, Hc2.
  destruct Hres as [Hr1 Hr2]. apply IZR_le in Hr1, Hr2.
  destruct Hagr as [Ha1 Ha2]. apply IZR_le in Ha1, Ha2.
  set (q := IZR (v kParamCutoff) / 20).
  assert (Hq : 1 <= q <= 1000) by (unfold q; lra).
  pose proof ln_10_pos as H10.
  assert (Hl0 : 0 <= ln q) by (rewrite <- ln_1; apply ln_le_compat; lra).
  assert (Hl1 : ln q <= 3 * ln 10) by (rewrite <- ln_1000; apply ln_le_compat; lra).
  assert (Hp : 0 <= ln q / ln 10 / 3 <= 1).
  { split.
    - apply Rmult_le_pos; [| lra].
      apply Rmult_le_pos; [exact Hl0 | left; apply Rinv_0_lt_compat; exact H10].
    - apply div_le_1; [lra |]. apply Rmult_le_reg_r with (ln 10); [exact H10 |].
      unfold Rdiv. rewrite Rmult_assoc, Rinv_l by lra. lra. }
  assert (E1 : snd (fst (setupUi v)) = #(ln q / ln 10 / 3)).
  { unfold setupUi, of_int. cbn [fst snd]. rewrite div_fin by lra. fold q.
    unfold log10f. rewrite Rltb_true by lra. rewrite div_fin by lra.
    rewrite lt_fin, Rltb_false by lra. rewrite gt_fin, Rltb_false by lra.
    reflexivity. }
  assert (E0 : fst (fst (setupUi v)) = #(IZR (v kParamInputAGR) / 1000)).
  { unfold setupUi, of_int. cbn [fst snd]. rewrite div_fin by lra. reflexivity. }
  assert (E2 : snd (setupUi v) = #(IZR (v kParamResonance) / 1000)).
  { unfold setupUi, of_int. cbn [fst snd]. rewrite div_fin by lra. reflexivity. }
  split; [exact E0 |]. split; [exact E1 |]. split; [exact E2 |].
  rewrite E0, E1, E2.
  split; [| split]; eexists; (split; [reflexivity |]); lra.
Qed.

Lemma setupUi_pots_witness :
  fst (fst (setupUi demoParams)) = #(IZR (demoParams kParamInputAGR) / 1000) /\
  snd (fst (setupUi demoParams)) = #(ln (IZR (demoParams kParamCutoff) / 20) / ln 10 / 3) /\
  snd (setupUi demoParams) = #(IZR (demoParams kParamResonance) / 1000) /\
  potPosition (fst (fst (setupUi demoParams))) /\
  potPosition (snd (fst (setupUi demoParams))) /\
  potPosition (snd (setupUi demoParams)).
Proof. apply (setupUi_pots demoParams). unfold paramsInRange. cbn. lia. Defined.

(** ** The mode selects an output, nothing else *)

Lemma processSample_any_mode (mode1 mode2 model oversample : Z) (resAmt : float)
    (dtc : DTC) (x : float) :
  s_dtc (processSample mode1 model oversample resAmt dtc x) =
    s_dtc (processSample mode2 model oversample resAmt dtc x) /\
  s_gain (processSample mode1 model oversample resAmt dtc x) =
    s_gain (processSample mode2 model oversample resAmt dtc x) /\
  s_input (processSample mode1 model oversample resAmt dtc x) =
    s_input (processSample mode2 model oversample resAmt dtc x).
Proof.
  rewrite !processSample_eq. cbn [s_dtc s_gain s_input].
  split; [apply osLoop_state_any_mode |]. split; reflexivity.
Qed.

Lemma sampleLoop_any_mode (n : nat) (model oversample : Z) (resAmt : float)
    (a numFrames : Z) :
  forall (mode1 mode2 b1 b2 : Z) (rep1 rep2 : bool) (i : Z) (st1 st2 : LoopState),
    (0 <= i)%Z -> (i + Z.of_nat n <= numFrames)%Z ->
    l_dtc st1 = l_dtc st2 -> l_maxIn st1 = l_maxIn st2 -> l_gains st1 = l_gains st2 ->
    (forall j, (i <= j < numFrames)%Z ->
       l_bus st1 (a * numFrames + j)%Z = l_bus st2 (a * numFrames + j)%Z) ->
    let r1 := sampleLoop n mode1 model oversample resAmt
                (a * numFrames) (b1 * numFrames) rep1 i st1 in
    let r2 := sampleLoop n mode2 model oversample resAmt
                (a * numFrames) (b2 * numFrames) rep2 i st2 in
    l_dtc r1 = l_dtc r2 /\ l_maxIn r1 = l_maxIn r2 /\ l_gains r1 = l_gains r2.
Proof.
  induction n as [| n IH]; intros mode1 mode2 b1 b2 rep1 rep2 i st1 st2
    Hi Hn Hd Hm Hg Hbus; cbv zeta.
  - repeat split; assumption.
  - cbn [sampleLoop]. apply IH; try lia.
    + cbn [sampleBody l_dtc]. rewrite Hd, (Hbus i) by lia.
      apply processSample_any_mode.
    + cbn [sampleBody l_maxIn]. rewrite Hd, Hm, (Hbus i) by lia.
      destruct (processSample_any_mode mode1 mode2 model oversample resAmt
                  (l_dtc st2) (l_bus st2 (a * numFrames + i)%Z)) as (_ & _ & E).
      rewrite E. reflexivity.
    + cbn [sampleBody l_gains]. rewrite Hd, Hg, (Hbus i) by lia.
      destruct (processSample_any_mode mode1 mode2 model oversample resAmt
                  (l_dtc st2) (l_bus st2 (a * numFrames + i)%Z)) as (_ & E & _).
      rewrite E. reflexivity.
    + intros j Hj. cbn [sampleBody l_bus].
      assert (N1 : (a * numFrames + j <> b1 * numFrames + i)%Z)
        by (apply bus_no_overlap; lia).
      assert (N2 : (a * numFrames + j <> b2 * numFrames + i)%Z)
        by (apply bus_no_overlap; lia).
      destruct rep1, rep2; rewrite !store_other by assumption; apply Hbus; lia.
Qed.

Lemma prepareBlock_sameButOutput (sampleRate : Z) (v1 v2 : Param -> Z) (dtc : DTC)
    (busFrames : Bus) (numFrames : Z) :
  sameButOutput v1 v2 ->
  prepareBlock sampleRate v1 dtc busFrames numFrames =
  prepareBlock sampleRate v2 dtc busFrames numFrames.
Proof.
  intros H. unfold prepareBlock.
  rewrite (H kParamCvCutoff), (H kParamCvResonance), (H kParamCutoff),
    (H kParamResonance), (H kParamCvCutoffAmt), (H kParamCvResonanceAmt),
    (H kParamInputAGR), (H kParamDrive), (H kParamOversample) by discriminate.
  reflexivity.
Qed.

(** X16: The mode, the output bus and the output mode have no influence on the
    filter: two calls of [step] from the same state on the same bus memory,
    with parameters that differ only in these three, end with the same
    filter state, coefficients, smoothed values, random state and input
    level, and apply the same gains; only the output level and what is
    written to the bus can differ.  Switching the mode therefore never
    disturbs the filter state. *)
Theorem mode_does_not_affect_state (sampleRate : Z) (v1 v2 : Param -> Z)
    (dtc : DTC) (busFrames : Bus) (numFramesBy4 : Z) :
  sameButOutput v1 v2 ->
  let r1 := step sampleRate v1 dtc busFrames numFramesBy4 in
  let r2 := step sampleRate v2 dtc busFrames numFramesBy4 in
  set_levels (l_dtc r1) (inputLevel (l_dtc r1)) #0 =
    set_levels (l_dtc r2) (inputLevel (l_dtc r2)) #0 /\
  l_gains r1 = l_gains r2 /\ l_maxIn r1 = l_maxIn r2.
Proof.
  intros H. cbv zeta. unfold step, blockLoop. cbn [l_dtc l_gains l_maxIn].
  rewrite (prepareBlock_sameButOutput sampleRate v1 v2 dtc busFrames _ H).
  rewrite (H kParamModel), (H kParamOversample), (H kParamInput) by discriminate.
  set (d0 := prepareBlock sampleRate v2 dtc busFrames (numFramesBy4 * 4)).
  set (numFrames := (numFramesBy4 * 4)%Z).
  assert (Hloop :
    forall n, (Z.of_nat n <= numFrames)%Z \/ n = 0%nat ->
    let r1 := sampleLoop n (v1 kParamMode) (v2 kParamModel)
                (Z.shiftl 1 (v2 kParamOversample)) (resonanceAmount d0)
                ((v2 kParamInput - 1) * numFrames) ((v1 kParamOutput - 1) * numFrames)
                (negb (v1 kParamOutputMode =? 0)%Z) 0
                (mkLoop d0 busFrames #0 #0 [] []) in
    let r2 := sampleLoop n (v2 kParamMode) (v2 kParamModel)
                (Z.shiftl 1 (v2 kParamOversample)) (resonanceAmount d0)
                ((v2 kParamInput - 1) * numFrames) ((v2 kParamOutput - 1) * numFrames)
                (negb (v2 kParamOutputMode =? 0)%Z) 0
                (mkLoop d0 busFrames #0 #0 [] []) in
    l_dtc r1 = l_dtc r2 /\ l_maxIn r1 = l_maxIn r2 /\ l_gains r1 = l_gains r2).
  { intros n [Hn | ->].
    - apply sampleLoop_any_mode; try reflexivity; lia.
    - cbv zeta. cbn [sampleLoop]. repeat split. }
  destruct (Hloop (Z.to_nat numFrames) ltac:(lia)) as (E1 & E2 & E3).
  cbv zeta in E1, E2, E3.
  rewrite E1, E2, E3. repeat split.
Qed.

Lemma mode_does_not_affect_state_witness :
  let v2 := fun p => match p with kParamMode => 2%Z | _ => demoParams p end in
  let r1 := step 48000 demoParams (construct 48000) (fun i => of_int i) 1 in
  let r2 := step 48000 v2 (construct 48000) (fun i => of_int i) 1 in
  set_levels (l_dtc r1) (inputLevel (l_dtc r1)) #0 =
    set_levels (l_dtc r2) (inputLevel (l_dtc r2)) #0 /\
  l_gains r1 = l_gains r2 /\ l_maxIn r1 = l_maxIn r2.
Proof.
  apply (mode_does_not_affect_state 48000 demoParams
           (fun p => match p with kParamMode => 2%Z | _ => demoParams p end)).
  intros p H1 H2 H3. destruct p; try reflexivity. contradiction.
Defined.

(** ** Sign of the diode curve *)

(** X18: [diodeClip] never changes the sign of its input and maps 0 to 0: a
    positive input gives a result in [0, 1], a negative one a result in
    [-0.5, 0]. *)
Theorem diodeClip_sign (x : R) :
  exists y, diodeClip #x = #y /\
    (0 < x -> 0 <= y <= 1) /\ (x = 0 -> y = 0) /\ (x < 0 -> -0.5 <= y <= 0).
Proof.
  destruct (Rlt_dec 0 x) as [H | H].
  - rewrite diodeClip_pos by assumption. eexists. split; [reflexivity |].
    pose proof (exp_pos (- x)).
    assert (exp (- x) < exp 0) by (apply exp_increasing; lra).
    rewrite exp_0 in *.
    split; [intros _; lra |]. split; intros; lra.
  - rewrite diodeClip_neg by lra. eexists. split; [reflexivity |].
    split; [intros; lra |]. split.
    + intros ->. rewrite Rmult_0_r, exp_0. lra.
    + intros Hx. pose proof (exp_pos (2 * x)).
      assert (exp (2 * x) < exp 0) by (apply exp_increasing; lra).
      rewrite exp_0 in *. lra.
Qed.

Lemma diodeClip_sign_witness :
  exists y, diodeClip #2 = #y /\ 0 <= y <= 1.
Proof.
  destruct (diodeClip_sign 2) as (y & E & Hpos & _).
  exists y. split; [exact E | apply Hpos; lra].
Defined.

(** ** The cutoff marker of the display *)

Lemma log10f_pos (r : R) : 0 < r -> log10f #r = #(ln r / ln 10).
Proof. intros H. unfold log10f. rewrite Rltb_true by assumption. reflexivity. Qed.

Lemma to_int_monotone (r r' : R) :
  0 <= r -> r <= r' -> (to_int #r <= to_int #r')%Z.
Proof.
  intros H0 Hle. unfold to_int, trunc.
  rewrite !Rltb_false by lra.
  destruct (base_Int_part r) as [Hb1 _]. destruct (base_Int_part r') as [_ Hb2].
  assert (H : (Int_part r <= Int_part r')%Z).
  { assert (Hlt : IZR (Int_part r) < IZR (Int_part r') + 1) by lra.
    rewrite <- plus_IZR in Hlt. apply lt_IZR in Hlt. lia. }
  unfold INT_MIN, INT_MAX. lia.
Qed.

Lemma drawPeakX_value (v : Param -> Z) :
  (0 < v kParamCutoff)%Z ->
  drawPeakX v =
    (100 + to_int #((ln (IZR (v kParamCutoff)) / ln 10 - ln 20 / ln 10) /
                    (ln 20000 / ln 10 - ln 20 / ln 10) * 140))%Z.
Proof.
  intros Hc. apply IZR_lt in Hc.
  assert (H1 : ln 20 < ln 20000) by (apply ln_increasing; lra).
  pose proof ln_10_pos as H10.
  assert (Hd : ln 20000 / ln 10 - ln 20 / ln 10 <> 0).
  { replace (ln 20000 / ln 10 - ln 20 / ln 10) with ((ln 20000 - ln 20) * / ln 10)
      by (field; lra).
    apply Rgt_not_eq. apply Rmult_lt_0_compat; [lra | apply Rinv_0_lt_compat; lra]. }
  unfold drawPeakX, of_int. cbv zeta.
  rewrite !log10f_pos by lra.
  rewrite !sub_fin, div_fin, mul_fin by exact Hd. reflexivity.
Qed.

(** X21: For a cutoff within its declared range 20..20000 the cutoff marker
    drawn by [draw] lies between x = 100 and x = 240, inside the plotted
    curve, and moves to the right, never to the left, when the cutoff is
    raised. *)
Theorem drawPeakX_on_screen (v v' : Param -> Z) :
  (20 <= v kParamCutoff)%Z -> (v kParamCutoff <= v' kParamCutoff)%Z ->
  (v' kParamCutoff <= 20000)%Z ->
  (100 <= drawPeakX v <= 240)%Z /\ (drawPeakX v <= drawPeakX v')%Z.
Proof.
  intros H1 H2 H3.
  rewrite !drawPeakX_value by lia.
  apply IZR_le in H1, H2, H3.
  pose proof ln_10_pos as H10.
  assert (L1 : ln 20 < ln 20000) by (apply ln_increasing; lra).
  assert (La : ln 20 <= ln (IZR (v kParamCutoff))) by (apply ln_le_compat; lra).
  assert (Lb : ln (IZR (v kParamCutoff)) <= ln (IZR (v' kParamCutoff)))
    by (apply ln_le_compat; lra).
  assert (Lc : ln (IZR (v' kParamCutoff)) <= ln 20000) by (apply ln_le_compat; lra).
  assert (E : forall c : R,
            (ln c / ln 10 - ln 20 / ln 10) / (ln 20000 / ln 10 - ln 20 / ln 10) * 140
            = (ln c - ln 20) / (ln 20000 - ln 20) * 140) by (intros c; field; lra).
  rewrite !E.
  assert (Hfrac : forall a b : R, ln 20 <= a -> a <= b -> b <= ln 20000 ->
            0 <= (a - ln 20) / (ln 20000 - ln 20) * 140 /\
            (a - ln 20) / (ln 20000 - ln 20) * 140 <= (b - ln 20) / (ln 20000 - ln 20) * 140 /\
            (b - ln 20) / (ln 20000 - ln 20) * 140 <= 140).
  { intros a b Ha Hab Hb.
    assert (Hi : 0 < / (ln 20000 - ln 20)) by (apply Rinv_0_lt_compat; lra).
    assert (Q1 : 0 <= (a - ln 20) / (ln 20000 - ln 20))
      by (apply Rmult_le_pos; lra).
    assert (Q2 : (a - ln 20) / (ln 20000 - ln 20) <= (b - ln 20) / (ln 20000 - ln 20))
      by (apply Rmult_le_compat_r; lra).
    assert (Q3 : (b - ln 20) / (ln 20000 - ln 20) <= 1)
      by (apply div_le_1; lra).
    lra. }
  destruct (Hfrac _ _ La Lb Lc) as (F1 & F2 & F3).
  destruct (Hfrac _ _ La (Rle_refl _) (Rle_trans _ _ _ Lb Lc)) as (_ & _ & F4).
  pose proof (to_int_range _ 0 140 0 140 (conj F1 F4) ltac:(lia)
                ltac:(unfold INT_MAX; lia)) as R1.
  pose proof (to_int_monotone _ _ F1 F2) as R2.
  lia.
Qed.

Lemma drawPeakX_on_screen_witness :
  (100 <= drawPeakX demoParams <= 240)%Z /\
  (drawPeakX demoParams <= drawPeakX defaultParams)%Z.
Proof. apply (drawPeakX_on_screen demoParams defaultParams); cbn; lia. Defined.

(** ** The randomizer in a run *)

(** One block of 4 frames with the AGR control at 0: the smoothed value
    loses a tenth, and the generator runs four times once the value is
    below 26. *)
Lemma step_agrZero (sampleRate : Z) (dtc : DTC) (a : R) :
  agrSmooth dtc = #a -> 0 <= a * 0.9 <= 100 ->
  let d' := l_dtc (step sampleRate (b_v agrZeroBlock) dtc (b_bus agrZeroBlock)
                     (b_numFramesBy4 agrZeroBlock)) in
  agrSmooth d' = #(a * 0.9) /\
  (26 <= a * 0.9 -> randState d' = randState dtc) /\
  (a * 0.9 < 26 -> randState d' = randomStateAfter 4 (randState dtc)).
Proof.
  intros Ha Hr. cbv zeta.
  destruct (step_drive_agr sampleRate (b_v agrZeroBlock) dtc (b_bus agrZeroBlock)
              (b_numFramesBy4 agrZeroBlock)) as [_ E].
  destruct (step_agrGains sampleRate (b_v agrZeroBlock) dtc (b_bus agrZeroBlock)
              (b_numFramesBy4 agrZeroBlock)) as [_ S].
  rewrite agrGains_state in S. unfold agrControl in S.
  assert (Es : smooth (agrSmooth dtc)
                 (of_int (b_v agrZeroBlock kParamInputAGR) / #10)%float = #(a * 0.9)).
  { rewrite Ha. cbn [b_v agrZeroBlock agrZeroParams]. unfold of_int.
    rewrite div_fin by lra. rewrite smooth_fin. f_equal. lra. }
  rewrite Es in E, S. split; [exact E |].
  change (Z.to_nat (b_numFramesBy4 agrZeroBlock * 4)) with 4%nat in S.
  split; intros H.
  - pose proof (to_int_range (a * 0.9) 26 100 26 100 ltac:(lra) ltac:(lia)
                  ltac:(unfold INT_MAX; lia)) as Hi.
    destruct (Z.leb_spec (to_int #(a * 0.9)) 25) as [Hl | _]; [lia | exact S].
  - assert (Hi : (to_int #(a * 0.9) <= 25)%Z).
    { unfold to_int, trunc. rewrite Rltb_false by lra.
      destruct (base_Int_part (a * 0.9)) as [Hb1 _].
      assert (Hlt : IZR (Int_part (a * 0.9)) < 26) by lra.
      apply lt_IZR in Hlt. unfold INT_MIN, INT_MAX. lia. }
    destruct (Z.leb_spec (to_int #(a * 0.9)) 25) as [_ | Hl]; [exact S | lia].
Qed.

(** In the run of eight blocks with the AGR control at 0 from the
    constructed state, the generator has been called eight times: four
    times in the seventh block and four times in the eighth. *)
Lemma randomizer_reaches_its_zone :
  randState (fst (run 48000 (repeat agrZeroBlock 8) (construct 48000))) =
    randomStateAfter 8 0x12345678 /\
  randomStateAfter 8 0x12345678 = 3306712617%Z.
Proof.
  split; [| vm_compute; reflexivity].
  cbn [repeat]. rewrite !run_fst_cons. cbn [run fst].
  assert (A0 : agrSmooth (construct 48000) = #50) by reflexivity.
  assert (R0 : randState (construct 48000) = 0x12345678%Z) by reflexivity.
  set (d0 := construct 48000) in *.
  destruct (step_agrZero 48000 d0 _ A0 ltac:(lra)) as (A1 & R1 & _).
  specialize (R1 ltac:(lra)).
  set (d1 := l_dtc (step 48000 _ d0 _ _)) in *.
  destruct (step_agrZero 48000 d1 _ A1 ltac:(lra)) as (A2 & R2 & _).
  specialize (R2 ltac:(lra)).
  set (d2 := l_dtc (step 48000 _ d1 _ _)) in *.
  destruct (step_agrZero 48000 d2 _ A2 ltac:(lra)) as (A3 & R3 & _).
  specialize (R3 ltac:(lra)).
  set (d3 := l_dtc (step 48000 _ d2 _ _)) in *.
  destruct (step_agrZero 48000 d3 _ A3 ltac:(lra)) as (A4 & R4 & _).
  specialize (R4 ltac:(lra)).
  set (d4 := l_dtc (step 48000 _ d3 _ _)) in *.
  destruct (step_agrZero 48000 d4 _ A4 ltac:(lra)) as (A5 & R5 & _).
  specialize (R5 ltac:(lra)).
  set (d5 := l_dtc (step 48000 _ d4 _ _)) in *.
  destruct (step_agrZero 48000 d5 _ A5 ltac:(lra)) as (A6 & R6 & _).
  specialize (R6 ltac:(lra)).
  set (d6 := l_dtc (step 48000 _ d5 _ _)) in *.
  destruct (step_agrZero 48000 d6 _ A6 ltac:(lra)) as (A7 & _ & R7).
  specialize (R7 ltac:(lra)).
  set (d7 := l_dtc (step 48000 _ d6 _ _)) in *.
  destruct (step_agrZero 48000 d7 _ A7 ltac:(lra)) as (A8 & _ & R8).
  specialize (R8 ltac:(lra)).
  rewrite R8, R7, R6, R5, R4, R3, R2, R1, R0. reflexivity.
Qed.
